(** * PageRank: transition model, random-walk sampler and iterative solver

    A shallow embedding of [pagerank.py].

    - Python floats are modelled as exact rationals ([Qc], canonical
      fractions with Leibniz equality); [round(x, 5)] is round-half-even
      to a multiple of 10^-5. Where a property depends on how the ranks
      are represented, the solver is also given over the binary64 numbers
      of the program (module [Binary64]).
    - A Python [dict] is an association list in insertion order with
      unique keys ([dict_wf]); a Python [set] of pages is a [gset].
    - The corpus is one mutable object shared by the callers: it lives in
      the [world], together with the state of the random generator.
      The functions of the program are computations in a state and
      exception monad over that world. *)

From Stdlib Require Import QArith Qcanon Qround Lqa Floats.
From stdpp Require Import base numbers list strings gmap sets.

Local Open Scope Qc_scope.

(** ** Numbers *)

(** [int -> float] conversion of a length or a count. *)
Definition Qc_of_nat (n : nat) : Qc := Qc_of_Z (Z.of_nat n).

(** Round half to even, the tie rule of Python's [round]. *)
Definition round_half_even (q : Q) : Z :=
  let f := Qfloor q in
  let r := (q - inject_Z f)%Q in
  match (r ?= 1 # 2)%Q with
  | Lt => f
  | Gt => (f + 1)%Z
  | Eq => if Z.even f then f else (f + 1)%Z
  end.

(** [round(x, ndigits)] for a non-negative number of digits. *)
Definition py_round (x : Qc) (ndigits : nat) : Qc :=
  let scale := (10 ^ Z.of_nat ndigits)%Z in
  Q2Qc (Qmake (round_half_even (this x * inject_Z scale)) (Z.to_pos scale)).

(** ** Exceptions and outcomes *)

(** The exceptions the modelled code and library calls can raise.
    [InvalidInput] is the error kind of the specification; no operation
    below raises it. *)
Inductive exn : Type :=
  | KeyError
  | IndexError
  | ZeroDivisionError
  | ValueError
  | InvalidInput.

(** The outcome of running a computation: a value, an exception, or the
    exhaustion of the fuel that bounds the solver's [while] loop. *)
Inductive outcome (A : Type) : Type :=
  | Ok (a : A)
  | Raise (e : exn)
  | OutOfFuel.
Arguments Ok {A} a.
Arguments Raise {A} e.
Arguments OutOfFuel {A}.

Global Instance exn_eq_dec : EqDecision exn.
Proof. solve_decision. Defined.
Global Instance outcome_eq_dec {A} `{EqDecision A} : EqDecision (outcome A).
Proof. solve_decision. Defined.

(** ** Dictionaries *)

Section Dict.
Context {K V : Type} `{EqDecision K}.

Definition dict := list (K * V).

Definition dict_keys (d : dict) : list K := d.*1.
Definition dict_values (d : dict) : list V := d.*2.

(** Python dicts hold each key once. *)
Definition dict_wf (d : dict) : Prop := NoDup (dict_keys d).

(** [d.get(k)]: the value bound to [k], if any. *)
Fixpoint dict_get (k : K) (d : dict) : option V :=
  match d with
  | [] => None
  | (k', v) :: d' => if decide (k = k') then Some v else dict_get k d'
  end.

(** [d[k] = v]: overwrite in place, or append a new key at the end. *)
Fixpoint dict_set (k : K) (v : V) (d : dict) : dict :=
  match d with
  | [] => [(k, v)]
  | (k', v') :: d' =>
      if decide (k = k') then (k', v) :: d' else (k', v') :: dict_set k v d'
  end.

(** [d1 == d2]: the same bindings, whatever the insertion order. *)
Definition dict_eqb `{EqDecision V} (d1 d2 : dict) : bool :=
  bool_decide (length d1 = length d2)
  && forallb (λ kv, bool_decide (dict_get kv.1 d2 = Some kv.2)) d1.
End Dict.
Arguments dict : clear implicits.

(** ** The world: the corpus object and the random generator *)

Definition Page := string.
Definition Corpus := dict Page (gset Page).
Definition Distribution := dict Page Qc.

(** [entropy] is the sequence of raw numbers the generator will produce
    and [cursor] the position of the next one. *)
Record world : Type := World {
  corpus_obj : Corpus;
  entropy : nat → N;
  cursor : nat
}.

Definition M (A : Type) : Type := world → outcome A * world.

Definition ret {A} (a : A) : M A := λ w, (Ok a, w).
Definition raise {A} (e : exn) : M A := λ w, (Raise e, w).
Definition out_of_fuel {A} : M A := λ w, (OutOfFuel, w).
Definition bind {A B} (m : M A) (f : A → M B) : M B :=
  λ w, match m w with
       | (Ok a, w') => f a w'
       | (Raise e, w') => (Raise e, w')
       | (OutOfFuel, w') => (OutOfFuel, w')
       end.

Notation "x <- m ;; k" := (bind m (λ x, k))
  (at level 100, m at next level, right associativity).
Notation "m ;;; k" := (bind m (λ _, k))
  (at level 100, right associativity).

Definition lift_option {A} (e : exn) (o : option A) : M A :=
  match o with Some a => ret a | None => raise e end.

(** [for x in xs: acc = body(acc, x)] *)
Fixpoint for_each {A S} (xs : list A) (body : S → A → M S) (acc : S) : M S :=
  match xs with
  | [] => ret acc
  | x :: xs' => acc' <- body acc x ;; for_each xs' body acc'
  end.

(** [[f(x) for x in xs]] *)
Fixpoint for_list {A B} (xs : list A) (f : A → M B) : M (list B) :=
  match xs with
  | [] => ret []
  | x :: xs' => y <- f x ;; ys <- for_list xs' f ;; ret (y :: ys)
  end.

(** *** Operations on the corpus object *)

(** [[page for page in corpus]] *)
Definition corpus_keys : M (list Page) := λ w, (Ok (dict_keys (corpus_obj w)), w).

(** [len(corpus)] *)
Definition corpus_len : M nat := λ w, (Ok (length (corpus_obj w)), w).

(** [corpus[key]] *)
Definition corpus_getitem (key : Page) : M (gset Page) :=
  λ w, match dict_get key (corpus_obj w) with
       | Some s => (Ok s, w)
       | None => (Raise KeyError, w)
       end.

(** [corpus[key] = s] *)
Definition corpus_setitem (key : Page) (s : gset Page) : M unit :=
  λ w, (Ok (), World (dict_set key s (corpus_obj w)) (entropy w) (cursor w)).

(** *** Arithmetic that can raise *)

(** [x / y] on numbers. *)
Definition py_div (x y : Qc) : M Qc :=
  if decide (y = 0) then raise ZeroDivisionError else ret (x / y).

(** [d[k]] on a local dictionary. *)
Definition dict_getitem {V} (k : Page) (d : dict Page V) : M V :=
  lift_option KeyError (dict_get k d).

(** ** The [random] module

    The generator is a source of raw numbers. [random()] scales a 53-bit
    draw into [0, 1); [_randbelow(n)] reduces a draw below [n]. *)

Definition next_raw : M N :=
  λ w, (Ok (entropy w (cursor w)),
        World (corpus_obj w) (entropy w) (S (cursor w))).

Definition random_random : M Qc :=
  r <- next_raw ;;
  ret (Q2Qc (Qmake (Z.of_N (r mod 2 ^ 53)) (2 ^ 53))).

(** [seq[i]] on a list. *)
Definition list_getitem {A} (l : list A) (i : nat) : M A :=
  lift_option IndexError (l !! i).

(** [random.choice(seq)] *)
Definition random_choice {A} (seq : list A) : M A :=
  if bool_decide (length seq = 0%nat) then raise IndexError
  else r <- next_raw ;;
       list_getitem seq (N.to_nat (r mod N.of_nat (length seq))).

(** [itertools.accumulate(weights)]: the running sums. *)
Fixpoint accumulate_from (acc : Qc) (weights : list Qc) : list Qc :=
  match weights with
  | [] => []
  | x :: weights' => (acc + x) :: accumulate_from (acc + x) weights'
  end.
Definition accumulate (weights : list Qc) : list Qc := accumulate_from 0 weights.

(** [bisect.bisect_right(a, x, lo, hi)]: the binary search of the library;
    [steps] bounds the number of halvings. *)
Fixpoint bisect_loop (steps : nat) (a : list Qc) (x : Qc) (lo hi : nat) : nat :=
  match steps with
  | O => lo
  | S steps' =>
      if bool_decide (lo < hi)%nat then
        let mid := ((lo + hi) / 2)%nat in
        if bool_decide (x < default 0 (a !! mid))
        then bisect_loop steps' a x lo mid
        else bisect_loop steps' a x (mid + 1)%nat hi
      else lo
  end.
Definition bisect_right (a : list Qc) (x : Qc) (lo hi : nat) : nat :=
  bisect_loop (S hi) a x lo hi.

(** [random.choices(population, weights)[0]]: one weighted draw. *)
Definition random_choices {A} (population : list A) (weights : list Qc) : M A :=
  let n := length population in
  let cum_weights := accumulate weights in
  if negb (bool_decide (length cum_weights = n)) then raise ValueError
  else
    total <- list_getitem cum_weights (length cum_weights - 1) ;;
    if bool_decide (total ≤ 0) then raise ValueError
    else
      u <- random_random ;;
      list_getitem population (bisect_right cum_weights (u * total) 0 (n - 1)).

(** ** The program *)

(** [transition_model(corpus, page, damping_factor)] *)
Definition transition_model (page : Page) (damping_factor : Qc) : M Distribution :=
  linkedPages <- corpus_getitem page ;;
  n <- corpus_len ;;
  baseProbability <- py_div 1 (Qc_of_nat n) ;;
  probs <- (if negb (bool_decide (size linkedPages = 0%nat)) then
              inv <- py_div 1 (Qc_of_nat (size linkedPages)) ;;
              ret (baseProbability * (1 - damping_factor), inv * damping_factor)
            else ret (baseProbability, 0)) ;;
  let '(baseProbability, additionalProbability) := probs in
  keys <- corpus_keys ;;
  for_each keys
    (λ probabilityDistribution pages,
       let probabilityDistribution :=
         dict_set pages baseProbability probabilityDistribution in
       if bool_decide (pages ∈ linkedPages) then
         old <- dict_getitem pages probabilityDistribution ;;
         ret (dict_set pages (old + additionalProbability) probabilityDistribution)
       else ret probabilityDistribution)
    [].

(** One turn of the sampling loop: the state is the list of samples and
    the previous sample. *)
Definition sample_step (damping_factor : Qc) (st : list Page * Page)
    : M (list Page * Page) :=
  let '(sample, prevSample) := st in
  prevDistribution <- transition_model prevSample damping_factor ;;
  let allPages := dict_keys prevDistribution in
  probabilities <-
    for_list (dict_keys prevDistribution)
      (λ page, dict_getitem page prevDistribution) ;;
  newSample <- random_choices allPages probabilities ;;
  ret (sample ++ [newSample], newSample).

(** [sample.count(i)] *)
Definition list_count (i : Page) (sample : list Page) : nat :=
  length (filter (λ x, x = i) sample).

(** [sample_pagerank(corpus, damping_factor, n)]. Python leaves the
    iteration order of [set(sample)] open; the model takes the order of
    [remove_dups]. *)
Definition sample_pagerank (damping_factor : Qc) (n : Z) : M Distribution :=
  allPages <- corpus_keys ;;
  firstSample <- random_choice allPages ;;
  st <- for_each (seqZ 1 (n - 1)) (λ st _, sample_step damping_factor st)
          ([firstSample], firstSample) ;;
  let sample := st.1 in
  for_each (remove_dups sample)
    (λ ranks i,
       freq <- py_div (Qc_of_nat (list_count i sample)) (Qc_of_Z n) ;;
       ret (dict_set i freq ranks))
    [].

(** Lines 151 to 153: give every page without links a link to every page. *)
Definition dangling_fix : M unit :=
  keys <- corpus_keys ;;
  for_each keys
    (λ _ key,
       links <- corpus_getitem key ;;
       if bool_decide (links = ∅) then
         all <- corpus_keys ;;
         corpus_setitem key (list_to_set all)
       else ret ())
    ().

(** The body of the [for page in corpus] loop: the value assigned to
    [probabilityDistribution[page]]. *)
Definition new_rank (damping_factor : Qc) (probabilityDistribution : Distribution)
    (page : Page) : M Qc :=
  keys <- corpus_keys ;;
  pagesWithInwardLinks <-
    for_each keys
      (λ acc nestedPage,
         links <- corpus_getitem nestedPage ;;
         ret (if bool_decide (page ∈ links) then acc ++ [nestedPage] else acc))
      [] ;;
  sum <-
    for_each pagesWithInwardLinks
      (λ sum subPage,
         rank <- dict_getitem subPage probabilityDistribution ;;
         links <- corpus_getitem subPage ;;
         share <- py_div rank (Qc_of_nat (size links)) ;;
         ret (sum + share))
      0 ;;
  n <- corpus_len ;;
  base <- py_div (1 - damping_factor) (Qc_of_nat n) ;;
  ret (py_round (base + damping_factor * sum) 5).

(** One pass of the [for page in corpus] loop. *)
Definition sweep (damping_factor : Qc) (probabilityDistribution : Distribution)
    : M Distribution :=
  keys <- corpus_keys ;;
  for_each keys
    (λ probabilityDistribution page,
       rank <- new_rank damping_factor probabilityDistribution page ;;
       ret (dict_set page rank probabilityDistribution))
    probabilityDistribution.

(** The [while] loop, run for at most [fuel] sweeps. *)
Fixpoint while_loop (fuel : nat) (damping_factor : Qc)
    (probabilityDistribution priorDistribution : Distribution) : M Distribution :=
  if negb (dict_eqb probabilityDistribution priorDistribution) then
    match fuel with
    | O => out_of_fuel
    | S fuel' =>
        let priorDistribution := probabilityDistribution in
        probabilityDistribution <- sweep damping_factor probabilityDistribution ;;
        while_loop fuel' damping_factor probabilityDistribution priorDistribution
    end
  else ret probabilityDistribution.

(** [iterate_pagerank(corpus, damping_factor)] *)
Definition iterate_pagerank (fuel : nat) (damping_factor : Qc) : M Distribution :=
  keys <- corpus_keys ;;
  probabilityDistribution <-
    for_each keys
      (λ acc key,
         n <- corpus_len ;;
         p <- py_div 1 (Qc_of_nat n) ;;
         ret (dict_set key p acc))
      [] ;;
  dangling_fix ;;;
  while_loop fuel damping_factor probabilityDistribution [].

(** ** The crawler *)

(** [s.endswith(suffix)] *)
Definition ends_with (suffix s : string) : bool :=
  let n := String.length s in
  let m := String.length suffix in
  (m <=? n)%nat && String.eqb (String.substring (n - m) m s) suffix.

(** [crawl(directory)]. The directory is given by its entries, file name
    and contents, in the order [os.listdir] yields them; [findall] stands
    for [re.findall] with the pattern of line 39, the list of the [href]
    values found in the contents of a file. *)
Definition crawl (findall : string → list string)
    (directory : list (string * string)) : M Corpus :=
  pages <-
    for_each directory
      (λ pages entry,
         let '(filename, contents) := entry in
         if negb (ends_with ".html" filename) then ret pages
         else
           let links := findall contents in
           ret (dict_set filename (list_to_set links ∖ {[filename]}) pages))
      [] ;;
  for_each (dict_keys pages)
    (λ pages filename,
       links <- dict_getitem filename pages ;;
       ret (dict_set filename
              (filter (λ link, link ∈ dict_keys pages) links) pages))
    pages.

(** ** The solver over binary64

    The program computes with Python floats, the binary64 numbers of
    IEEE 754: every operation returns the representable number nearest to
    the exact result, ties to even. This module gives the solver over
    these numbers ([PrimFloat]), for the properties that depend on the
    representation of the ranks. *)

Module Binary64.

Definition Distribution := dict Page float.

(** The binary64 number nearest to [n / d], with the sign asked for: what
    the conversion of a decimal numeral to a float returns. *)
Definition nearest (negative : bool) (n : Z) (d : positive) : float :=
  match n with
  | Z.pos m =>
      SF2Prim (SFdiv prec emax (S754_finite negative m 0) (S754_finite false d 0))
  | _ => if negative then neg_zero else zero
  end.

(** [int -> float] conversion of a length: the nearest float, the integer
    itself below 2^53. *)
Definition float_of_nat (n : nat) : float :=
  SF2Prim (binary_normalize prec emax (Z.of_nat n) 0 false).

(** The rational number a finite float stands for. *)
Definition value (x : float) : option Qc :=
  match Prim2SF x with
  | S754_zero _ => Some 0
  | S754_finite s m e =>
      Some (Q2Qc ((if s then -1 else 1) * inject_Z (Z.pos m) * 2 ^ e)%Q)
  | _ => None
  end.

(** [round(x, ndigits)] for a non-negative number of digits: the exact
    value of [x] is rounded half to even to [ndigits] decimals, and the
    decimal numeral obtained is converted back to a float. Zeros,
    infinities and NaN round to themselves. *)
Definition py_round (x : float) (ndigits : nat) : float :=
  match Prim2SF x with
  | S754_finite s m e =>
      let scale := (10 ^ Z.of_nat ndigits)%Z in
      nearest s (round_half_even (inject_Z (Z.pos m) * 2 ^ e * inject_Z scale)%Q)
        (Z.to_pos scale)
  | _ => x
  end.

(** [x / y] on numbers. *)
Definition py_div (x y : float) : M float :=
  if PrimFloat.eqb y zero then raise ZeroDivisionError else ret (x / y)%float.

(** [d1 == d2] on dictionaries of floats: the values are compared as
    floats are, so that NaN differs from itself. (Python takes two values
    that are the same object for equal; the values compared here never
    are, every sweep storing the new floats that [round] returns.) *)
Definition dict_eqb (d1 d2 : Distribution) : bool :=
  bool_decide (length d1 = length d2)
  && forallb (λ kv, match dict_get kv.1 d2 with
                    | Some v => PrimFloat.eqb kv.2 v
                    | None => false
                    end) d1.

(** The body of the [for page in corpus] loop: the value assigned to
    [probabilityDistribution[page]]. *)
Definition new_rank (damping_factor : float) (probabilityDistribution : Distribution)
    (page : Page) : M float :=
  keys <- corpus_keys ;;
  pagesWithInwardLinks <-
    for_each keys
      (λ acc nestedPage,
         links <- corpus_getitem nestedPage ;;
         ret (if bool_decide (page ∈ links) then acc ++ [nestedPage] else acc))
      [] ;;
  sum <-
    for_each pagesWithInwardLinks
      (λ sum subPage,
         rank <- dict_getitem subPage probabilityDistribution ;;
         links <- corpus_getitem subPage ;;
         share <- py_div rank (float_of_nat (size links)) ;;
         ret (sum + share)%float)
      zero ;;
  n <- corpus_len ;;
  base <- py_div (one - damping_factor)%float (float_of_nat n) ;;
  ret (py_round (base + damping_factor * sum)%float 5).

(** One pass of the [for page in corpus] loop. *)
Definition sweep (damping_factor : float) (probabilityDistribution : Distribution)
    : M Distribution :=
  keys <- corpus_keys ;;
  for_each keys
    (λ probabilityDistribution page,
       rank <- new_rank damping_factor probabilityDistribution page ;;
       ret (dict_set page rank probabilityDistribution))
    probabilityDistribution.

(** The [while] loop, run for at most [fuel] sweeps. *)
Fixpoint while_loop (fuel : nat) (damping_factor : float)
    (probabilityDistribution priorDistribution : Distribution) : M Distribution :=
  if negb (dict_eqb probabilityDistribution priorDistribution) then
    match fuel with
    | O => out_of_fuel
    | S fuel' =>
        let priorDistribution := probabilityDistribution in
        probabilityDistribution <- sweep damping_factor probabilityDistribution ;;
        while_loop fuel' damping_factor probabilityDistribution priorDistribution
    end
  else ret probabilityDistribution.

(** [iterate_pagerank(corpus, damping_factor)] *)
Definition iterate_pagerank (fuel : nat) (damping_factor : float) : M Distribution :=
  keys <- corpus_keys ;;
  probabilityDistribution <-
    for_each keys
      (λ acc key,
         n <- corpus_len ;;
         p <- py_div one (float_of_nat n) ;;
         ret (dict_set key p acc))
      [] ;;
  dangling_fix ;;;
  while_loop fuel damping_factor probabilityDistribution [].

(** A value [round(_, 5)] returns: when it is finite and not zero, it is
    the float nearest to an integer multiple of 10^-5. *)
Definition five_decimals (v : float) : Prop :=
  (∃ x, v = py_round x 5)
  ∧ ∀ s m e, Prim2SF v = S754_finite s m e →
      ∃ negative z, v = nearest negative z 100000.

(** The float the program writes [0.85]. *)
Definition d85 : float := nearest false 85 100.

(** The float written [0.33333], for each page of a cycle of three. *)
Definition cycle3_ranks : Distribution :=
  [("A", nearest false 33333 100000); ("B", nearest false 33333 100000);
   ("C", nearest false 33333 100000)]%string.

End Binary64.

(** ** Closed forms and predicates used by the properties *)

(** The computation leaves the whole world as it found it. *)
Definition read_only {A} (m : M A) : Prop := ∀ w, (m w).2 = w.

(** The computation leaves the corpus object as it found it. *)
Definition keeps_corpus {A} (m : M A) : Prop :=
  ∀ w, corpus_obj (m w).2 = corpus_obj w.

(** The computation neither reads nor advances the random generator:
    outcome and final corpus are functions of the corpus alone. *)
Definition rng_free {A} (m : M A) : Prop :=
  ∀ c e1 k1 e2 k2,
    (m (World c e1 k1)).1 = (m (World c e2 k2)).1
    ∧ corpus_obj (m (World c e1 k1)).2 = corpus_obj (m (World c e2 k2)).2
    ∧ entropy (m (World c e1 k1)).2 = e1
    ∧ cursor (m (World c e1 k1)).2 = k1.

(** The computation never ends in the exception [e]. *)
Definition never_raises {A} (e : exn) (m : M A) : Prop :=
  ∀ w, (m w).1 ≠ Raise e.

(** The two numbers [transition_model] computes before its loop, for a
    corpus of [n] pages and a page with [k] links. *)
Definition base_probability (n k : nat) (d : Qc) : Qc :=
  if bool_decide (k = 0%nat) then 1 / Qc_of_nat n
  else 1 / Qc_of_nat n * (1 - d).
Definition additional_probability (k : nat) (d : Qc) : Qc :=
  if bool_decide (k = 0%nat) then 0 else 1 / Qc_of_nat k * d.

(** The entry the loop leaves for page [q]. *)
Definition transition_entry (n : nat) (links : gset Page) (d : Qc) (q : Page)
    : Page * Qc :=
  (q, if bool_decide (q ∈ links)
      then base_probability n (size links) d + additional_probability (size links) d
      else base_probability n (size links) d).

(** One turn of the loop of [transition_model], with base probability
    [b] and additional probability [a]. *)
Definition transition_step (links : gset Page) (b a : Qc)
    (pd : Distribution) (q : Page) : Distribution :=
  let pd := dict_set q b pd in
  if bool_decide (q ∈ links) then dict_set q (b + a) pd else pd.

(** Sum of a list of numbers. *)
Definition Qc_sum (l : list Qc) : Qc := foldr Qcplus 0 l.

(** The invariant of the data model: every link leads to a page of the
    corpus. *)
Definition corpus_closed (c : Corpus) : Prop :=
  ∀ page links, dict_get page c = Some links → ∀ q, q ∈ links → q ∈ dict_keys c.

(** The links of a page after the preprocessing loop, [all] being the
    set of all pages. *)
Definition fix_links (all links : gset Page) : gset Page :=
  if bool_decide (links = ∅) then all else links.

(** The corpus after the preprocessing loop. *)
Definition normalized (c : Corpus) : Corpus :=
  prod_map id (fix_links (list_to_set (dict_keys c))) <$> c.

(** The entries of the pages that link to [page]. *)
Definition inward (c : Corpus) (page : Page) : Corpus :=
  filter (λ kv, page ∈ kv.2) c.

(** Sum over the pages [q] that link to [page] of [rank q / |links q|]. *)
Definition link_sum (c : Corpus) (rank : Page → Qc) (page : Page) : Qc :=
  Qc_sum ((λ kv, rank kv.1 / Qc_of_nat (size kv.2)) <$> inward c page).

(** The PageRank recurrence:
    [(1 - d) / N + d * sum of rank q / |links q| over the q linking to page]. *)
Definition rank_formula (c : Corpus) (d : Qc) (rank : Page → Qc) (page : Page) : Qc :=
  (1 - d) / Qc_of_nat (length c) + d * link_sum c rank page.

(** A distribution read as a function. *)
Definition rank_of (pd : Distribution) (q : Page) : Qc := default 0 (dict_get q pd).

(** The assignment [probabilityDistribution[page] = round(..., 5)]. *)
Definition sweep_step (c : Corpus) (d : Qc) (pd : Distribution) (page : Page)
    : Distribution :=
  dict_set page (py_round (rank_formula c d (rank_of pd) page) 5) pd.

(** Updating the entries of a dictionary one after the other, each new
    value computed by [val] from the dictionary as it stands. *)
Fixpoint in_place {V} (val : dict Page V → Page → V) (done rest : dict Page V)
    : dict Page V :=
  match rest with
  | [] => done
  | (p, _) :: rest' => in_place val (done ++ [(p, val (done ++ rest) p)]) rest'
  end.

(** A number with at most five decimals: an integer multiple of 10^-5. *)
Definition five_decimals (v : Qc) : Prop :=
  ∃ z : Z, v = Qc_of_Z z / Qc_of_Z 100000.

(** The uniform distribution the solver starts from. *)
Definition uniform (c : Corpus) : Distribution :=
  (λ q, (q, 1 / Qc_of_nat (length c))) <$> dict_keys c.

(** The world after one raw draw. *)
Definition advance (w : world) : world :=
  World (corpus_obj w) (entropy w) (S (cursor w)).

(** The frequencies computed by the final comprehension. *)
Definition frequencies (sample : list Page) (n : Z) : Distribution :=
  foldl (λ ranks i,
           dict_set i (Qc_of_nat (list_count i sample) / Qc_of_Z n) ranks)
    [] (remove_dups sample).

(** The sweep the specification describes: every page updated from the
    previous distribution alone. *)
Definition simultaneous_sweep (c : Corpus) (d : Qc) (prior : Distribution)
    : Distribution :=
  (λ page, (page, rank_formula c d (rank_of prior) page)) <$> dict_keys c.

(** The same, each value rounded to five decimals. *)
Definition rounded_simultaneous_sweep (c : Corpus) (d : Qc) (prior : Distribution)
    : Distribution :=
  (λ page, (page, py_round (rank_formula c d (rank_of prior) page) 5))
    <$> dict_keys c.

(** The entries of a directory [crawl] reads. *)
Definition html_entries (directory : list (string * string))
    : list (string * string) :=
  filter (λ entry, ends_with ".html" entry.1) directory.

(** The pages after the first loop of [crawl]. *)
Definition raw_pages (findall : string → list string)
    (directory : list (string * string)) : Corpus :=
  (λ entry, (entry.1, list_to_set (findall entry.2) ∖ {[entry.1]}))
    <$> html_entries directory.

(** [set(link for link in links if link in pages)], [keys] being the
    keys of [pages]. *)
Definition keep_known (keys : list Page) (links : gset Page) : gset Page :=
  filter (λ link, link ∈ keys) links.

(** The pages [crawl] returns. *)
Definition crawled (findall : string → list string)
    (directory : list (string * string)) : Corpus :=
  prod_map id (keep_known (dict_keys (raw_pages findall directory)))
    <$> raw_pages findall directory.

(** ** Worked examples *)

(** A generator whose raw draws are all zero, and a world at its first
    draw. *)
Definition zero_entropy : nat → N := λ _, 0%N.
Definition init_world (c : Corpus) (e : nat → N) : world := World c e 0.

(** [{A: {B, C}, B: {C}, C: {A}}] *)
Definition corpus3 : Corpus :=
  [("A", {["B"; "C"]}); ("B", {["C"]}); ("C", {["A"]})]%string.
(** [{A: {B}, B: {C}, C: {A}}] *)
Definition cycle3 : Corpus :=
  [("A", {["B"]}); ("B", {["C"]}); ("C", {["A"]})]%string.
(** [{A: {B}, B: {A}}] *)
Definition corpus2 : Corpus := [("A", {["B"]}); ("B", {["A"]})]%string.
(** [{A: set(), B: {A}}] *)
Definition dangling2 : Corpus := [("A", ∅); ("B", {["A"]})]%string.
(** [{A: {B, X}, B: {A}}]: the link to X leaves the corpus. *)
Definition leaky : Corpus := [("A", {["B"; "X"]}); ("B", {["A"]})]%string.
(** [DAMPING = 0.85] *)
Definition d85 : Qc := Q2Qc (85 # 100).

(** The result of the solver on the three-page cycle. *)
Definition cycle3_ranks : Distribution :=
  [("A", Q2Qc (33333 # 100000)); ("B", Q2Qc (33333 # 100000));
   ("C", Q2Qc (33333 # 100000))]%string.

(** A directory of three pages and a file that is not a page. *)
Definition example_directory : list (string * string) :=
  [("1.html", "<a href=2.html> <a href=1.html>");
   ("2.html", "<a href=3.html> <a href=gone.html>");
   ("notes.txt", "<a href=1.html>");
   ("3.html", "")]%string.

(** [re.findall] on the files of [example_directory]. *)
Definition example_findall (contents : string) : list string :=
  if String.eqb contents "<a href=2.html> <a href=1.html>" then ["2.html"; "1.html"]
  else if String.eqb contents "<a href=3.html> <a href=gone.html>"
       then ["3.html"; "gone.html"]
  else if String.eqb contents "<a href=1.html>" then ["1.html"]
  else [].

(** * Properties *)

(** ** Numbers *)

Lemma Qc_of_nat_0 : Qc_of_nat 0 = 0.
Proof. apply Z2Qc_inj_0. Qed.

Lemma Qc_of_nat_S n : Qc_of_nat (S n) = 1 + Qc_of_nat n.
Proof.
  unfold Qc_of_nat. rewrite Nat2Z.inj_succ, <- Z.add_1_l, Z2Qc_inj_add.
  by rewrite Z2Qc_inj_1.
Qed.

Lemma Qc_of_nat_nonneg n : 0 ≤ Qc_of_nat n.
Proof.
  unfold Qc_of_nat. rewrite <- Z2Qc_inj_0. apply (proj1 (Z2Qc_inj_le _ _)). lia.
Qed.

Lemma Qc_of_nat_pos n : (0 < n)%nat → 0 < Qc_of_nat n.
Proof.
  intros Hn. unfold Qc_of_nat. rewrite <- Z2Qc_inj_0.
  apply (proj1 (Z2Qc_inj_lt _ _)). lia.
Qed.

Lemma Qc_of_nat_ne_0 n : n ≠ 0%nat → Qc_of_nat n ≠ 0.
Proof.
  intros Hn. unfold Qc_of_nat. rewrite <- Z2Qc_inj_0. intros ?%Z2Qc_inj. lia.
Qed.

Lemma Qc_of_Z_ne_0 z : z ≠ 0%Z → Qc_of_Z z ≠ 0.
Proof. intros Hz Heq. rewrite <- Z2Qc_inj_0 in Heq. by apply Z2Qc_inj in Heq. Qed.

(** ** Dictionaries *)

Section DictFacts.
Context {K V : Type} `{EqDecision K}.
Implicit Types (d : dict K V) (k : K) (v : V).

Lemma dict_get_app_notin k d1 d2 :
  k ∉ dict_keys d1 → dict_get k (d1 ++ d2) = dict_get k d2.
Proof.
  induction d1 as [|[k' v'] d1 IH]; simpl; [done|].
  intros Hk. apply not_elem_of_cons in Hk as [Hne Hk].
  rewrite decide_False by done. by apply IH.
Qed.

Lemma dict_get_Some_elem k v d : dict_get k d = Some v → (k, v) ∈ d.
Proof.
  induction d as [|[k' v'] d IH]; simpl; [done|].
  case_decide as Hk.
  - intros [= ->]. subst. left.
  - intros Hget. right. by apply IH.
Qed.

Lemma dict_get_None k d : dict_get k d = None ↔ k ∉ dict_keys d.
Proof.
  induction d as [|[k' v'] d IH]; simpl.
  - split; [intros _; apply not_elem_of_nil|done].
  - rewrite not_elem_of_cons. case_decide as Hk.
    + split; [done|]. by intros [? _].
    + rewrite IH. split; [done|]. by intros [_ ?].
Qed.

Lemma dict_get_is_Some k d : is_Some (dict_get k d) ↔ k ∈ dict_keys d.
Proof.
  rewrite <- not_eq_None_Some, dict_get_None.
  destruct (decide (k ∈ dict_keys d)); naive_solver.
Qed.

Lemma dict_get_elem k v d : dict_wf d → (k, v) ∈ d → dict_get k d = Some v.
Proof.
  unfold dict_wf, dict_keys.
  induction d as [|[k' v'] d IH]; simpl; [by intros _ ?%elem_of_nil|].
  intros [Hnotin Hnd]%NoDup_cons [[= -> ->]|Hin]%elem_of_cons.
  - by rewrite decide_True.
  - rewrite decide_False; [by apply IH|].
    intros ->. apply Hnotin. apply list_elem_of_fmap. by exists (k', v).
Qed.

Lemma dict_get_set_eq k v d : dict_get k (dict_set k v d) = Some v.
Proof.
  induction d as [|[k' v'] d IH]; simpl.
  - by rewrite decide_True.
  - case_decide as Hk; simpl.
    + subst. by rewrite decide_True.
    + by rewrite decide_False.
Qed.

Lemma dict_get_set_ne k k' v d :
  k ≠ k' → dict_get k' (dict_set k v d) = dict_get k' d.
Proof.
  intros Hne. induction d as [|[k0 v0] d IH]; simpl.
  - by rewrite decide_False.
  - case_decide as Hk; simpl.
    + subst. by rewrite !decide_False.
    + case_decide; [done|apply IH].
Qed.

Lemma dict_set_notin k v d : k ∉ dict_keys d → dict_set k v d = d ++ [(k, v)].
Proof.
  induction d as [|[k' v'] d IH]; simpl; [done|].
  intros [Hne Hk]%not_elem_of_cons.
  rewrite decide_False by done. f_equal. by apply IH.
Qed.

Lemma dict_set_app_notin k v d1 d2 :
  k ∉ dict_keys d1 → dict_set k v (d1 ++ d2) = d1 ++ dict_set k v d2.
Proof.
  induction d1 as [|[k' v'] d1 IH]; simpl; [done|].
  intros [Hne Hk]%not_elem_of_cons.
  rewrite decide_False by done. f_equal. by apply IH.
Qed.

Lemma dict_set_head k v v' d : dict_set k v ((k, v') :: d) = (k, v) :: d.
Proof. simpl. by rewrite decide_True. Qed.

Lemma dict_keys_app d1 d2 : dict_keys (d1 ++ d2) = dict_keys d1 ++ dict_keys d2.
Proof. apply fmap_app. Qed.

Lemma dict_keys_set_in k v d :
  k ∈ dict_keys d → dict_keys (dict_set k v d) = dict_keys d.
Proof.
  induction d as [|[k' v'] d IH]; simpl; [by intros ?%elem_of_nil|].
  case_decide as Hk; [done|].
  intros [?|Hin]%elem_of_cons; [done|]. simpl. f_equal. by apply IH.
Qed.

Lemma length_dict_keys d : length (dict_keys d) = length d.
Proof. apply length_fmap. Qed.

Lemma dict_eqb_refl `{EqDecision V} d : dict_wf d → dict_eqb d d = true.
Proof.
  intros Hwf. unfold dict_eqb. rewrite bool_decide_eq_true_2 by done. simpl.
  apply forallb_forall. intros [k v] Hin%list_elem_of_In.
  apply bool_decide_eq_true_2. by apply dict_get_elem.
Qed.

Lemma dict_eqb_nil_r `{EqDecision V} d : dict_eqb d [] = true → d = [].
Proof.
  unfold dict_eqb. intros [Hlen _]%andb_prop.
  apply bool_decide_eq_true_1 in Hlen. by apply nil_length_inv.
Qed.
End DictFacts.

(** ** Running computations *)

Lemma bind_Ok {A B} (m : M A) (f : A → M B) w a w' :
  m w = (Ok a, w') → bind m f w = f a w'.
Proof. unfold bind. by intros ->. Qed.

Lemma bind_Raise {A B} (m : M A) (f : A → M B) w e w' :
  m w = (Raise e, w') → bind m f w = (Raise e, w').
Proof. unfold bind. by intros ->. Qed.

Lemma bind_assoc {A B C} (m : M A) (f : A → M B) (g : B → M C) w :
  bind (bind m f) g w = bind m (λ a, bind (f a) g) w.
Proof. unfold bind. by destruct (m w) as [[a| |] w']. Qed.

(** Reading every key of a dictionary gives its values. *)
Lemma for_list_getitem {V} (d sub : dict Page V) w :
  dict_wf d →
  (∀ kv, kv ∈ sub → kv ∈ d) →
  for_list (dict_keys sub) (λ page, dict_getitem page d) w = (Ok (dict_values sub), w).
Proof.
  intros Hwf. induction sub as [|[k v] sub IH]; intros Hsub; [done|].
  cbn [dict_keys dict_values fmap list_fmap for_list fst snd].
  erewrite bind_Ok; last first.
  { unfold dict_getitem. erewrite dict_get_elem; [done..|]. apply Hsub. left. }
  unfold dict_keys, dict_values in IH.
  erewrite bind_Ok by (apply IH; intros kv Hkv; apply Hsub; by right).
  done.
Qed.

(** A loop whose body never fails and leaves the world alone computes a
    fold. *)
Lemma for_each_pure {A S} (xs : list A) (body : S → A → M S) (g : S → A → S)
    (I : S → Prop) acc w :
  I acc →
  (∀ s x, I s → x ∈ xs → body s x w = (Ok (g s x), w) ∧ I (g s x)) →
  for_each xs body acc w = (Ok (foldl g acc xs), w) ∧ I (foldl g acc xs).
Proof.
  revert acc. induction xs as [|x xs IH]; simpl; intros acc Hacc Hbody; [done|].
  destruct (Hbody acc x Hacc) as [Hrun Hinv]; [left|].
  erewrite bind_Ok by done. apply IH; [done|].
  intros s y Hs Hy. apply Hbody; [done|by right].
Qed.

(** ** Frame properties: what a computation may touch *)

Create HintDb frame.

Lemma read_only_keeps_corpus {A : Type} (m : M A) : read_only m → keeps_corpus m.
Proof. intros Hm w. by rewrite Hm. Qed.

Lemma read_only_ret {A : Type} (a : A) : read_only (ret a).
Proof. done. Qed.
Lemma read_only_raise {A : Type} e : read_only (@raise A e).
Proof. done. Qed.
Lemma read_only_out_of_fuel {A : Type} : read_only (@out_of_fuel A).
Proof. done. Qed.
Lemma read_only_lift_option {A : Type} e (o : option A) : read_only (lift_option e o).
Proof. by destruct o. Qed.

Lemma read_only_bind {A B : Type} (m : M A) (f : A → M B) :
  read_only m → (∀ a, read_only (f a)) → read_only (bind m f).
Proof.
  intros Hm Hf w. unfold bind. specialize (Hm w).
  destruct (m w) as [[a| |] w']; simpl in *; subst; [apply Hf|done..].
Qed.

Lemma read_only_for_each {A B : Type} (xs : list B) (body : A → B → M A) acc :
  (∀ s x, read_only (body s x)) → read_only (for_each xs body acc).
Proof.
  intros Hbody. revert acc. induction xs as [|x xs IH]; intros acc; simpl.
  - apply read_only_ret.
  - apply read_only_bind; [apply Hbody|apply IH].
Qed.

Lemma keeps_corpus_ret {A : Type} (a : A) : keeps_corpus (ret a).
Proof. done. Qed.
Lemma keeps_corpus_raise {A : Type} e : keeps_corpus (@raise A e).
Proof. done. Qed.
Lemma keeps_corpus_lift_option {A : Type} e (o : option A) : keeps_corpus (lift_option e o).
Proof. by destruct o. Qed.

Lemma keeps_corpus_bind {A B : Type} (m : M A) (f : A → M B) :
  keeps_corpus m → (∀ a, keeps_corpus (f a)) → keeps_corpus (bind m f).
Proof.
  intros Hm Hf w. unfold bind. specialize (Hm w).
  destruct (m w) as [[a| |] w']; simpl in *; [|done..].
  by rewrite Hf.
Qed.

Lemma keeps_corpus_for_each {A B : Type} (xs : list B) (body : A → B → M A) acc :
  (∀ s x, keeps_corpus (body s x)) → keeps_corpus (for_each xs body acc).
Proof.
  intros Hbody. revert acc. induction xs as [|x xs IH]; intros acc; simpl.
  - apply keeps_corpus_ret.
  - apply keeps_corpus_bind; [apply Hbody|apply IH].
Qed.

Lemma rng_free_ret {A : Type} (a : A) : rng_free (ret a).
Proof. by intros c e1 k1 e2 k2. Qed.
Lemma rng_free_raise {A : Type} e : rng_free (@raise A e).
Proof. by intros c e1 k1 e2 k2. Qed.
Lemma rng_free_out_of_fuel {A : Type} : rng_free (@out_of_fuel A).
Proof. by intros c e1 k1 e2 k2. Qed.
Lemma rng_free_lift_option {A : Type} e (o : option A) : rng_free (lift_option e o).
Proof. destruct o; [apply rng_free_ret|apply rng_free_raise]. Qed.

Lemma rng_free_bind {A B : Type} (m : M A) (f : A → M B) :
  rng_free m → (∀ a, rng_free (f a)) → rng_free (bind m f).
Proof.
  intros Hm Hf c e1 k1 e2 k2. unfold bind.
  destruct (Hm c e1 k1 e2 k2) as (Ho & Hc & He1 & Hk1).
  destruct (Hm c e2 k2 e1 k1) as (_ & _ & He2 & Hk2).
  destruct (m (World c e1 k1)) as [o1 [c1 e1' k1']].
  destruct (m (World c e2 k2)) as [o2 [c2 e2' k2']].
  simpl in *; subst.
  destruct o2 as [a| |]; [apply Hf|done..].
Qed.

Lemma rng_free_for_each {A B : Type} (xs : list B) (body : A → B → M A) acc :
  (∀ s x, rng_free (body s x)) → rng_free (for_each xs body acc).
Proof.
  intros Hbody. revert acc. induction xs as [|x xs IH]; intros acc; simpl.
  - apply rng_free_ret.
  - apply rng_free_bind; [apply Hbody|apply IH].
Qed.

Lemma read_only_corpus_keys : read_only corpus_keys.
Proof. done. Qed.
Lemma read_only_corpus_len : read_only corpus_len.
Proof. done. Qed.
Lemma read_only_corpus_getitem key : read_only (corpus_getitem key).
Proof. intros w. unfold corpus_getitem. by destruct (dict_get _ _). Qed.
Lemma read_only_py_div x y : read_only (py_div x y).
Proof. unfold py_div. by case_decide. Qed.
Lemma read_only_dict_getitem {V} k (d : dict Page V) : read_only (dict_getitem k d).
Proof. apply read_only_lift_option. Qed.

Lemma keeps_corpus_next_raw : keeps_corpus next_raw.
Proof. done. Qed.

Lemma rng_free_corpus_keys : rng_free corpus_keys.
Proof. by intros c e1 k1 e2 k2. Qed.
Lemma rng_free_corpus_len : rng_free corpus_len.
Proof. by intros c e1 k1 e2 k2. Qed.
Lemma rng_free_corpus_getitem key : rng_free (corpus_getitem key).
Proof.
  intros c e1 k1 e2 k2. unfold corpus_getitem; simpl. by destruct (dict_get _ _).
Qed.
Lemma rng_free_corpus_setitem key s : rng_free (corpus_setitem key s).
Proof. by intros c e1 k1 e2 k2. Qed.
Lemma rng_free_py_div x y : rng_free (py_div x y).
Proof.
  unfold py_div. case_decide; [apply rng_free_raise|apply rng_free_ret].
Qed.
Lemma rng_free_dict_getitem {V} k (d : dict Page V) : rng_free (dict_getitem k d).
Proof. apply rng_free_lift_option. Qed.

#[export] Hint Resolve read_only_ret read_only_raise read_only_out_of_fuel
  read_only_lift_option read_only_bind read_only_for_each
  read_only_corpus_keys read_only_corpus_len read_only_corpus_getitem
  read_only_py_div read_only_dict_getitem : frame.
#[export] Hint Resolve keeps_corpus_ret keeps_corpus_raise keeps_corpus_lift_option
  keeps_corpus_bind keeps_corpus_for_each keeps_corpus_next_raw : frame.
#[export] Hint Resolve rng_free_ret rng_free_raise rng_free_out_of_fuel
  rng_free_lift_option rng_free_bind rng_free_for_each
  rng_free_corpus_keys rng_free_corpus_len rng_free_corpus_getitem
  rng_free_corpus_setitem rng_free_py_div rng_free_dict_getitem : frame.

(** Solve a frame goal by walking down the structure of the computation. *)
Ltac frame :=
  repeat first
    [ match goal with
      | |- ∀ _, _ => intro
      | |- _ (if ?b then _ else _) => destruct b
      | |- _ (let '(_, _) := ?p in _) => destruct p
      | |- _ (match ?o with Some _ => _ | None => _ end) => destruct o
      end
    | solve [eauto with frame]
    | apply read_only_bind | apply read_only_for_each
    | apply keeps_corpus_bind | apply keeps_corpus_for_each
    | apply rng_free_bind | apply rng_free_for_each ].

Lemma read_only_transition_model page d : read_only (transition_model page d).
Proof. unfold transition_model. frame. Qed.

Lemma read_only_new_rank d pd page : read_only (new_rank d pd page).
Proof. unfold new_rank. frame. Qed.

Lemma read_only_sweep d pd : read_only (sweep d pd).
Proof. unfold sweep. frame. Qed.

Lemma read_only_while_loop fuel d pd prior : read_only (while_loop fuel d pd prior).
Proof.
  revert pd prior. induction fuel as [|fuel IH]; intros pd prior; simpl.
  - frame.
  - destruct (negb _); [|frame].
    apply read_only_bind; [apply read_only_sweep|]. intros a. apply IH.
Qed.

Lemma rng_free_new_rank d pd page : rng_free (new_rank d pd page).
Proof. unfold new_rank. frame. Qed.

Lemma rng_free_sweep d pd : rng_free (sweep d pd).
Proof. unfold sweep. frame. Qed.

Lemma rng_free_while_loop fuel d pd prior : rng_free (while_loop fuel d pd prior).
Proof.
  revert pd prior. induction fuel as [|fuel IH]; intros pd prior; simpl.
  - frame.
  - destruct (negb _); [|frame].
    apply rng_free_bind; [apply rng_free_sweep|]. intros a. apply IH.
Qed.

Lemma rng_free_dangling_fix : rng_free dangling_fix.
Proof. unfold dangling_fix. frame. Qed.

Lemma rng_free_iterate_pagerank fuel d : rng_free (iterate_pagerank fuel d).
Proof.
  unfold iterate_pagerank. frame. apply rng_free_while_loop.
Qed.

(** ** The transition model in closed form *)

Lemma transition_step_fresh links b a (pd : Distribution) q :
  q ∉ dict_keys pd →
  transition_step links b a pd q
  = pd ++ [(q, if bool_decide (q ∈ links) then b + a else b)].
Proof.
  intros Hq. unfold transition_step. rewrite (dict_set_notin q b pd) by done.
  case_bool_decide; [|done].
  rewrite dict_set_app_notin by done. by rewrite dict_set_head.
Qed.

Lemma transition_fold links b a (f : Page → Page * Qc) (done rest : list Page) :
  (∀ q, f q = (q, if bool_decide (q ∈ links) then b + a else b)) →
  NoDup (done ++ rest) →
  foldl (transition_step links b a) (f <$> done) rest = f <$> (done ++ rest).
Proof.
  intros Hf. revert done. induction rest as [|q rest IH]; intros done Hnd; simpl.
  - by rewrite app_nil_r.
  - rewrite transition_step_fresh.
    + rewrite <- Hf. replace (done ++ q :: rest) with ((done ++ [q]) ++ rest)
        by (by rewrite <- app_assoc).
      rewrite <- IH; [by rewrite fmap_app|by rewrite <- app_assoc].
    + apply NoDup_app in Hnd as (_ & Hdisj & _).
      unfold dict_keys. rewrite <- list_fmap_compose.
      intros (q' & Heq & Hin)%list_elem_of_fmap. simpl in Heq.
      rewrite Hf in Heq. simpl in Heq. subst q'.
      apply (Hdisj q Hin). left.
Qed.

Lemma transition_model_run w page d links :
  dict_wf (corpus_obj w) →
  dict_get page (corpus_obj w) = Some links →
  transition_model page d w
  = (Ok (transition_entry (length (corpus_obj w)) links d <$> dict_keys (corpus_obj w)), w).
Proof.
  intros Hwf Hget. unfold transition_model.
  erewrite bind_Ok by (unfold corpus_getitem; by rewrite Hget).
  erewrite bind_Ok by done.
  assert (length (corpus_obj w) ≠ 0%nat) as Hlen.
  { apply dict_get_Some_elem in Hget. destruct (corpus_obj w); [|done].
    by apply elem_of_nil in Hget. }
  erewrite bind_Ok
    by (unfold py_div; rewrite decide_False by (by apply Qc_of_nat_ne_0); done).
  set (n := length (corpus_obj w)). set (k := size links).
  assert (∀ X (f : Qc * Qc → M X),
    bind (if negb (bool_decide (k = 0%nat))
          then inv <- py_div 1 (Qc_of_nat k) ;; ret (1 / Qc_of_nat n * (1 - d), inv * d)
          else ret (1 / Qc_of_nat n, 0)) f w
    = f (base_probability n k d, additional_probability k d) w) as ->.
  { intros X f. unfold base_probability, additional_probability.
    case_bool_decide as Hk; simpl; [done|].
    unfold bind at 1 2, py_div.
    rewrite decide_False by (by apply Qc_of_nat_ne_0). done. }
  erewrite bind_Ok by done.
  rewrite <- (transition_fold links (base_probability n k d)
                (additional_probability k d) _ [] (dict_keys (corpus_obj w)));
    [|done|done].
  apply (for_each_pure _ _ (transition_step links _ _) (λ _, True)); [done|].
  intros pd q _ _. split; [|done]. unfold transition_step.
  case_bool_decide; [|done].
  unfold dict_getitem. rewrite dict_get_set_eq. done.
Qed.

Lemma Qc_sum_cons x l : Qc_sum (x :: l) = x + Qc_sum l.
Proof. done. Qed.

Lemma dict_get_fmap_keys {V} (f : Page → Page * V) (l : list Page) q :
  (∀ p, (f p).1 = p) → q ∈ l → dict_get q (f <$> l) = Some (f q).2.
Proof.
  intros Hf. induction l as [|p l IH]; [by intros ?%elem_of_nil|].
  intros Hq. simpl. specialize (Hf p) as Hp. destruct (f p) as [p' v] eqn:Hfp.
  simpl in Hp. subst p'. case_decide as Hqp.
  - subst q. by rewrite Hfp.
  - apply IH. by apply elem_of_cons in Hq as [?|?].
Qed.

Lemma dict_keys_fmap_keys {V} (f : Page → Page * V) (l : list Page) :
  (∀ p, (f p).1 = p) → dict_keys (f <$> l) = l.
Proof.
  intros Hf. unfold dict_keys. rewrite <- list_fmap_compose.
  rewrite <- (list_fmap_id l) at 2. apply list_fmap_ext. intros _ p _. apply Hf.
Qed.

Lemma Qc_sum_if (P : Page → Prop) `{∀ q, Decision (P q)} (a b : Qc) (l : list Page) :
  Qc_sum ((λ q, if bool_decide (P q) then a + b else a) <$> l)
  = Qc_of_nat (length l) * a + Qc_of_nat (length (filter P l)) * b.
Proof.
  induction l as [|q l IH].
  - simpl. rewrite Qc_of_nat_0. ring.
  - rewrite fmap_cons, Qc_sum_cons, IH, length_cons, Qc_of_nat_S, filter_cons.
    case_bool_decide as HP.
    + rewrite decide_True by done. simpl. rewrite Qc_of_nat_S. ring.
    + rewrite decide_False by done. ring.
Qed.

Lemma length_filter_links (links : gset Page) (keys : list Page) :
  NoDup keys → (∀ q, q ∈ links → q ∈ keys) →
  length (filter (λ q, q ∈ links) keys) = size links.
Proof.
  intros Hnd Hsub.
  rewrite <- (size_list_to_set (C := gset Page)) by (by apply NoDup_filter).
  f_equal. apply set_eq. intros q.
  rewrite elem_of_list_to_set, list_elem_of_filter.
  split; [by intros [? _]|]. intros Hq. split; [done|by apply Hsub].
Qed.

Lemma base_probability_nonneg n k d : 0 ≤ d ≤ 1 → 0 ≤ base_probability n k d.
Proof.
  intros [Hd0 Hd1]. unfold base_probability.
  assert (0 ≤ 1 / Qc_of_nat n) as Hinv.
  { destruct n as [|n]; [by rewrite Qc_of_nat_0|].
    unfold Qcdiv. rewrite Qcmult_1_l.
    apply Qclt_le_weak, Qcinv_pos, Qc_of_nat_pos. lia. }
  case_bool_decide; [done|].
  apply Qcmult_nonneg_nonneg; [done|].
  apply (Qcplus_le_mono_r _ _ d). by ring_simplify.
Qed.

Lemma additional_probability_nonneg k d : 0 ≤ d → 0 ≤ additional_probability k d.
Proof.
  intros Hd. unfold additional_probability. case_bool_decide; [done|].
  apply Qcmult_nonneg_nonneg; [|done].
  unfold Qcdiv. rewrite Qcmult_1_l.
  apply Qclt_le_weak, Qcinv_pos, Qc_of_nat_pos. lia.
Qed.

(** ** The dangling-node preprocessing in closed form *)

Lemma dict_keys_normalized c : dict_keys (normalized c) = dict_keys c.
Proof.
  unfold normalized, dict_keys. rewrite <- list_fmap_compose.
  apply list_fmap_ext. by intros _ [k s] _.
Qed.

Lemma dict_get_normalized c key :
  dict_get key (normalized c)
  = fix_links (list_to_set (dict_keys c)) <$> dict_get key c.
Proof.
  unfold normalized. generalize (list_to_set (dict_keys c) : gset Page) as all.
  intros all. induction c as [|[k s] c IH]; simpl; [done|].
  by case_decide.
Qed.

Lemma dangling_fix_loop (all : gset Page) (done rest : Corpus) e k :
  dict_wf (done ++ rest) →
  list_to_set (dict_keys (done ++ rest)) = all →
  for_each (dict_keys rest)
    (λ _ key,
       links <- corpus_getitem key ;;
       if bool_decide (links = ∅) then
         all <- corpus_keys ;;
         corpus_setitem key (list_to_set all)
       else ret ())
    () (World (done ++ rest) e k)
  = (Ok (), World (done ++ (prod_map id (fix_links all) <$> rest)) e k).
Proof.
  revert done. induction rest as [|[key links] rest IH]; intros done Hwf Hall.
  - done.
  - assert (key ∉ dict_keys done) as Hkey.
    { unfold dict_wf in Hwf. rewrite dict_keys_app in Hwf.
      apply NoDup_app in Hwf as (_ & Hdisj & _).
      intros Hin. apply (Hdisj key Hin). left. }
    assert (∀ s tl, done ++ (key, s) :: tl = (done ++ [(key, s)]) ++ tl) as Hassoc.
    { intros s tl. by rewrite <- app_assoc. }
    assert (corpus_getitem key (World (done ++ (key, links) :: rest) e k)
            = (Ok links, World (done ++ (key, links) :: rest) e k)) as Hget.
    { unfold corpus_getitem. cbn [corpus_obj].
      rewrite dict_get_app_notin by done. simpl. by rewrite decide_True. }
    cbn [dict_keys fmap list_fmap for_each fst].
    rewrite bind_assoc, (bind_Ok _ _ _ _ _ Hget).
    cbn [fmap list_fmap prod_map fst snd id]. unfold fix_links at 1.
    case_bool_decide as Hempty.
    + rewrite bind_assoc. erewrite bind_Ok by done.
      erewrite bind_Ok by (unfold corpus_setitem; done).
      cbn [corpus_obj entropy cursor].
      rewrite dict_set_app_notin by done. rewrite dict_set_head, Hall.
      rewrite (Hassoc all rest), (Hassoc all (_ <$> rest)). apply IH.
      * unfold dict_wf in *. rewrite <- Hassoc.
        by rewrite dict_keys_app in *.
      * rewrite <- Hassoc. by rewrite dict_keys_app in *.
    + erewrite bind_Ok by done.
      rewrite (Hassoc links rest), (Hassoc links (_ <$> rest)).
      apply IH; by rewrite <- Hassoc.
Qed.

Lemma dangling_fix_run w :
  dict_wf (corpus_obj w) →
  dangling_fix w = (Ok (), World (normalized (corpus_obj w)) (entropy w) (cursor w)).
Proof.
  intros Hwf. unfold dangling_fix. erewrite bind_Ok by done.
  destruct w as [c e k]. cbn [corpus_obj entropy cursor] in *.
  apply (dangling_fix_loop _ [] c e k); done.
Qed.

(** ** One sweep of the solver in closed form *)

Lemma inward_loop (w : world) (page : Page) (sub : Corpus) (acc : list Page) :
  dict_wf (corpus_obj w) →
  (∀ kv, kv ∈ sub → kv ∈ corpus_obj w) →
  for_each sub.*1
    (λ acc nestedPage,
       links <- corpus_getitem nestedPage ;;
       ret (if bool_decide (page ∈ links) then acc ++ [nestedPage] else acc))
    acc w
  = (Ok (acc ++ (filter (λ kv, page ∈ kv.2) sub).*1), w).
Proof.
  intros Hwf. revert acc. induction sub as [|[q links] sub IH]; intros acc Hsub.
  - simpl. by rewrite app_nil_r.
  - assert (corpus_getitem q w = (Ok links, w)) as Hget.
    { unfold corpus_getitem. erewrite dict_get_elem; [done..|]. apply Hsub. left. }
    cbn [fmap list_fmap for_each fst].
    rewrite bind_assoc, (bind_Ok _ _ _ _ _ Hget). erewrite bind_Ok by done.
    rewrite IH by (intros kv Hkv; apply Hsub; by right).
    rewrite (filter_cons _ (q, links) sub). cbn [snd]. case_bool_decide.
    + rewrite decide_True by done. by rewrite <- app_assoc.
    + by rewrite decide_False.
Qed.

Lemma link_sum_loop (w : world) (pd : Distribution) (page : Page)
    (sub : Corpus) (acc : Qc) :
  dict_wf (corpus_obj w) →
  (∀ q, q ∈ dict_keys (corpus_obj w) → q ∈ dict_keys pd) →
  (∀ kv, kv ∈ sub → kv ∈ corpus_obj w ∧ page ∈ kv.2) →
  for_each sub.*1
    (λ sum subPage,
       rank <- dict_getitem subPage pd ;;
       links <- corpus_getitem subPage ;;
       share <- py_div rank (Qc_of_nat (size links)) ;;
       ret (sum + share))
    acc w
  = (Ok (acc + Qc_sum ((λ kv, rank_of pd kv.1 / Qc_of_nat (size kv.2)) <$> sub)), w).
Proof.
  intros Hwf Hdom. revert acc. induction sub as [|[q links] sub IH]; intros acc Hsub.
  - simpl. by rewrite Qcplus_0_r.
  - destruct (Hsub (q, links)) as [Hin Hpage]; [left|]. simpl in Hpage.
    assert (corpus_getitem q w = (Ok links, w)) as Hget.
    { unfold corpus_getitem. by erewrite dict_get_elem. }
    assert (dict_getitem q pd w = (Ok (rank_of pd q), w)) as Hrank.
    { unfold dict_getitem, rank_of.
      destruct (dict_get q pd) as [v|] eqn:Hv; [done|].
      apply dict_get_None in Hv. destruct Hv. apply Hdom.
      apply list_elem_of_fmap. by exists (q, links). }
    assert (py_div (rank_of pd q) (Qc_of_nat (size links)) w
            = (Ok (rank_of pd q / Qc_of_nat (size links)), w)) as Hdiv.
    { unfold py_div. rewrite decide_False; [done|].
      apply Qc_of_nat_ne_0. intros Hsize%size_empty_iff. set_solver. }
    cbn [fmap list_fmap for_each fst].
    rewrite !bind_assoc, (bind_Ok _ _ _ _ _ Hrank).
    rewrite !bind_assoc, (bind_Ok _ _ _ _ _ Hget).
    rewrite !bind_assoc, (bind_Ok _ _ _ _ _ Hdiv).
    erewrite bind_Ok by done.
    rewrite IH by (intros kv Hkv; apply Hsub; by right).
    rewrite Qc_sum_cons. cbn [fst snd]. by rewrite Qcplus_assoc.
Qed.

Lemma new_rank_run w d pd page :
  dict_wf (corpus_obj w) →
  corpus_obj w ≠ [] →
  (∀ q, q ∈ dict_keys (corpus_obj w) → q ∈ dict_keys pd) →
  new_rank d pd page w
  = (Ok (py_round (rank_formula (corpus_obj w) d (rank_of pd) page) 5), w).
Proof.
  intros Hwf Hne Hdom. unfold new_rank.
  erewrite bind_Ok by done.
  erewrite bind_Ok by (by apply (inward_loop w page (corpus_obj w) [])).
  erewrite bind_Ok; last first.
  { apply (link_sum_loop w pd page (inward (corpus_obj w) page) 0); [done..|].
    intros kv Hkv. by apply list_elem_of_filter in Hkv as [? ?]. }
  erewrite bind_Ok by done.
  erewrite bind_Ok; last first.
  { unfold py_div. rewrite decide_False; [done|].
    apply Qc_of_nat_ne_0. by destruct (corpus_obj w). }
  unfold ret, rank_formula, link_sum. by rewrite Qcplus_0_l.
Qed.

Lemma sweep_run w d pd :
  dict_wf (corpus_obj w) →
  dict_keys pd = dict_keys (corpus_obj w) →
  sweep d pd w = (Ok (foldl (sweep_step (corpus_obj w) d) pd (dict_keys (corpus_obj w))), w)
  ∧ dict_keys (foldl (sweep_step (corpus_obj w) d) pd (dict_keys (corpus_obj w)))
    = dict_keys (corpus_obj w).
Proof.
  intros Hwf Hkeys. unfold sweep. erewrite bind_Ok by done.
  apply (for_each_pure _ _ (sweep_step (corpus_obj w) d)
           (λ s, dict_keys s = dict_keys (corpus_obj w))); [done|].
  intros s page Hs Hpage.
  assert (corpus_obj w ≠ []) as Hne.
  { intros Hnil. rewrite Hnil in Hpage. by apply elem_of_nil in Hpage. }
  split.
  - erewrite bind_Ok; [done|]. apply new_rank_run; [done..|].
    intros q Hq. by rewrite Hs.
  - unfold sweep_step. rewrite dict_keys_set_in; [done|]. by rewrite Hs.
Qed.

Lemma foldl_in_place {V} (val : dict Page V → Page → V) (done rest : dict Page V) :
  dict_wf (done ++ rest) →
  foldl (λ pd p, dict_set p (val pd p) pd) (done ++ rest) (dict_keys rest)
  = in_place val done rest.
Proof.
  revert done. induction rest as [|[p old] rest IH]; intros done Hwf; simpl.
  - by rewrite app_nil_r.
  - assert (p ∉ dict_keys done) as Hp.
    { unfold dict_wf in Hwf. rewrite dict_keys_app in Hwf.
      apply NoDup_app in Hwf as (_ & Hdisj & _).
      intros Hin. apply (Hdisj p Hin). left. }
    rewrite dict_set_app_notin by done. rewrite dict_set_head.
    replace (done ++ (p, val (done ++ (p, old) :: rest) p) :: rest)
      with ((done ++ [(p, val (done ++ (p, old) :: rest) p)]) ++ rest)
      by (by rewrite <- app_assoc).
    apply IH. unfold dict_wf in *. rewrite <- app_assoc.
    by rewrite dict_keys_app in *.
Qed.

Lemma in_place_spec {V} (val : dict Page V → Page → V) (rest done : dict Page V) :
  ∃ new, in_place val done rest = done ++ new
         ∧ dict_keys new = dict_keys rest
         ∧ ∀ j p, dict_keys rest !! j = Some p →
             new !! j = Some (p, val (done ++ take j new ++ drop j rest) p).
Proof.
  revert done. induction rest as [|[p old] rest IH]; intros done; simpl.
  - exists []. rewrite app_nil_r. by split_and!.
  - destruct (IH (done ++ [(p, val (done ++ (p, old) :: rest) p)]))
      as (new & Heq & Hkeys & Hval).
    exists ((p, val (done ++ (p, old) :: rest) p) :: new). split_and!.
    + by rewrite Heq, <- app_assoc.
    + simpl. by rewrite Hkeys.
    + intros [|j] q Hq; simpl in *.
      * by injection Hq as ->.
      * rewrite (Hval j q Hq). by rewrite <- app_assoc.
Qed.

Lemma sweep_in_place w d prior :
  dict_wf (corpus_obj w) →
  dict_keys prior = dict_keys (corpus_obj w) →
  ∃ next,
    sweep d prior w = (Ok next, w)
    ∧ dict_keys next = dict_keys (corpus_obj w)
    ∧ ∀ i page, dict_keys (corpus_obj w) !! i = Some page →
        next !! i
        = Some (page, py_round (rank_formula (corpus_obj w) d
                                  (rank_of (take i next ++ drop i prior)) page) 5).
Proof.
  intros Hwf Hkeys. destruct (sweep_run w d prior Hwf Hkeys) as [Hrun Hnext].
  eexists. split; [exact Hrun|]. split; [exact Hnext|].
  revert Hnext. rewrite <- Hkeys.
  assert (foldl (sweep_step (corpus_obj w) d) prior (dict_keys prior)
          = in_place (λ pd p, py_round (rank_formula (corpus_obj w) d
                                          (rank_of pd) p) 5) [] prior) as ->.
  { apply (foldl_in_place
             (λ pd p, py_round (rank_formula (corpus_obj w) d (rank_of pd) p) 5)
             [] prior).
    unfold dict_wf. simpl. by rewrite Hkeys. }
  destruct (in_place_spec
    (λ pd p, py_round (rank_formula (corpus_obj w) d (rank_of pd) p) 5) prior [])
    as (new & -> & _ & Hval).
  simpl. intros _ i page Hi. by apply Hval.
Qed.

Lemma py_round_five_decimals x : five_decimals (py_round x 5).
Proof.
  unfold five_decimals, py_round.
  exists (round_half_even (this x * inject_Z (10 ^ Z.of_nat 5))).
  generalize (round_half_even (this x * inject_Z (10 ^ Z.of_nat 5))). intros z.
  apply Qc_is_canon. change (Z.to_pos (10 ^ Z.of_nat 5)) with 100000%positive.
  unfold Qcdiv, Qcmult, Qcinv, Qc_of_Z. cbn [this Q2Qc].
  rewrite !Qred_correct. unfold Qeq. simpl. lia.
Qed.

Lemma sweep_five_decimals w d prior next w' :
  dict_wf (corpus_obj w) →
  dict_keys prior = dict_keys (corpus_obj w) →
  sweep d prior w = (Ok next, w') →
  Forall five_decimals (dict_values next).
Proof.
  intros Hwf Hkeys Hrun.
  destruct (sweep_in_place w d prior Hwf Hkeys) as (next' & Hrun' & Hnext & Hval).
  rewrite Hrun' in Hrun. injection Hrun as <- _.
  apply Forall_lookup. intros i v Hv.
  unfold dict_values in Hv. rewrite list_lookup_fmap in Hv.
  apply fmap_Some in Hv as ([p v'] & Hi & ->). simpl.
  assert (dict_keys (corpus_obj w) !! i = Some p) as Hp.
  { rewrite <- Hnext. unfold dict_keys. by rewrite list_lookup_fmap, Hi. }
  specialize (Hval i p Hp).
  assert (Some (p, v') = Some (p, py_round (rank_formula (corpus_obj w) d
            (rank_of (take i next' ++ drop i prior)) p) 5)) as [= ->]
    by (etrans; [symmetry; exact Hi|exact Hval]).
  apply py_round_five_decimals.
Qed.

(** ** The [while] loop *)

Lemma while_loop_fuel_mono fuel fuel' d pd prior w r w' :
  (fuel ≤ fuel')%nat →
  while_loop fuel d pd prior w = (Ok r, w') →
  while_loop fuel' d pd prior w = (Ok r, w').
Proof.
  revert fuel' pd prior w. induction fuel as [|fuel IH]; intros fuel' pd prior w Hle.
  - simpl. destruct (negb _) eqn:Hcond; [done|].
    destruct fuel'; simpl; by rewrite Hcond.
  - destruct fuel' as [|fuel']; [lia|]. simpl.
    destruct (negb _); [|done]. unfold bind.
    destruct (sweep d pd w) as [[next| |] w1]; [|done..].
    apply IH. lia.
Qed.

Lemma while_loop_five_decimals fuel d pd prior w r w' :
  dict_wf (corpus_obj w) →
  dict_keys pd = dict_keys (corpus_obj w) →
  Forall five_decimals (dict_values pd) ∨ dict_eqb pd prior = false →
  while_loop fuel d pd prior w = (Ok r, w') →
  Forall five_decimals (dict_values r).
Proof.
  intros Hwf. revert pd prior.
  induction fuel as [|fuel IH]; intros pd prior Hkeys Hpd; simpl.
  - destruct (dict_eqb pd prior) eqn:Heq; simpl; [|done].
    intros [= <- _]. by destruct Hpd.
  - destruct (dict_eqb pd prior) eqn:Heq; simpl.
    { intros [= <- _]. by destruct Hpd. }
    destruct (sweep_in_place w d pd Hwf Hkeys) as (next & Hrun & Hnext & _).
    rewrite (bind_Ok _ _ _ _ _ Hrun). apply IH; [done|]. left.
    exact (sweep_five_decimals w d pd next w Hwf Hkeys Hrun).
Qed.

Lemma foldl_dict_set_fresh {V} (f : Page → V) (done rest : list Page) :
  NoDup (done ++ rest) →
  foldl (λ acc k, dict_set k (f k) acc) ((λ k, (k, f k)) <$> done) rest
  = (λ k, (k, f k)) <$> (done ++ rest).
Proof.
  revert done. induction rest as [|q rest IH]; intros done Hnd; simpl.
  - by rewrite app_nil_r.
  - rewrite dict_set_notin.
    + replace (done ++ q :: rest) with ((done ++ [q]) ++ rest)
        by (by rewrite <- app_assoc).
      rewrite <- IH; [by rewrite fmap_app|by rewrite <- app_assoc].
    + rewrite dict_keys_fmap_keys by done.
      apply NoDup_app in Hnd as (_ & Hdisj & _).
      intros Hin. apply (Hdisj q Hin). left.
Qed.

Lemma uniform_init_run w :
  for_each (dict_keys (corpus_obj w))
    (λ acc key,
       n <- corpus_len ;;
       p <- py_div 1 (Qc_of_nat n) ;;
       ret (dict_set key p acc))
    [] w
  = (Ok (foldl (λ acc key, dict_set key (1 / Qc_of_nat (length (corpus_obj w))) acc)
           [] (dict_keys (corpus_obj w))), w).
Proof.
  apply (for_each_pure _ _
           (λ acc key, dict_set key (1 / Qc_of_nat (length (corpus_obj w))) acc)
           (λ _, True)); [done|].
  intros acc key _ Hkey. split; [|done].
  erewrite bind_Ok by done. erewrite bind_Ok; [done|].
  unfold py_div. rewrite decide_False; [done|].
  apply Qc_of_nat_ne_0. destruct (corpus_obj w); [|done].
  by apply elem_of_nil in Hkey.
Qed.

Lemma iterate_pagerank_unfold fuel d w :
  iterate_pagerank fuel d w
  = match dangling_fix w with
    | (Ok _, w') =>
        while_loop fuel d
          (foldl (λ acc key, dict_set key (1 / Qc_of_nat (length (corpus_obj w))) acc)
             [] (dict_keys (corpus_obj w))) [] w'
    | (Raise e, w') => (Raise e, w')
    | (OutOfFuel, w') => (OutOfFuel, w')
    end.
Proof.
  unfold iterate_pagerank. erewrite bind_Ok by done.
  by rewrite (bind_Ok _ _ _ _ _ (uniform_init_run w)).
Qed.

Lemma iterate_pagerank_fuel_mono fuel fuel' d w ranks :
  (fuel ≤ fuel')%nat →
  (iterate_pagerank fuel d w).1 = Ok ranks →
  (iterate_pagerank fuel' d w).1 = Ok ranks.
Proof.
  intros Hle. rewrite !iterate_pagerank_unfold.
  destruct (dangling_fix w) as [[[]| |] w']; [|done..].
  destruct (while_loop fuel d _ [] w') as [o w''] eqn:Hrun. simpl.
  intros ->. by rewrite (while_loop_fuel_mono _ _ _ _ _ _ _ _ Hle Hrun).
Qed.

Lemma iterate_pagerank_run fuel d w :
  dict_wf (corpus_obj w) →
  iterate_pagerank fuel d w
  = while_loop fuel d (uniform (corpus_obj w)) []
      (World (normalized (corpus_obj w)) (entropy w) (cursor w)).
Proof.
  intros Hwf. rewrite iterate_pagerank_unfold, dangling_fix_run by done.
  f_equal.
  apply (foldl_dict_set_fresh (λ _, 1 / Qc_of_nat (length (corpus_obj w))) []).
  done.
Qed.

Lemma normalized_idempotent c : normalized (normalized c) = normalized c.
Proof.
  unfold normalized at 1. rewrite dict_keys_normalized. unfold normalized.
  generalize (list_to_set (dict_keys c) : gset Page). intros all.
  rewrite <- list_fmap_compose. apply list_fmap_ext. intros _ [k links] _.
  simpl. f_equal. unfold fix_links.
  repeat case_bool_decide; congruence.
Qed.

Lemma uniform_normalized c : uniform (normalized c) = uniform c.
Proof.
  unfold uniform. rewrite dict_keys_normalized.
  by rewrite <- (length_dict_keys (normalized c)), dict_keys_normalized,
    length_dict_keys.
Qed.

(** Running the solver again on the corpus it has normalized repeats the
    first run. *)
Lemma iterate_pagerank_rerun fuel d w :
  dict_wf (corpus_obj w) →
  iterate_pagerank fuel d (iterate_pagerank fuel d w).2 = iterate_pagerank fuel d w.
Proof.
  intros Hwf. rewrite (iterate_pagerank_run fuel d w Hwf).
  rewrite read_only_while_loop. rewrite iterate_pagerank_run.
  - cbn [corpus_obj entropy cursor].
    by rewrite normalized_idempotent, uniform_normalized.
  - cbn [corpus_obj]. unfold dict_wf. by rewrite dict_keys_normalized.
Qed.

(** ** The solver over binary64 *)

Lemma bind_Ok_inv {A B} (m : M A) (f : A → M B) w b w' :
  bind m f w = (Ok b, w') → ∃ a w1, m w = (Ok a, w1) ∧ f a w1 = (Ok b, w').
Proof. unfold bind. destruct (m w) as [[a| |] w1]; [by exists a, w1|done..]. Qed.

Lemma read_only_run {A} (m : M A) w o w' : read_only m → m w = (o, w') → w' = w.
Proof. intros Hm Hrun. specialize (Hm w). by rewrite Hrun in Hm. Qed.

(** A loop whose body assigns to the key it visits: in the end a key
    either was visited and holds a value the body made, or was not and
    holds the value it had. *)
Lemma for_each_assign {V} (P : V → Prop)
    (body : dict Page V → Page → M (dict Page V)) ks acc w next w' :
  (∀ s k w1 s' w2, body s k w1 = (Ok s', w2) → ∃ r, s' = dict_set k r s ∧ P r) →
  for_each ks body acc w = (Ok next, w') →
  ∀ k v, dict_get k next = Some v →
    k ∈ ks ∧ P v ∨ (¬ k ∈ ks) ∧ dict_get k acc = Some v.
Proof.
  intros Hbody. revert acc w.
  induction ks as [|x ks IH]; simpl; intros acc w Hrun k v Hget.
  - injection Hrun as <- _. right. split; [apply not_elem_of_nil|done].
  - apply bind_Ok_inv in Hrun as (s1 & w1 & Hx & Hrest).
    apply Hbody in Hx as (r & -> & Hr).
    destruct (IH _ _ Hrest k v Hget) as [[Hin Hv]|[Hnotin Hacc]].
    + left. split; [by right|done].
    + destruct (decide (x = k)) as [->|Hne].
      * rewrite dict_get_set_eq in Hacc. injection Hacc as <-.
        left. split; [left|done].
      * rewrite dict_get_set_ne in Hacc by done.
        right. split; [|done]. apply not_elem_of_cons. split; [congruence|done].
Qed.

Lemma read_only_binary64_py_div x y : read_only (Binary64.py_div x y).
Proof. unfold Binary64.py_div. by destruct (PrimFloat.eqb y zero). Qed.

#[export] Hint Resolve read_only_binary64_py_div : frame.

Lemma read_only_binary64_new_rank d pd page : read_only (Binary64.new_rank d pd page).
Proof. unfold Binary64.new_rank. frame. Qed.

Lemma read_only_binary64_sweep d pd : read_only (Binary64.sweep d pd).
Proof. unfold Binary64.sweep, Binary64.new_rank. frame. Qed.

(** The conversion of a numeral agrees with the division of the floats:
    [0.33333] is [33333 / 100000] and [0.85] is [85 / 100]. *)
Lemma binary64_nearest_division :
  Binary64.nearest false 33333 100000
  = (of_uint63 (Uint63Axioms.of_Z 33333) / of_uint63 (Uint63Axioms.of_Z 100000))%float
  ∧ Binary64.d85
    = (of_uint63 (Uint63Axioms.of_Z 85) / of_uint63 (Uint63Axioms.of_Z 100))%float
  ∧ Binary64.float_of_nat 3 = of_uint63 (Uint63Axioms.of_Z 3)
  ∧ Prim2SF Binary64.d85 = S754_finite false 7656119366529843 (-53).
Proof. split_and!; vm_compute; reflexivity. Qed.

Lemma binary64_py_round_five_decimals x :
  Binary64.five_decimals (Binary64.py_round x 5).
Proof.
  split; [by exists x|]. intros s m e Hv. unfold Binary64.py_round in *.
  destruct (Prim2SF x) eqn:Hx; [congruence..|]. by eexists _, _.
Qed.

Lemma binary64_new_rank_five_decimals d pd page w r w' :
  Binary64.new_rank d pd page w = (Ok r, w') → Binary64.five_decimals r.
Proof.
  unfold Binary64.new_rank. intros H.
  apply bind_Ok_inv in H as (keys & w1 & _ & H).
  apply bind_Ok_inv in H as (inward & w2 & _ & H).
  apply bind_Ok_inv in H as (sum & w3 & _ & H).
  apply bind_Ok_inv in H as (n & w4 & _ & H).
  apply bind_Ok_inv in H as (base & w5 & _ & H).
  injection H as <- _. apply binary64_py_round_five_decimals.
Qed.

Lemma binary64_sweep_five_decimals d pd w next w' :
  (∀ k, k ∈ dict_keys pd → k ∈ dict_keys (corpus_obj w)) →
  Binary64.sweep d pd w = (Ok next, w') →
  (∀ k, k ∈ dict_keys next → k ∈ dict_keys (corpus_obj w))
  ∧ ∀ k v, dict_get k next = Some v → Binary64.five_decimals v.
Proof.
  intros Hkeys Hrun. unfold Binary64.sweep in Hrun.
  apply bind_Ok_inv in Hrun as (keys & w1 & Hk & Hrun).
  injection Hk as <- <-.
  assert (∀ k v, dict_get k next = Some v →
            k ∈ dict_keys (corpus_obj w) ∧ Binary64.five_decimals v
            ∨ (¬ k ∈ dict_keys (corpus_obj w)) ∧ dict_get k pd = Some v) as Hinv.
  { eapply (for_each_assign Binary64.five_decimals); [|exact Hrun].
    intros s k w1 s' w2 (r & w3 & Hr & Hret)%bind_Ok_inv.
    injection Hret as <- _. exists r. split; [done|].
    by eapply binary64_new_rank_five_decimals. }
  split.
  - intros k [v Hv]%dict_get_is_Some.
    destruct (Hinv k v Hv) as [[Hin _]|[_ Hpd]]; [done|].
    apply Hkeys, dict_get_is_Some. by exists v.
  - intros k v Hv. destruct (Hinv k v Hv) as [[_ HP]|[Hnotin Hpd]]; [done|].
    destruct Hnotin. apply Hkeys, dict_get_is_Some. by exists v.
Qed.

Lemma binary64_while_loop_five_decimals fuel d pd prior w r w' :
  (∀ k, k ∈ dict_keys pd → k ∈ dict_keys (corpus_obj w)) →
  (Binary64.dict_eqb pd prior = true →
   ∀ k v, dict_get k pd = Some v → Binary64.five_decimals v) →
  Binary64.while_loop fuel d pd prior w = (Ok r, w') →
  ∀ k v, dict_get k r = Some v → Binary64.five_decimals v.
Proof.
  revert pd prior.
  induction fuel as [|fuel IH]; intros pd prior Hkeys Hpd; simpl.
  - destruct (Binary64.dict_eqb pd prior) eqn:Heq; simpl; [|done].
    intros [= <- _]. by apply Hpd.
  - destruct (Binary64.dict_eqb pd prior) eqn:Heq; simpl.
    { intros [= <- _]. by apply Hpd. }
    intros (next & w1 & Hsweep & Hloop)%bind_Ok_inv.
    pose proof (read_only_run _ _ _ _ (read_only_binary64_sweep d pd) Hsweep) as ->.
    destruct (binary64_sweep_five_decimals d pd w next w Hkeys Hsweep)
      as [Hnext Hvalues].
    by apply (IH next pd Hnext (λ _, Hvalues)).
Qed.

(** ** The random generator *)

Lemma random_choice_nil {A} w : random_choice (@nil A) w = (Raise IndexError, w).
Proof. done. Qed.

Lemma random_choice_run {A} (seq : list A) w :
  seq ≠ [] → ∃ x, x ∈ seq ∧ random_choice seq w = (Ok x, advance w).
Proof.
  intros Hne. unfold random_choice.
  rewrite bool_decide_eq_false_2 by (by destruct seq).
  erewrite bind_Ok by done. unfold list_getitem.
  set (i := N.to_nat (entropy w (cursor w) mod N.of_nat (length seq))).
  assert (i < length seq)%nat as Hi.
  { unfold i. pose proof (N.mod_upper_bound (entropy w (cursor w))
                            (N.of_nat (length seq))) as Hlt.
    destruct seq; [done|]. simpl length in *. lia. }
  apply lookup_lt_is_Some_2 in Hi as [x Hx].
  exists x. split; [by eapply list_elem_of_lookup_2|]. by rewrite Hx.
Qed.

Lemma length_accumulate_from acc weights :
  length (accumulate_from acc weights) = length weights.
Proof.
  revert acc. induction weights as [|x weights IH]; intros acc; simpl; [done|].
  by rewrite IH.
Qed.

Lemma accumulate_from_last acc weights :
  weights ≠ [] →
  accumulate_from acc weights !! (length weights - 1)%nat
  = Some (acc + Qc_sum weights).
Proof.
  revert acc. induction weights as [|x weights IH]; intros acc Hne; [done|].
  destruct weights as [|y weights].
  - simpl. by rewrite Qcplus_0_r.
  - cbn [accumulate_from]. rewrite !Qc_sum_cons.
    replace (length (x :: y :: weights) - 1)%nat
      with (S (length (y :: weights) - 1)) by (simpl; lia).
    cbn [lookup list_lookup]. cbn [accumulate_from] in IH. rewrite IH by done.
    rewrite Qc_sum_cons. f_equal. ring.
Qed.

Lemma Qc_sum_pos weights :
  weights ≠ [] → Forall (λ x, 0 < x) weights → 0 < Qc_sum weights.
Proof.
  intros Hne Hpos. induction Hpos as [|x weights Hx Hpos IH]; [done|].
  rewrite Qc_sum_cons. destruct weights as [|y weights].
  - simpl. by rewrite Qcplus_0_r.
  - apply Qcplus_pos_pos; [done|]. by apply IH.
Qed.

Lemma bisect_loop_bounds steps a x lo hi :
  (lo ≤ hi)%nat →
  (lo ≤ bisect_loop steps a x lo hi ≤ hi)%nat.
Proof.
  revert lo hi.
  induction steps as [|steps IH]; intros lo hi Hle; cbn [bisect_loop]; [lia|].
  case_bool_decide as Hlt; [|lia].
  assert (lo ≤ (lo + hi) / 2 < hi)%nat as [Hmid1 Hmid2].
  { split.
    - apply Nat.div_le_lower_bound; lia.
    - apply Nat.Div0.div_lt_upper_bound; lia. }
  generalize dependent ((lo + hi) / 2)%nat. intros mid Hmid1 Hmid2.
  case_bool_decide.
  - specialize (IH lo mid Hmid1). lia.
  - specialize (IH (mid + 1)%nat hi). lia.
Qed.

Lemma random_choices_run {A} (population : list A) (weights : list Qc) w :
  population ≠ [] →
  length weights = length population →
  0 < Qc_sum weights →
  ∃ x, x ∈ population ∧ random_choices population weights w = (Ok x, advance w).
Proof.
  intros Hne Hlen Hpos. unfold random_choices, accumulate.
  rewrite length_accumulate_from, Hlen.
  rewrite bool_decide_eq_true_2 by done. cbn [negb].
  assert (0 < length population)%nat as Hn by (destruct population; simpl; [done|lia]).
  assert (weights ≠ []) as Hws by (intros ->; simpl in Hlen; lia).
  pose proof (accumulate_from_last 0 weights Hws) as Htotal.
  rewrite Hlen, Qcplus_0_l in Htotal.
  erewrite bind_Ok by (unfold list_getitem; by rewrite Htotal).
  rewrite bool_decide_eq_false_2 by (by apply Qclt_not_le).
  unfold random_random. rewrite bind_assoc. erewrite bind_Ok by done.
  erewrite bind_Ok by done.
  match goal with |- context [bisect_right ?a ?x ?lo ?hi] =>
    pose proof (bisect_loop_bounds (S hi) a x lo hi) as Hidx;
    fold (bisect_right a x lo hi) in Hidx;
    set (idx := bisect_right a x lo hi) in * end.
  destruct (lookup_lt_is_Some_2 population idx) as [x Hx]; [lia|].
  exists x. split; [by eapply list_elem_of_lookup_2|].
  unfold list_getitem. by rewrite Hx.
Qed.

Lemma base_probability_pos n k d :
  (0 < n)%nat → 0 < d < 1 → 0 < base_probability n k d.
Proof.
  intros Hn [Hd0 Hd1]. unfold base_probability.
  assert (0 < 1 / Qc_of_nat n) as Hinv.
  { unfold Qcdiv. rewrite Qcmult_1_l. by apply Qcinv_pos, Qc_of_nat_pos. }
  case_bool_decide; [done|].
  apply Qcmult_pos_pos; [done|].
  apply (Qcplus_lt_mono_r _ _ d). by ring_simplify.
Qed.

(** ** The sampler *)

Lemma transition_values n links d (keys : list Page) :
  dict_values (transition_entry n links d <$> keys)
  = (λ q, if bool_decide (q ∈ links)
          then base_probability n (size links) d
               + additional_probability (size links) d
          else base_probability n (size links) d) <$> keys.
Proof. unfold dict_values. by rewrite <- list_fmap_compose. Qed.

Lemma transition_values_sum (links : gset Page) d (keys : list Page) :
  keys ≠ [] → NoDup keys → (∀ q, q ∈ links → q ∈ keys) →
  Qc_sum (dict_values (transition_entry (length keys) links d <$> keys)) = 1.
Proof.
  intros Hne Hnd Hsub. rewrite transition_values.
  rewrite (Qc_sum_if (λ q, q ∈ links)), length_filter_links by done.
  assert (Qc_of_nat (length keys) ≠ 0) as Hn.
  { apply Qc_of_nat_ne_0. by destruct keys. }
  unfold base_probability, additional_probability.
  case_bool_decide as Hk.
  - rewrite Hk, Qc_of_nat_0. field. done.
  - apply Qc_of_nat_ne_0 in Hk. field. done.
Qed.

Lemma transition_values_pos n (links : gset Page) d (keys : list Page) :
  (0 < n)%nat → 0 < d < 1 →
  Forall (λ x, 0 < x) (dict_values (transition_entry n links d <$> keys)).
Proof.
  intros Hn Hd. rewrite transition_values. apply Forall_fmap, Forall_true.
  intros q. simpl. pose proof (base_probability_pos n (size links) d Hn Hd).
  case_bool_decide; [|done].
  apply Qcplus_pos_nonneg; [done|].
  apply additional_probability_nonneg, Qclt_le_weak, Hd.
Qed.

Lemma sample_step_run w d sample prev :
  dict_wf (corpus_obj w) →
  prev ∈ dict_keys (corpus_obj w) →
  0 < d < 1 ∨ corpus_closed (corpus_obj w) →
  ∃ new, new ∈ dict_keys (corpus_obj w)
         ∧ sample_step d (sample, prev) w = (Ok (sample ++ [new], new), advance w).
Proof.
  intros Hwf Hprev Hd.
  destruct (proj2 (dict_get_is_Some prev (corpus_obj w)) Hprev) as [links Hlinks].
  assert (dict_keys (corpus_obj w) ≠ []) as Hne.
  { intros Hnil. rewrite Hnil in Hprev. by apply elem_of_nil in Hprev. }
  pose proof (transition_model_run w prev d links Hwf Hlinks) as Hrun.
  rewrite <- length_dict_keys in Hrun.
  set (n := length (dict_keys (corpus_obj w))) in *.
  assert (0 < n)%nat as Hn.
  { unfold n. destruct (dict_keys (corpus_obj w)); [done|simpl; lia]. }
  destruct (random_choices_run
              (dict_keys (transition_entry n links d <$> dict_keys (corpus_obj w)))
              (dict_values (transition_entry n links d <$> dict_keys (corpus_obj w)))
              w) as (new & Hnew & Hchoice).
  - by rewrite dict_keys_fmap_keys.
  - unfold dict_keys, dict_values. by rewrite !length_fmap.
  - destruct Hd as [Hd|Hclosed].
    + apply Qc_sum_pos; [|by apply transition_values_pos].
      unfold dict_values. rewrite <- list_fmap_compose.
      intros Hnil%fmap_nil_inv. done.
    + unfold n. rewrite transition_values_sum; [done..|].
      intros q Hq. exact (Hclosed prev links Hlinks q Hq).
  - rewrite dict_keys_fmap_keys in Hnew by done.
    exists new. split; [done|]. unfold sample_step.
    rewrite (bind_Ok _ _ _ _ _ Hrun).
    erewrite bind_Ok; last first.
    { apply for_list_getitem; [|done].
      unfold dict_wf. by rewrite dict_keys_fmap_keys. }
    by rewrite (bind_Ok _ _ _ _ _ Hchoice).
Qed.

Lemma sample_loop_run {X} (xs : list X) c d :
  dict_wf c →
  0 < d < 1 ∨ corpus_closed c →
  ∀ w sample prev,
    corpus_obj w = c →
    prev ∈ dict_keys c →
    ∃ st w', for_each xs (λ st _, sample_step d st) (sample, prev) w = (Ok st, w')
             ∧ corpus_obj w' = c.
Proof.
  intros Hwf Hd.
  induction xs as [|x xs IH]; intros w sample prev Hc Hprev; simpl.
  - by exists (sample, prev), w.
  - subst c.
    destruct (sample_step_run w d sample prev Hwf Hprev Hd) as (new & Hnew & Hstep).
    rewrite (bind_Ok _ _ _ _ _ Hstep).
    by apply (IH (advance w) (sample ++ [new]) new).
Qed.

Lemma frequencies_run (sample : list Page) (n : Z) w :
  n ≠ 0%Z →
  for_each (remove_dups sample)
    (λ ranks i,
       freq <- py_div (Qc_of_nat (list_count i sample)) (Qc_of_Z n) ;;
       ret (dict_set i freq ranks))
    [] w
  = (Ok (frequencies sample n), w).
Proof.
  intros Hn.
  apply (for_each_pure _ _
           (λ ranks i, dict_set i (Qc_of_nat (list_count i sample) / Qc_of_Z n) ranks)
           (λ _, True)); [done|].
  intros ranks i _ _. split; [|done].
  erewrite bind_Ok; [done|].
  unfold py_div. rewrite decide_False; [done|]. by apply Qc_of_Z_ne_0.
Qed.

Lemma remove_dups_singleton (x : Page) : remove_dups [x] = [x].
Proof.
  simpl. destruct (decide_rel (∈) x []) as [Hin|]; [|done].
  by apply elem_of_nil in Hin.
Qed.

Lemma list_count_singleton (x : Page) : list_count x [x] = 1%nat.
Proof. unfold list_count. rewrite filter_cons, decide_True by done. done. Qed.

(** Without a step of the walk ([n ≤ 1]) only the start page is sampled. *)
Lemma sample_pagerank_no_steps w d n :
  corpus_obj w ≠ [] →
  (n ≤ 1)%Z →
  ∃ first, first ∈ dict_keys (corpus_obj w)
    ∧ sample_pagerank d n w
      = (if decide (n = 0%Z) then Raise ZeroDivisionError
         else Ok [(first, 1 / Qc_of_Z n)], advance w).
Proof.
  intros Hne Hn.
  destruct (random_choice_run (dict_keys (corpus_obj w)) w) as (first & Hin & Hrun).
  { by destruct (corpus_obj w). }
  exists first. split; [done|]. unfold sample_pagerank.
  erewrite bind_Ok by done. rewrite (bind_Ok _ _ _ _ _ Hrun).
  rewrite seqZ_nil by lia. cbn [for_each]. erewrite bind_Ok by done.
  cbn [fst]. rewrite remove_dups_singleton. cbn [for_each].
  rewrite list_count_singleton.
  rewrite Qc_of_nat_S, Qc_of_nat_0, Qcplus_0_r. unfold py_div.
  case_decide as Hz.
  - rewrite <- Z2Qc_inj_0 in Hz. apply Z2Qc_inj in Hz.
    by rewrite decide_True.
  - rewrite decide_False; [done|]. intros ->. by rewrite Z2Qc_inj_0 in Hz.
Qed.

Lemma sample_pagerank_run w d n :
  dict_wf (corpus_obj w) →
  corpus_obj w ≠ [] →
  0 < d < 1 ∨ corpus_closed (corpus_obj w) →
  (1 ≤ n)%Z →
  ∃ ranks w', sample_pagerank d n w = (Ok ranks, w').
Proof.
  intros Hwf Hne Hd Hn.
  destruct (random_choice_run (dict_keys (corpus_obj w)) w) as (first & Hin & Hrun).
  { by destruct (corpus_obj w). }
  destruct (sample_loop_run (seqZ 1 (n - 1)) (corpus_obj w) d Hwf Hd
              (advance w) [first] first)
    as (st & w' & Hloop & _); [done..|].
  exists (frequencies st.1 n), w'. unfold sample_pagerank.
  erewrite bind_Ok by done. rewrite (bind_Ok _ _ _ _ _ Hrun).
  rewrite (bind_Ok _ _ _ _ _ Hloop). apply frequencies_run. lia.
Qed.

Lemma keeps_corpus_for_list {A B : Type} (xs : list A) (f : A → M B) :
  (∀ x, keeps_corpus (f x)) → keeps_corpus (for_list xs f).
Proof.
  intros Hf. induction xs as [|x xs IH]; simpl; [done|].
  apply keeps_corpus_bind; [apply Hf|]. intros y.
  apply keeps_corpus_bind; [apply IH|]. by intros ys.
Qed.
Lemma keeps_corpus_dict_getitem {V} k (d : dict Page V) :
  keeps_corpus (dict_getitem k d).
Proof. apply keeps_corpus_lift_option. Qed.
Lemma keeps_corpus_list_getitem {A} (l : list A) i : keeps_corpus (list_getitem l i).
Proof. apply keeps_corpus_lift_option. Qed.
Lemma keeps_corpus_corpus_keys : keeps_corpus corpus_keys.
Proof. done. Qed.
Lemma keeps_corpus_py_div x y : keeps_corpus (py_div x y).
Proof. apply read_only_keeps_corpus, read_only_py_div. Qed.
Lemma keeps_corpus_transition_model page d : keeps_corpus (transition_model page d).
Proof. apply read_only_keeps_corpus, read_only_transition_model. Qed.

#[export] Hint Resolve keeps_corpus_list_getitem keeps_corpus_corpus_keys
  keeps_corpus_py_div keeps_corpus_transition_model keeps_corpus_for_list
  keeps_corpus_dict_getitem : frame.

Lemma keeps_corpus_random_choice {A} (l : list A) : keeps_corpus (random_choice l).
Proof. unfold random_choice. frame. Qed.

Lemma keeps_corpus_random_choices {A} (l : list A) ws :
  keeps_corpus (random_choices l ws).
Proof. unfold random_choices, random_random. frame. Qed.

#[export] Hint Resolve keeps_corpus_random_choice keeps_corpus_random_choices : frame.

Lemma keeps_corpus_sample_pagerank d n : keeps_corpus (sample_pagerank d n).
Proof. unfold sample_pagerank, sample_step. frame. Qed.

(** ** The exceptions that can occur *)

Lemma never_raises_ret {A} e (a : A) : never_raises e (ret a).
Proof. by intros w. Qed.
Lemma never_raises_out_of_fuel {A} e : never_raises e (@out_of_fuel A).
Proof. by intros w. Qed.
Lemma never_raises_raise {A} e e' : e' ≠ e → never_raises e (@raise A e').
Proof. intros Hne w [= ?]. done. Qed.

Lemma never_raises_bind {A B} e (m : M A) (f : A → M B) :
  never_raises e m → (∀ a, never_raises e (f a)) → never_raises e (bind m f).
Proof.
  intros Hm Hf w. unfold bind. specialize (Hm w).
  destruct (m w) as [[a| |] w']; simpl in *; [apply Hf| |discriminate].
  intros [= ->]. by apply Hm.
Qed.

Lemma never_raises_for_each {A S} e (xs : list A) (body : S → A → M S) acc :
  (∀ s x, never_raises e (body s x)) → never_raises e (for_each xs body acc).
Proof.
  intros Hbody. revert acc. induction xs as [|x xs IH]; intros acc; simpl.
  - apply never_raises_ret.
  - apply never_raises_bind; [apply Hbody|apply IH].
Qed.

Lemma never_raises_for_list {A B} e (xs : list A) (f : A → M B) :
  (∀ x, never_raises e (f x)) → never_raises e (for_list xs f).
Proof.
  intros Hf. induction xs as [|x xs IH]; simpl; [apply never_raises_ret|].
  apply never_raises_bind; [apply Hf|]. intros y.
  apply never_raises_bind; [apply IH|]. intros ys. apply never_raises_ret.
Qed.

Lemma never_invalid_lift_option {A} e (o : option A) :
  e ≠ InvalidInput → never_raises InvalidInput (lift_option e o).
Proof.
  intros He. destruct o; [apply never_raises_ret|by apply never_raises_raise].
Qed.

Lemma never_invalid_corpus_keys : never_raises InvalidInput corpus_keys.
Proof. by intros w. Qed.
Lemma never_invalid_corpus_len : never_raises InvalidInput corpus_len.
Proof. by intros w. Qed.
Lemma never_invalid_corpus_getitem key : never_raises InvalidInput (corpus_getitem key).
Proof. intros w. unfold corpus_getitem. by destruct (dict_get _ _). Qed.
Lemma never_invalid_corpus_setitem key s :
  never_raises InvalidInput (corpus_setitem key s).
Proof. by intros w. Qed.
Lemma never_invalid_next_raw : never_raises InvalidInput next_raw.
Proof. by intros w. Qed.
Lemma never_invalid_py_div x y : never_raises InvalidInput (py_div x y).
Proof.
  unfold py_div. case_decide; [by apply never_raises_raise|apply never_raises_ret].
Qed.
Lemma never_invalid_dict_getitem {V} k (d : dict Page V) :
  never_raises InvalidInput (dict_getitem k d).
Proof. by apply never_invalid_lift_option. Qed.
Lemma never_invalid_list_getitem {A} (l : list A) i :
  never_raises InvalidInput (list_getitem l i).
Proof. by apply never_invalid_lift_option. Qed.

#[export] Hint Resolve never_raises_ret never_raises_out_of_fuel
  never_raises_bind never_raises_for_each never_raises_for_list
  never_invalid_corpus_keys never_invalid_corpus_len never_invalid_corpus_getitem
  never_invalid_corpus_setitem never_invalid_next_raw never_invalid_py_div
  never_invalid_dict_getitem never_invalid_list_getitem : frame.
#[export] Hint Extern 1 (never_raises InvalidInput (raise _)) =>
  apply never_raises_raise; discriminate : frame.

Ltac never_invalid :=
  repeat first
    [ match goal with
      | |- ∀ _, _ => intro
      | |- _ (if ?b then _ else _) => destruct b
      | |- _ (let '(_, _) := ?p in _) => destruct p
      end
    | solve [eauto with frame]
    | apply never_raises_bind | apply never_raises_for_each
    | apply never_raises_for_list ].

Lemma never_invalid_transition_model page d :
  never_raises InvalidInput (transition_model page d).
Proof. unfold transition_model. never_invalid. Qed.

Lemma never_invalid_random_choice {A} (l : list A) :
  never_raises InvalidInput (random_choice l).
Proof. unfold random_choice. never_invalid. Qed.

Lemma never_invalid_random_choices {A} (l : list A) ws :
  never_raises InvalidInput (random_choices l ws).
Proof. unfold random_choices, random_random. never_invalid. Qed.

#[export] Hint Resolve never_invalid_transition_model never_invalid_random_choice
  never_invalid_random_choices : frame.

Lemma never_invalid_sample_pagerank d n :
  never_raises InvalidInput (sample_pagerank d n).
Proof. unfold sample_pagerank, sample_step. never_invalid. Qed.

Lemma never_invalid_while_loop fuel d pd prior :
  never_raises InvalidInput (while_loop fuel d pd prior).
Proof.
  revert pd prior. induction fuel as [|fuel IH]; intros pd prior; simpl.
  - never_invalid.
  - destruct (negb _); [|never_invalid].
    apply never_raises_bind; [unfold sweep, new_rank; never_invalid|].
    intros next. apply IH.
Qed.

Lemma never_invalid_iterate_pagerank fuel d :
  never_raises InvalidInput (iterate_pagerank fuel d).
Proof.
  unfold iterate_pagerank, dangling_fix. never_invalid.
  apply never_invalid_while_loop.
Qed.

(** * The claims *)

(** Decide a closed proposition by evaluation. *)
Ltac by_evaluation := apply (bool_decide_unpack _); vm_compute; exact I.



(** C5: for a page of a corpus whose links stay inside the corpus and a
    damping factor in (0,1), [transition_model] returns one entry per page
    of the corpus, all values are non-negative and they sum to exactly 1. *)
Theorem transition_model_distribution (w : world) (page : Page) (d : Qc) :
  dict_wf (corpus_obj w) →
  corpus_closed (corpus_obj w) →
  page ∈ dict_keys (corpus_obj w) →
  0 < d < 1 →
  ∃ dist,
    (transition_model page d w).1 = Ok dist
    ∧ length dist = length (corpus_obj w)
    ∧ dict_keys dist = dict_keys (corpus_obj w)
    ∧ Forall (λ v, 0 ≤ v) (dict_values dist)
    ∧ Qc_sum (dict_values dist) = 1.
Proof.
  intros Hwf Hclosed Hpage Hd.
  destruct (proj2 (dict_get_is_Some page (corpus_obj w)) Hpage) as [links Hget].
  rewrite (transition_model_run w page d links Hwf Hget).
  eexists. split; [done|]. split_and!.
  - by rewrite length_fmap, length_dict_keys.
  - by apply dict_keys_fmap_keys.
  - eapply Forall_impl; [apply transition_values_pos; [|done]|].
    + rewrite <- length_dict_keys.
      destruct (dict_keys (corpus_obj w)); [by apply elem_of_nil in Hpage|].
      simpl. lia.
    + intros v. apply Qclt_le_weak.
  - rewrite <- length_dict_keys. apply transition_values_sum; [|done|].
    + intros Hnil. rewrite Hnil in Hpage. by apply elem_of_nil in Hpage.
    + intros q Hq. exact (Hclosed page links Hget q Hq).
Qed.

Lemma corpus_closed_corpus3 : corpus_closed corpus3.
Proof.
  intros page links Hget q Hq.
  apply dict_get_Some_elem in Hget. unfold corpus3 in Hget.
  repeat (apply elem_of_cons in Hget as [[= -> ->]|Hget];
          [revert q Hq; apply (bool_decide_unpack _); vm_compute; exact I|]).
  by apply elem_of_nil in Hget.
Qed.

Lemma transition_model_distribution_witness :
  dict_wf corpus3 ∧ corpus_closed corpus3
  ∧ "A"%string ∈ dict_keys corpus3 ∧ 0 < d85 < 1
  ∧ ∃ dist,
      (transition_model "A" d85 (init_world corpus3 zero_entropy)).1 = Ok dist
      ∧ length dist = 3%nat
      ∧ Qc_sum (dict_values dist) = 1.
Proof.
  assert (dict_wf corpus3) as Hwf by by_evaluation.
  assert ("A"%string ∈ dict_keys corpus3) as Hpage by by_evaluation.
  assert (0 < d85 < 1) as Hd by (split; reflexivity).
  split_and!; [exact Hwf|exact corpus_closed_corpus3|exact Hpage|apply Hd..|].
  destruct (transition_model_distribution (init_world corpus3 zero_entropy)
              "A" d85 Hwf corpus_closed_corpus3 Hpage Hd)
    as (dist & Hrun & Hlen & _ & _ & Hsum).
  exists dist. split_and!; [exact Hrun|exact Hlen|exact Hsum].
Defined.

(** C6: before its [while] loop, [iterate_pagerank] replaces the links of
    every page without links by the set of all pages of the corpus, the
    page itself included, and leaves the links of the other pages and the
    set of pages unchanged. *)
Theorem iterate_pagerank_dangling_fix (fuel : nat) (d : Qc) (w : world) :
  dict_wf (corpus_obj w) →
  let all : gset Page := list_to_set (dict_keys (corpus_obj w)) in
  ∃ w',
    dangling_fix w = (Ok (), w')
    ∧ iterate_pagerank fuel d w = while_loop fuel d (uniform (corpus_obj w)) [] w'
    ∧ dict_keys (corpus_obj w') = dict_keys (corpus_obj w)
    ∧ ∀ key links,
        dict_get key (corpus_obj w) = Some links →
        (links = ∅ → dict_get key (corpus_obj w') = Some all ∧ key ∈ all)
        ∧ (links ≠ ∅ → dict_get key (corpus_obj w') = Some links).
Proof.
  intros Hwf all. eexists. split; [by apply dangling_fix_run|].
  split; [by apply iterate_pagerank_run|].
  cbn [corpus_obj]. split; [apply dict_keys_normalized|].
  intros key links Hget. rewrite dict_get_normalized, Hget. simpl.
  unfold fix_links. split.
  - intros ->. rewrite bool_decide_eq_true_2 by done. split; [done|].
    apply elem_of_list_to_set, dict_get_is_Some. by rewrite Hget.
  - intros Hne. by rewrite bool_decide_eq_false_2.
Qed.

Lemma iterate_pagerank_dangling_fix_witness :
  dict_wf dangling2
  ∧ ∃ w',
      dangling_fix (init_world dangling2 zero_entropy) = (Ok (), w')
      ∧ dict_get "A"%string (corpus_obj w') = Some {["A"; "B"]}%string
      ∧ dict_get "B"%string (corpus_obj w') = Some {["A"]}%string.
Proof.
  assert (dict_wf dangling2) as Hwf by by_evaluation.
  split; [exact Hwf|].
  destruct (iterate_pagerank_dangling_fix 0 d85 (init_world dangling2 zero_entropy) Hwf)
    as (w' & Hrun & _ & _ & Hlinks).
  exists w'. split; [exact Hrun|]. split.
  - destruct (Hlinks "A"%string ∅) as [Hempty _]; [by_evaluation|].
    destruct (Hempty eq_refl) as [HA _]. etrans; [exact HA|].
    by_evaluation.
  - destruct (Hlinks "B"%string {["A"]}%string) as [_ Hsame]; [by_evaluation|].
    apply Hsame. by_evaluation.
Defined.

(** C9: [transition_model] leaves the world, and so the corpus, as it
    found it; so do the sampler (for the corpus) and the sweeps of the
    solver. The corpus after [iterate_pagerank] is the corpus after its
    preprocessing loop, which does change it when a page has no links:
    nothing else writes to it. *)
Theorem corpus_written_only_by_dangling_fix :
  (∀ page d w, (transition_model page d w).2 = w)
  ∧ (∀ d n w, corpus_obj (sample_pagerank d n w).2 = corpus_obj w)
  ∧ (∀ fuel d pd prior w, (while_loop fuel d pd prior w).2 = w)
  ∧ (∀ fuel d w, (iterate_pagerank fuel d w).2 = (dangling_fix w).2)
  ∧ corpus_obj (iterate_pagerank 0 d85 (init_world dangling2 zero_entropy)).2
    ≠ dangling2.
Proof.
  split_and!; [| | | |by_evaluation].
  - intros page d. apply read_only_transition_model.
  - intros d n. apply keeps_corpus_sample_pagerank.
  - intros fuel d pd prior. apply read_only_while_loop.
  - intros fuel d w. rewrite iterate_pagerank_unfold.
    destruct (dangling_fix w) as [[[]| |] w2]; [|done..].
    apply read_only_while_loop.
Qed.

(** C8: [iterate_pagerank] does not depend on the random generator, which
    it leaves untouched: two runs on the same corpus and damping factor
    have the same outcome and leave the same corpus; whenever two runs
    return, with whatever bounds on the number of sweeps, they return the
    same mapping; and a second run on the corpus object the first run has
    normalized repeats the first. *)
Theorem iterate_pagerank_deterministic (d : Qc) (w1 w2 : world) :
  dict_wf (corpus_obj w1) →
  corpus_obj w1 = corpus_obj w2 →
  (∀ fuel,
     (iterate_pagerank fuel d w1).1 = (iterate_pagerank fuel d w2).1
     ∧ corpus_obj (iterate_pagerank fuel d w1).2
       = corpus_obj (iterate_pagerank fuel d w2).2
     ∧ entropy (iterate_pagerank fuel d w1).2 = entropy w1
     ∧ cursor (iterate_pagerank fuel d w1).2 = cursor w1)
  ∧ (∀ fuel1 fuel2 ranks1 ranks2,
       (iterate_pagerank fuel1 d w1).1 = Ok ranks1 →
       (iterate_pagerank fuel2 d w2).1 = Ok ranks2 →
       ranks1 = ranks2)
  ∧ (∀ fuel,
       iterate_pagerank fuel d (iterate_pagerank fuel d w1).2
       = iterate_pagerank fuel d w1).
Proof.
  intros Hwf Hc.
  assert (∀ fuel,
     (iterate_pagerank fuel d w1).1 = (iterate_pagerank fuel d w2).1
     ∧ corpus_obj (iterate_pagerank fuel d w1).2
       = corpus_obj (iterate_pagerank fuel d w2).2
     ∧ entropy (iterate_pagerank fuel d w1).2 = entropy w1
     ∧ cursor (iterate_pagerank fuel d w1).2 = cursor w1) as Hsame.
  { intros fuel. destruct w1 as [c1 e1 k1], w2 as [c2 e2 k2].
    simpl in Hc. subst c2. apply rng_free_iterate_pagerank. }
  split; [exact Hsame|].
  split; [|intros fuel; by apply iterate_pagerank_rerun].
  intros fuel1 fuel2 ranks1 ranks2 Hrun1 Hrun2.
  apply (iterate_pagerank_fuel_mono fuel1 (fuel1 `max` fuel2)) in Hrun1; [|lia].
  apply (iterate_pagerank_fuel_mono fuel2 (fuel1 `max` fuel2)) in Hrun2; [|lia].
  destruct (Hsame (fuel1 `max` fuel2)) as [Heq _].
  rewrite Hrun1, Hrun2 in Heq. by injection Heq.
Qed.

Lemma iterate_pagerank_cycle3 fuel e k :
  (2 ≤ fuel)%nat → (iterate_pagerank fuel d85 (World cycle3 e k)).1 = Ok cycle3_ranks.
Proof.
  intros Hfuel.
  assert ((iterate_pagerank 2 d85 (World cycle3 zero_entropy 0%nat)).1 = Ok cycle3_ranks)
    as Hrun by by_evaluation.
  destruct (rng_free_iterate_pagerank 2 d85 cycle3 e k zero_entropy 0%nat) as [Heq _].
  rewrite <- Heq in Hrun. by apply (iterate_pagerank_fuel_mono 2).
Qed.

Lemma iterate_pagerank_deterministic_witness :
  dict_wf cycle3
  ∧ corpus_obj (init_world cycle3 zero_entropy)
    = corpus_obj (World cycle3 (λ i, N.of_nat i) 7)
  ∧ (iterate_pagerank 5 d85 (init_world cycle3 zero_entropy)).1
    = (iterate_pagerank 5 d85 (World cycle3 (λ i, N.of_nat i) 7)).1.
Proof.
  assert (dict_wf cycle3) as Hwf by by_evaluation.
  split; [exact Hwf|]. split; [reflexivity|].
  apply (iterate_pagerank_deterministic d85 (init_world cycle3 zero_entropy)
           (World cycle3 (λ i, N.of_nat i) 7) Hwf eq_refl).
Defined.

(** Over exact rationals, where [round] returns the decimal itself, every
    value of the mapping [iterate_pagerank] returns is an integer multiple
    of 10^-5: it was rounded to five decimals by the last sweep. *)
Theorem iterate_pagerank_five_decimals (fuel : nat) (d : Qc) (w : world)
    (ranks : Distribution) :
  dict_wf (corpus_obj w) →
  (iterate_pagerank fuel d w).1 = Ok ranks →
  ∀ page v, dict_get page ranks = Some v → five_decimals v.
Proof.
  intros Hwf Hrun page v Hget.
  rewrite iterate_pagerank_run in Hrun by done.
  destruct (while_loop _ _ _ _ _) as [o w'] eqn:Hloop. simpl in Hrun. subst o.
  apply while_loop_five_decimals in Hloop.
  - apply dict_get_Some_elem in Hget.
    eapply Forall_forall in Hloop; [exact Hloop|].
    apply list_elem_of_fmap. by exists (page, v).
  - cbn [corpus_obj]. unfold dict_wf. by rewrite dict_keys_normalized.
  - cbn [corpus_obj]. rewrite dict_keys_normalized. by apply dict_keys_fmap_keys.
  - destruct (dict_eqb (uniform (corpus_obj w)) []) eqn:Heq; [|by right].
    left. apply dict_eqb_nil_r in Heq. rewrite Heq. constructor.
Qed.

Lemma iterate_pagerank_five_decimals_witness :
  dict_wf cycle3
  ∧ (iterate_pagerank 10 d85 (init_world cycle3 zero_entropy)).1 = Ok cycle3_ranks
  ∧ dict_get "A"%string cycle3_ranks = Some (Q2Qc (33333 # 100000))
  ∧ five_decimals (Q2Qc (33333 # 100000)).
Proof.
  assert (dict_wf cycle3) as Hwf by by_evaluation.
  assert ((iterate_pagerank 10 d85 (init_world cycle3 zero_entropy)).1
          = Ok cycle3_ranks) as Hrun by by_evaluation.
  assert (dict_get "A"%string cycle3_ranks = Some (Q2Qc (33333 # 100000))) as Hget
    by by_evaluation.
  split_and!; [exact Hwf|exact Hrun|exact Hget|].
  exact (iterate_pagerank_five_decimals 10 d85 (init_world cycle3 zero_entropy)
           cycle3_ranks Hwf Hrun "A"%string _ Hget).
Defined.

(** C10, as stated, fails on the numbers of the program: on the cycle
    A → B → C → A with damping 0.85 every page is ranked [0.33333], the
    binary64 number 6004739455165630 / 2^54, and that number is not an
    integer multiple of 10^-5. *)
Lemma iterate_pagerank_not_exact_decimals :
  (Binary64.iterate_pagerank 10 Binary64.d85 (init_world cycle3 zero_entropy)).1
  = Ok Binary64.cycle3_ranks
  ∧ dict_get "A"%string Binary64.cycle3_ranks
    = Some (Binary64.nearest false 33333 100000)
  ∧ Binary64.value (Binary64.nearest false 33333 100000)
    = Some (Q2Qc (6004739455165630 # 18014398509481984))
  ∧ ¬ five_decimals (Q2Qc (6004739455165630 # 18014398509481984)).
Proof.
  split_and!.
  - vm_compute. reflexivity.
  - vm_compute. reflexivity.
  - by_evaluation.
  - intros [z Hz]. apply (f_equal this) in Hz.
    assert (6004739455165630 # 18014398509481984
            == inject_Z z / inject_Z 100000)%Q as Heq.
    { rewrite <- (Qred_correct (6004739455165630 # 18014398509481984)).
      change (Qred (6004739455165630 # 18014398509481984))
        with (this (Q2Qc (6004739455165630 # 18014398509481984))).
      rewrite Hz. unfold Qcdiv, Qcmult, Qcinv, Qc_of_Z, Q2Qc. cbn [this].
      by rewrite !Qred_correct. }
    unfold Qeq, Qdiv, Qmult, Qinv, inject_Z in Heq. simpl in Heq. lia.
Qed.

(** C10, amended: every value of the mapping [iterate_pagerank] returns
    is a result of [round(_, 5)], assigned by the last sweep; when it is
    finite and not zero, it is the binary64 number nearest to an integer
    multiple of 10^-5. No value of an unfinished sweep is returned. *)
Theorem iterate_pagerank_rounded (fuel : nat) (d : float) (w : world)
    (ranks : Binary64.Distribution) :
  dict_wf (corpus_obj w) →
  (Binary64.iterate_pagerank fuel d w).1 = Ok ranks →
  ∀ page v, dict_get page ranks = Some v → Binary64.five_decimals v.
Proof.
  intros Hwf Hrun.
  destruct (Binary64.iterate_pagerank fuel d w) as [o w'] eqn:Hiter.
  simpl in Hrun. subst o. unfold Binary64.iterate_pagerank in Hiter.
  apply bind_Ok_inv in Hiter as (keys & w1 & Hkeys & Hiter).
  injection Hkeys as <- <-.
  apply bind_Ok_inv in Hiter as (pd & w2 & Hinit & Hiter).
  apply bind_Ok_inv in Hiter as ([] & w3 & Hfix & Hloop).
  assert (w2 = w) as -> by (eapply read_only_run; [|exact Hinit]; frame).
  rewrite dangling_fix_run in Hfix by done. injection Hfix as <-.
  eapply binary64_while_loop_five_decimals; [| |exact Hloop].
  - cbn [corpus_obj]. rewrite dict_keys_normalized.
    intros k [v Hv]%dict_get_is_Some.
    assert (k ∈ dict_keys (corpus_obj w) ∧ True
            ∨ (¬ k ∈ dict_keys (corpus_obj w)) ∧ dict_get k [] = Some v)
      as [[Hk _]|[_ Hnil]]; [|done..].
    eapply (for_each_assign (λ _, True)); [|exact Hinit|exact Hv].
    intros s key w1 s' w2 (n & w3 & _ & Hp)%bind_Ok_inv.
    apply bind_Ok_inv in Hp as (p & w4 & _ & Hret).
    injection Hret as <- _. by exists p.
  - unfold Binary64.dict_eqb. intros [Hlen _]%andb_prop.
    apply bool_decide_eq_true_1, nil_length_inv in Hlen. by subst pd.
Qed.

Lemma iterate_pagerank_rounded_witness :
  dict_wf cycle3
  ∧ (Binary64.iterate_pagerank 10 Binary64.d85 (init_world cycle3 zero_entropy)).1
    = Ok Binary64.cycle3_ranks
  ∧ dict_get "A"%string Binary64.cycle3_ranks
    = Some (Binary64.nearest false 33333 100000)
  ∧ Binary64.five_decimals (Binary64.nearest false 33333 100000).
Proof.
  assert (dict_wf cycle3) as Hwf by by_evaluation.
  assert ((Binary64.iterate_pagerank 10 Binary64.d85
             (init_world cycle3 zero_entropy)).1 = Ok Binary64.cycle3_ranks) as Hrun
    by (vm_compute; reflexivity).
  assert (dict_get "A"%string Binary64.cycle3_ranks
          = Some (Binary64.nearest false 33333 100000)) as Hget
    by (vm_compute; reflexivity).
  split_and!; [exact Hwf|exact Hrun|exact Hget|].
  exact (iterate_pagerank_rounded 10 Binary64.d85 (init_world cycle3 zero_entropy)
           Binary64.cycle3_ranks Hwf Hrun "A"%string _ Hget).
Defined.

(** C1, as stated, fails: on the corpus A → {B, C}, B → {C}, C → {A} with
    damping 0.85, the first sweep from the uniform distribution gives C the
    rank 0.35458, computed from the ranks A and B received earlier in the
    same sweep; a simultaneous update gives C the rank 0.475. *)
Lemma sweep_not_simultaneous :
  let w := init_world corpus3 zero_entropy in
  let prior := uniform corpus3 in
  (sweep d85 prior w).1
  = Ok [("A", Q2Qc (33333 # 100000)); ("B", Q2Qc (19167 # 100000));
        ("C", Q2Qc (35458 # 100000))]%string
  ∧ rounded_simultaneous_sweep corpus3 d85 prior
    = [("A", Q2Qc (33333 # 100000)); ("B", Q2Qc (19167 # 100000));
       ("C", Q2Qc (475 # 1000))]%string
  ∧ (sweep d85 prior w).1 ≠ Ok (simultaneous_sweep corpus3 d85 prior)
  ∧ (sweep d85 prior w).1 ≠ Ok (rounded_simultaneous_sweep corpus3 d85 prior).
Proof. split_and!; by_evaluation. Qed.

(** C1, amended: a sweep updates the pages one after the other in the
    order of the corpus. The new rank of the page at position [i] is the
    recurrence, rounded to five decimals, applied to the distribution
    that holds the new ranks of the pages before position [i] and the
    previous ranks of the others. *)
Theorem sweep_sequential_in_place (w : world) (d : Qc) (prior : Distribution) :
  dict_wf (corpus_obj w) →
  dict_keys prior = dict_keys (corpus_obj w) →
  ∃ next,
    sweep d prior w = (Ok next, w)
    ∧ dict_keys next = dict_keys (corpus_obj w)
    ∧ ∀ i page, dict_keys (corpus_obj w) !! i = Some page →
        dict_get page next
        = Some (py_round (rank_formula (corpus_obj w) d
                            (rank_of (take i next ++ drop i prior)) page) 5).
Proof.
  intros Hwf Hkeys.
  destruct (sweep_in_place w d prior Hwf Hkeys) as (next & Hrun & Hnext & Hval).
  exists next. split_and!; [done..|].
  intros i page Hi. apply dict_get_elem.
  - unfold dict_wf. by rewrite Hnext.
  - eapply list_elem_of_lookup_2. by apply Hval.
Qed.

Lemma sweep_sequential_in_place_witness :
  dict_wf corpus3
  ∧ dict_keys (uniform corpus3) = dict_keys corpus3
  ∧ ∃ next,
      sweep d85 (uniform corpus3) (init_world corpus3 zero_entropy)
      = (Ok next, init_world corpus3 zero_entropy)
      ∧ dict_get "C"%string next
        = Some (py_round (rank_formula corpus3 d85
                            (rank_of (take 2 next ++ drop 2 (uniform corpus3)))
                            "C") 5).
Proof.
  assert (dict_wf corpus3) as Hwf by by_evaluation.
  assert (dict_keys (uniform corpus3) = dict_keys corpus3) as Hkeys by by_evaluation.
  split; [exact Hwf|]. split; [exact Hkeys|].
  destruct (sweep_sequential_in_place (init_world corpus3 zero_entropy) d85
              (uniform corpus3) Hwf Hkeys) as (next & Hrun & _ & Hval).
  exists next. split; [exact Hrun|].
  apply (Hval 2%nat "C"%string). reflexivity.
Defined.

(** C2 fails on the code: with [n = 1] the walk visits the start page
    only, and on a corpus of two pages the mapping returned holds one
    entry; the page that was not visited is absent, not ranked 0. *)
Theorem sample_pagerank_omits_unvisited (e : nat → N) (k : nat) :
  ∃ ranks,
    (sample_pagerank d85 1 (World corpus2 e k)).1 = Ok ranks
    ∧ length ranks = 1%nat
    ∧ ∃ page, page ∈ dict_keys corpus2 ∧ dict_get page ranks = None.
Proof.
  destruct (sample_pagerank_no_steps (World corpus2 e k) d85 1)
    as (first & Hfirst & Hrun); [done|lia|].
  rewrite Hrun. rewrite decide_False by done.
  eexists. split; [done|]. split; [done|].
  cbn [corpus_obj] in Hfirst. unfold corpus2, dict_keys in Hfirst. simpl in Hfirst.
  apply elem_of_cons in Hfirst as [->|Hfirst].
  - exists "B"%string. split; [by_evaluation|]. reflexivity.
  - apply elem_of_cons in Hfirst as [->|Hfirst]; [|by apply elem_of_nil in Hfirst].
    exists "A"%string. split; [by_evaluation|]. reflexivity.
Qed.

(** C3, as stated, fails: on the empty corpus neither function raises
    [InvalidInput]. *)
Lemma empty_corpus_not_invalid_input :
  (sample_pagerank d85 10 (init_world [] zero_entropy)).1 ≠ Raise InvalidInput
  ∧ (iterate_pagerank 10 d85 (init_world [] zero_entropy)).1 ≠ Raise InvalidInput.
Proof. split; by_evaluation. Qed.

(** C3, amended: on the empty corpus [sample_pagerank] fails with the
    [IndexError] of [random.choice], which it does not guard, and
    [iterate_pagerank] returns the empty mapping; neither changes the
    world. *)
Theorem empty_corpus_behaviour (w : world) (d : Qc) (n : Z) (fuel : nat) :
  corpus_obj w = [] →
  sample_pagerank d n w = (Raise IndexError, w)
  ∧ iterate_pagerank fuel d w = (Ok [], w).
Proof.
  intros Hempty. split.
  - unfold sample_pagerank. erewrite bind_Ok by done.
    rewrite Hempty. by erewrite bind_Raise by apply random_choice_nil.
  - rewrite iterate_pagerank_unfold. unfold dangling_fix.
    erewrite bind_Ok by done. rewrite Hempty. simpl. by destruct fuel.
Qed.

Lemma empty_corpus_behaviour_witness :
  corpus_obj (init_world [] zero_entropy) = []
  ∧ (sample_pagerank d85 10 (init_world [] zero_entropy)).1 = Raise IndexError
  ∧ (iterate_pagerank 10 d85 (init_world [] zero_entropy)).1 = Ok [].
Proof.
  split; [reflexivity|].
  destruct (empty_corpus_behaviour (init_world [] zero_entropy) d85 10 10 eq_refl)
    as [Hsample Hiterate].
  split; [by rewrite Hsample|by rewrite Hiterate].
Defined.

(** C7, as stated, fails: [n = 0] ends in a [ZeroDivisionError] and
    [n = -1] returns a mapping; neither is rejected as [InvalidInput]. *)
Lemma sample_pagerank_unchecked_count :
  let w := init_world corpus3 zero_entropy in
  (sample_pagerank d85 0 w).1 = Raise ZeroDivisionError
  ∧ (sample_pagerank d85 (-1) w).1 = Ok [("A"%string, Q2Qc (-1))]
  ∧ (sample_pagerank d85 0 w).1 ≠ Raise InvalidInput
  ∧ (sample_pagerank d85 (-1) w).1 ≠ Raise InvalidInput.
Proof. split_and!; by_evaluation. Qed.

(** C7, amended: [sample_pagerank] does not check [n] and never raises
    [InvalidInput]. On a non-empty corpus, [n = 0] ends in the
    [ZeroDivisionError] of [count / n], [n < 0] returns the start page
    alone with the value [1 / n], and [n ≥ 1] returns a mapping whenever
    the damping factor is in (0,1). *)
Theorem sample_pagerank_sample_count (w : world) (d : Qc) (n : Z) :
  dict_wf (corpus_obj w) →
  corpus_obj w ≠ [] →
  (sample_pagerank d n w).1 ≠ Raise InvalidInput
  ∧ ((n = 0)%Z → (sample_pagerank d n w).1 = Raise ZeroDivisionError)
  ∧ ((n < 0)%Z →
     ∃ first, first ∈ dict_keys (corpus_obj w)
              ∧ (sample_pagerank d n w).1 = Ok [(first, 1 / Qc_of_Z n)])
  ∧ ((1 ≤ n)%Z → 0 < d < 1 →
     ∃ ranks, (sample_pagerank d n w).1 = Ok ranks).
Proof.
  intros Hwf Hne. split_and!.
  - apply never_invalid_sample_pagerank.
  - intros ->. destruct (sample_pagerank_no_steps w d 0 Hne) as (first & _ & Hrun);
      [lia|]. by rewrite Hrun.
  - intros Hn. destruct (sample_pagerank_no_steps w d n Hne) as (first & Hin & Hrun);
      [lia|]. exists first. split; [done|]. rewrite Hrun.
    by rewrite decide_False by lia.
  - intros Hn Hd. destruct (sample_pagerank_run w d n Hwf Hne (or_introl Hd) Hn)
      as (ranks & w' & Hrun). exists ranks. by rewrite Hrun.
Qed.

Lemma sample_pagerank_sample_count_witness :
  dict_wf corpus3 ∧ corpus_obj (init_world corpus3 zero_entropy) ≠ []
  ∧ 0 < d85 < 1
  ∧ (sample_pagerank d85 0 (init_world corpus3 zero_entropy)).1
    = Raise ZeroDivisionError
  ∧ ∃ ranks, (sample_pagerank d85 10 (init_world corpus3 zero_entropy)).1 = Ok ranks.
Proof.
  assert (dict_wf corpus3) as Hwf by by_evaluation.
  assert (corpus_obj (init_world corpus3 zero_entropy) ≠ []) as Hne by discriminate.
  assert (0 < d85 < 1) as Hd by (split; reflexivity).
  split_and!; [exact Hwf|exact Hne|apply Hd..| |].
  - apply (sample_pagerank_sample_count (init_world corpus3 zero_entropy) d85 0 Hwf Hne).
    reflexivity.
  - apply (sample_pagerank_sample_count (init_world corpus3 zero_entropy) d85 10 Hwf Hne).
    + lia.
    + exact Hd.
Defined.

(** * Further properties *)

(** ** The crawler *)

Lemma NoDup_fst_filter {A B} (P : A * B → Prop) `{∀ x, Decision (P x)}
    (l : list (A * B)) :
  NoDup l.*1 → NoDup (filter P l).*1.
Proof.
  induction l as [|[a b] l IH]; simpl; [done|].
  intros [Hnotin Hnd]%NoDup_cons. rewrite filter_cons.
  destruct (decide (P (a, b))); [|by apply IH].
  simpl. apply NoDup_cons. split; [|by apply IH].
  intros ([a' b'] & -> & Hin%list_elem_of_filter)%list_elem_of_fmap.
  apply Hnotin. apply list_elem_of_fmap. exists (a', b'). by destruct Hin.
Qed.

Lemma html_entries_app d1 d2 :
  html_entries (d1 ++ d2) = html_entries d1 ++ html_entries d2.
Proof. apply filter_app. Qed.

Lemma dict_keys_raw_pages findall directory :
  dict_keys (raw_pages findall directory) = (html_entries directory).*1.
Proof.
  unfold raw_pages, dict_keys. rewrite <- list_fmap_compose.
  apply list_fmap_ext. by intros _ [f c] _.
Qed.

Lemma elem_of_html_entries directory filename contents :
  (filename, contents) ∈ html_entries directory
  ↔ (filename, contents) ∈ directory ∧ ends_with ".html" filename = true.
Proof.
  unfold html_entries. rewrite list_elem_of_filter. simpl.
  rewrite Is_true_true. tauto.
Qed.

Lemma raw_pages_app findall d1 d2 :
  raw_pages findall (d1 ++ d2) = raw_pages findall d1 ++ raw_pages findall d2.
Proof. unfold raw_pages. by rewrite html_entries_app, fmap_app. Qed.

Lemma raw_pages_singleton findall f c :
  raw_pages findall [(f, c)]
  = if ends_with ".html" f then [(f, list_to_set (findall c) ∖ {[f]})] else [].
Proof.
  unfold raw_pages, html_entries. rewrite (filter_cons _ (f, c) []), filter_nil.
  simpl. by destruct (ends_with ".html" f).
Qed.

Lemma crawl_first_loop findall (done rest : list (string * string)) :
  NoDup (done ++ rest).*1 →
  foldl (λ (pages : Corpus) (entry : string * string),
           if negb (ends_with ".html" entry.1) then pages
           else dict_set entry.1 (list_to_set (findall entry.2) ∖ {[entry.1]}) pages)
    (raw_pages findall done) rest
  = raw_pages findall (done ++ rest).
Proof.
  revert done. induction rest as [|[f c] rest IH]; intros done Hnd; simpl.
  - by rewrite app_nil_r.
  - replace (done ++ (f, c) :: rest) with ((done ++ [(f, c)]) ++ rest) in *
      by (by rewrite <- app_assoc).
    rewrite <- (IH _ Hnd). f_equal.
    rewrite raw_pages_app, raw_pages_singleton.
    destruct (ends_with ".html" f) eqn:Hhtml; simpl.
    + apply dict_set_notin.
      rewrite dict_keys_raw_pages. intros Hin.
      apply list_elem_of_fmap in Hin as ([f' c'] & -> & Hin). simpl in *.
      apply elem_of_html_entries in Hin as [Hin _].
      rewrite !fmap_app in Hnd. apply NoDup_app in Hnd as [Hnd _].
      apply NoDup_app in Hnd as (_ & Hdisj & _).
      apply (Hdisj f'); [|left].
      apply list_elem_of_fmap. by exists (f', c').
    + by rewrite app_nil_r.
Qed.

(** A loop that rewrites the value of every key of a dictionary in place,
    the new value depending on the dictionary through its keys alone,
    maps the values. *)
Lemma update_values_loop {V} (h : list Page → V → V) (keys : list Page)
    (done rest : dict Page V) w :
  dict_wf (done ++ rest) →
  dict_keys (done ++ rest) = keys →
  for_each (dict_keys rest)
    (λ pages filename,
       v <- dict_getitem filename pages ;;
       ret (dict_set filename (h (dict_keys pages) v) pages))
    (done ++ rest) w
  = (Ok (done ++ (prod_map id (h keys) <$> rest)), w).
Proof.
  revert done. induction rest as [|[k v] rest IH]; intros done Hwf Hkeys.
  - done.
  - assert (k ∉ dict_keys done) as Hk.
    { unfold dict_wf in Hwf. rewrite dict_keys_app in Hwf.
      apply NoDup_app in Hwf as (_ & Hdisj & _).
      intros Hin. apply (Hdisj k Hin). left. }
    assert (∀ x tl, done ++ (k, x) :: tl = (done ++ [(k, x)]) ++ tl) as Hassoc.
    { intros x tl. by rewrite <- app_assoc. }
    assert (dict_getitem k (done ++ (k, v) :: rest) w = (Ok v, w)) as Hget.
    { unfold dict_getitem. rewrite dict_get_app_notin by done.
      simpl. by rewrite decide_True. }
    cbn [dict_keys fmap list_fmap for_each fst].
    rewrite bind_assoc, (bind_Ok _ _ _ _ _ Hget). erewrite bind_Ok by done.
    rewrite dict_set_app_notin by done. rewrite dict_set_head, Hkeys.
    cbn [prod_map fst snd id].
    rewrite (Hassoc (h keys v) rest), (Hassoc (h keys v) (_ <$> rest)).
    apply IH.
    + unfold dict_wf in *. rewrite <- Hassoc. by rewrite dict_keys_app in *.
    + rewrite <- Hassoc. by rewrite dict_keys_app in *.
Qed.

Lemma crawl_run findall directory w :
  NoDup directory.*1 →
  crawl findall directory w = (Ok (crawled findall directory), w).
Proof.
  intros Hnd. unfold crawl.
  erewrite bind_Ok; last first.
  { apply (for_each_pure _ _
      (λ (pages : Corpus) (entry : string * string),
         if negb (ends_with ".html" entry.1) then pages
         else dict_set entry.1 (list_to_set (findall entry.2) ∖ {[entry.1]}) pages)
      (λ _, True)); [done|].
    intros pages [f c] _ _. split; [|done]. simpl. by destruct (negb _). }
  match goal with |- context [foldl ?g ?a directory] =>
    replace (foldl g a directory) with (raw_pages findall directory)
      by (symmetry; exact (crawl_first_loop findall [] directory Hnd))
  end.
  apply (update_values_loop keep_known
           (dict_keys (raw_pages findall directory)) [] (raw_pages findall directory) w);
    [|done].
  unfold dict_wf. simpl. rewrite dict_keys_raw_pages.
  unfold html_entries. by apply NoDup_fst_filter.
Qed.

Lemma dict_get_prod_map {V W} (g : V → W) (d : dict Page V) key :
  dict_get key (prod_map id g <$> d) = g <$> dict_get key d.
Proof.
  induction d as [|[k v] d IH]; simpl; [done|]. by case_decide.
Qed.

Lemma dict_keys_prod_map {V W} (g : V → W) (d : dict Page V) :
  dict_keys (prod_map id g <$> d) = dict_keys d.
Proof.
  unfold dict_keys. rewrite <- list_fmap_compose.
  apply list_fmap_ext. by intros _ [k v] _.
Qed.

Lemma fmap_fst_filter {A B} (P : A → Prop) `{∀ x, Decision (P x)}
    (l : list (A * B)) :
  (filter (λ entry, P entry.1) l).*1 = filter P l.*1.
Proof.
  induction l as [|[a b] l IH]; [done|].
  rewrite fmap_cons, (filter_cons _ (a, b) l), (filter_cons _ a). simpl.
  destruct (decide (P a)); simpl; by rewrite <- IH.
Qed.

Lemma dict_keys_crawled findall directory :
  dict_keys (crawled findall directory)
  = filter (λ name, ends_with ".html" name) directory.*1.
Proof.
  unfold crawled. rewrite dict_keys_prod_map, dict_keys_raw_pages.
  unfold html_entries.
  exact (fmap_fst_filter (λ name : string, Is_true (ends_with ".html" name)) directory).
Qed.

Lemma dict_wf_raw_pages findall directory :
  NoDup directory.*1 → dict_wf (raw_pages findall directory).
Proof.
  intros Hnd. unfold dict_wf. rewrite dict_keys_raw_pages.
  unfold html_entries. by apply NoDup_fst_filter.
Qed.

Lemma dict_wf_crawled findall directory :
  NoDup directory.*1 → dict_wf (crawled findall directory).
Proof.
  intros Hnd. unfold dict_wf, crawled. rewrite dict_keys_prod_map.
  by apply dict_wf_raw_pages.
Qed.

Lemma elem_of_keep_known keys links q :
  q ∈ keep_known keys links ↔ q ∈ keys ∧ q ∈ links.
Proof. unfold keep_known. by rewrite elem_of_filter. Qed.

(** The links [crawl] records for a page. *)
Lemma dict_get_crawled findall directory page links :
  NoDup directory.*1 →
  dict_get page (crawled findall directory) = Some links →
  ∃ contents,
    (page, contents) ∈ directory
    ∧ ends_with ".html" page = true
    ∧ ∀ q, q ∈ links
           ↔ q ∈ findall contents ∧ q ≠ page
             ∧ q ∈ dict_keys (crawled findall directory).
Proof.
  intros Hnd. unfold crawled at 1. rewrite dict_get_prod_map.
  intros (raw & Hraw & ->)%fmap_Some.
  apply dict_get_Some_elem in Hraw. unfold raw_pages in Hraw.
  apply list_elem_of_fmap in Hraw as ([f c] & [= -> ->] & Hin).
  apply elem_of_html_entries in Hin as [Hin Hhtml].
  exists c. split_and!; [done..|]. intros q.
  rewrite elem_of_keep_known, elem_of_difference, elem_of_list_to_set,
    elem_of_singleton.
  unfold crawled. rewrite dict_keys_prod_map. tauto.
Qed.

(** X1: the mapping [crawl] returns for a directory without repeated file
    names is a corpus of the data model: every page occurs once as a key
    and every link leads to a page that is a key. *)
Theorem crawl_corpus_invariant (findall : string → list string)
    (directory : list (string * string)) (w : world) :
  NoDup directory.*1 →
  ∃ pages,
    crawl findall directory w = (Ok pages, w)
    ∧ dict_wf pages
    ∧ corpus_closed pages.
Proof.
  intros Hnd. exists (crawled findall directory).
  split; [by apply crawl_run|]. split; [by apply dict_wf_crawled|].
  intros page links Hget q Hq.
  destruct (dict_get_crawled findall directory page links Hnd Hget)
    as (contents & _ & _ & Hlinks).
  apply (Hlinks q) in Hq. tauto.
Qed.

Lemma example_directory_NoDup : NoDup example_directory.*1.
Proof. by_evaluation. Qed.

Lemma crawl_corpus_invariant_witness :
  NoDup example_directory.*1
  ∧ ∃ pages,
      crawl example_findall example_directory (init_world [] zero_entropy)
      = (Ok pages, init_world [] zero_entropy)
      ∧ dict_wf pages ∧ corpus_closed pages.
Proof.
  split; [exact example_directory_NoDup|].
  exact (crawl_corpus_invariant example_findall example_directory
           (init_world [] zero_entropy) example_directory_NoDup).
Defined.

(** X2: no page of the mapping [crawl] returns links to itself. *)
Theorem crawl_no_self_link (findall : string → list string)
    (directory : list (string * string)) (w : world) (pages : Corpus)
    (page : Page) (links : gset Page) :
  NoDup directory.*1 →
  (crawl findall directory w).1 = Ok pages →
  dict_get page pages = Some links →
  page ∉ links.
Proof.
  intros Hnd Hrun Hget. rewrite crawl_run in Hrun by done.
  injection Hrun as <-.
  destruct (dict_get_crawled findall directory page links Hnd Hget)
    as (contents & _ & _ & Hlinks).
  intros Hin. apply (Hlinks page) in Hin. tauto.
Qed.

Lemma crawl_no_self_link_witness :
  NoDup example_directory.*1
  ∧ (crawl example_findall example_directory (init_world [] zero_entropy)).1
    = Ok (crawled example_findall example_directory)
  ∧ dict_get "1.html"%string (crawled example_findall example_directory)
    = Some {["2.html"]}%string
  ∧ "1.html"%string ∉ ({["2.html"]}%string : gset Page).
Proof.
  assert ((crawl example_findall example_directory (init_world [] zero_entropy)).1
          = Ok (crawled example_findall example_directory)) as Hrun
    by (by rewrite crawl_run by exact example_directory_NoDup).
  assert (dict_get "1.html"%string (crawled example_findall example_directory)
          = Some {["2.html"]}%string) as Hget by by_evaluation.
  split_and!; [exact example_directory_NoDup|exact Hrun|exact Hget|].
  exact (crawl_no_self_link example_findall example_directory
           (init_world [] zero_entropy) _ "1.html"%string _
           example_directory_NoDup Hrun Hget).
Defined.

(** X3: the pages of the mapping [crawl] returns are the file names of
    the directory that end in [.html], in the order of the listing; other
    files are skipped. *)
Theorem crawl_pages (findall : string → list string)
    (directory : list (string * string)) (w : world) (pages : Corpus) :
  NoDup directory.*1 →
  (crawl findall directory w).1 = Ok pages →
  dict_keys pages = filter (λ name, ends_with ".html" name) directory.*1.
Proof.
  intros Hnd Hrun. rewrite crawl_run in Hrun by done. injection Hrun as <-.
  apply dict_keys_crawled.
Qed.

Lemma crawl_pages_witness :
  NoDup example_directory.*1
  ∧ (crawl example_findall example_directory (init_world [] zero_entropy)).1
    = Ok (crawled example_findall example_directory)
  ∧ dict_keys (crawled example_findall example_directory)
    = ["1.html"; "2.html"; "3.html"]%string.
Proof.
  assert ((crawl example_findall example_directory (init_world [] zero_entropy)).1
          = Ok (crawled example_findall example_directory)) as Hrun
    by (by rewrite crawl_run by exact example_directory_NoDup).
  split_and!; [exact example_directory_NoDup|exact Hrun|].
  etrans; [exact (crawl_pages example_findall example_directory
                    (init_world [] zero_entropy) _ example_directory_NoDup Hrun)|].
  by_evaluation.
Defined.

(** X4: the links [crawl] records for a page are the [href] values found
    in its file that name another page of the result: a link to the page
    itself or to a file that is not a page of the directory is dropped. *)
Theorem crawl_links (findall : string → list string)
    (directory : list (string * string)) (w : world) (pages : Corpus)
    (page contents : string) :
  NoDup directory.*1 →
  (crawl findall directory w).1 = Ok pages →
  (page, contents) ∈ directory →
  ends_with ".html" page = true →
  ∃ links,
    dict_get page pages = Some links
    ∧ ∀ q, q ∈ links ↔ q ∈ findall contents ∧ q ≠ page ∧ q ∈ dict_keys pages.
Proof.
  intros Hnd Hrun Hin Hhtml. rewrite crawl_run in Hrun by done.
  injection Hrun as <-.
  assert (dict_get page (raw_pages findall directory)
          = Some (list_to_set (findall contents) ∖ {[page]})) as Hraw.
  { apply dict_get_elem; [by apply dict_wf_raw_pages|].
    unfold raw_pages. apply list_elem_of_fmap. exists (page, contents).
    split; [done|]. by apply elem_of_html_entries. }
  eexists. split.
  - unfold crawled. etrans; [apply dict_get_prod_map|].
    etrans; [exact (f_equal _ Hraw)|]. reflexivity.
  - intros q.
    rewrite elem_of_keep_known, elem_of_difference, elem_of_list_to_set,
      elem_of_singleton.
    unfold crawled. rewrite dict_keys_prod_map. tauto.
Qed.

Lemma crawl_links_witness :
  NoDup example_directory.*1
  ∧ (crawl example_findall example_directory (init_world [] zero_entropy)).1
    = Ok (crawled example_findall example_directory)
  ∧ ("2.html", "<a href=3.html> <a href=gone.html>")%string ∈ example_directory
  ∧ ends_with ".html" "2.html" = true
  ∧ ∃ links,
      dict_get "2.html"%string (crawled example_findall example_directory)
      = Some links
      ∧ "3.html"%string ∈ links ∧ "gone.html"%string ∉ links.
Proof.
  assert ((crawl example_findall example_directory (init_world [] zero_entropy)).1
          = Ok (crawled example_findall example_directory)) as Hrun
    by (by rewrite crawl_run by exact example_directory_NoDup).
  assert (("2.html", "<a href=3.html> <a href=gone.html>")%string
          ∈ example_directory) as Hin by by_evaluation.
  split_and!; [exact example_directory_NoDup|exact Hrun|exact Hin|reflexivity|].
  destruct (crawl_links example_findall example_directory
              (init_world [] zero_entropy) _ _ _
              example_directory_NoDup Hrun Hin eq_refl) as (links & Hget & Hlinks).
  exists links. split; [exact Hget|]. split.
  - apply Hlinks. split_and!; [by_evaluation|done|by_evaluation].
  - intros Hgone. apply (Hlinks "gone.html"%string) in Hgone.
    destruct Hgone as (_ & _ & Hkey). revert Hkey. by_evaluation.
Defined.

(** ** The transition model *)

Lemma transition_model_found w page d links :
  dict_get page (corpus_obj w) = Some links →
  ∃ dist, transition_model page d w = (Ok dist, w).
Proof.
  intros Hget. unfold transition_model.
  erewrite bind_Ok by (unfold corpus_getitem; by rewrite Hget).
  erewrite bind_Ok by done.
  assert (length (corpus_obj w) ≠ 0%nat) as Hlen.
  { apply dict_get_Some_elem in Hget. destruct (corpus_obj w); [|done].
    by apply elem_of_nil in Hget. }
  erewrite bind_Ok
    by (unfold py_div; rewrite decide_False by (by apply Qc_of_nat_ne_0); done).
  assert (∃ b a,
    ∀ X (f : Qc * Qc → M X),
      bind (if negb (bool_decide (size links = 0%nat))
            then inv <- py_div 1 (Qc_of_nat (size links)) ;;
                 ret (1 / Qc_of_nat (length (corpus_obj w)) * (1 - d), inv * d)
            else ret (1 / Qc_of_nat (length (corpus_obj w)), 0)) f w
      = f (b, a) w) as (b & a & ->).
  { case_bool_decide as Hk; simpl.
    - by exists (1 / Qc_of_nat (length (corpus_obj w))), 0.
    - eexists _, _. intros X f. unfold bind at 1 2, py_div.
      rewrite decide_False by (by apply Qc_of_nat_ne_0). done. }
  erewrite bind_Ok by done. eexists.
  apply (for_each_pure _ _ (transition_step links b a) (λ _, True)); [done|].
  intros pd q _ _. split; [|done]. unfold transition_step.
  case_bool_decide; [|done].
  unfold dict_getitem. rewrite dict_get_set_eq. done.
Qed.

(** X5: [transition_model] returns a mapping when the page is a key of
    the corpus and raises [KeyError] when it is not, the empty corpus
    included: the lookup [corpus[page]] comes before the division by
    [len(corpus)], which therefore never fails. *)
Theorem transition_model_key_error (w : world) (page : Page) (d : Qc) :
  (page ∈ dict_keys (corpus_obj w) →
   ∃ dist, transition_model page d w = (Ok dist, w))
  ∧ (page ∉ dict_keys (corpus_obj w) →
     transition_model page d w = (Raise KeyError, w))
  ∧ (transition_model page d w).1 ≠ Raise ZeroDivisionError.
Proof.
  assert (page ∈ dict_keys (corpus_obj w) →
          ∃ dist, transition_model page d w = (Ok dist, w)) as Hin.
  { intros [links Hget]%dict_get_is_Some. by eapply transition_model_found. }
  assert (page ∉ dict_keys (corpus_obj w) →
          transition_model page d w = (Raise KeyError, w)) as Hout.
  { intros Hnone%dict_get_None. unfold transition_model.
    erewrite bind_Raise; [done|]. unfold corpus_getitem. by rewrite Hnone. }
  split_and!; [done..|].
  destruct (decide (page ∈ dict_keys (corpus_obj w))) as [Hkey|Hkey].
  - destruct (Hin Hkey) as [dist ->]. done.
  - by rewrite (Hout Hkey).
Qed.

Lemma transition_model_key_error_witness :
  (∃ dist, transition_model "A" d85 (init_world corpus3 zero_entropy)
           = (Ok dist, init_world corpus3 zero_entropy))
  ∧ transition_model "Z" d85 (init_world corpus3 zero_entropy)
    = (Raise KeyError, init_world corpus3 zero_entropy)
  ∧ transition_model "A" d85 (init_world [] zero_entropy)
    = (Raise KeyError, init_world [] zero_entropy).
Proof.
  split_and!.
  - apply (transition_model_key_error (init_world corpus3 zero_entropy) "A" d85).
    by_evaluation.
  - apply (transition_model_key_error (init_world corpus3 zero_entropy) "Z" d85).
    by_evaluation.
  - apply (transition_model_key_error (init_world [] zero_entropy) "A" d85).
    apply not_elem_of_nil.
Defined.

Lemma Qc_inv_nat_le_1 n : (0 < n)%nat → 1 / Qc_of_nat n ≤ 1.
Proof.
  intros Hn. pose proof (Qc_of_nat_pos n Hn) as Hpos.
  apply (Qcmult_le_mono_pos_r _ _ (Qc_of_nat n) Hpos).
  unfold Qcdiv. rewrite <- Qcmult_assoc, Qcmult_inv_l, !Qcmult_1_l.
  - destruct n as [|n]; [lia|]. rewrite Qc_of_nat_S.
    rewrite <- (Qcplus_0_r 1) at 1. apply Qcplus_le_mono_l, Qc_of_nat_nonneg.
  - intros Heq. rewrite Heq in Hpos. by apply Qclt_not_eq in Hpos.
Qed.

Lemma Qc_one_minus_le d : 0 ≤ d → 1 - d ≤ 1.
Proof.
  intros Hd. apply (Qcplus_le_mono_r _ _ d).
  replace (1 - d + d) with (1 + 0) by ring.
  by apply (proj1 (Qcplus_le_mono_l _ _ _)).
Qed.

Lemma transition_entry_range n (links : gset Page) d q :
  (0 < n)%nat → 0 < d < 1 →
  0 < (transition_entry n links d q).2 ≤ 1.
Proof.
  intros Hn Hd. pose proof (base_probability_pos n (size links) d Hn Hd) as Hb.
  pose proof (additional_probability_nonneg (size links) d
                (Qclt_le_weak _ _ (proj1 Hd))) as Ha.
  pose proof (Qc_inv_nat_le_1 n Hn) as Hinv.
  destruct Hd as [Hd0 Hd1].
  assert (0 ≤ 1 - d) as Hd1'.
  { apply (Qcplus_le_mono_r _ _ d). ring_simplify. by apply Qclt_le_weak. }
  unfold transition_entry. cbn [snd].
  assert (base_probability n (size links) d ≤ 1 - d
          ∨ size links = 0%nat ∧ base_probability n (size links) d ≤ 1) as Hbase.
  { unfold base_probability. case_bool_decide; [by right|]. left.
    rewrite <- (Qcmult_1_l (1 - d)) at 2. by apply Qcmult_le_mono_nonneg_r. }
  assert (additional_probability (size links) d ≤ d
          ∧ (size links = 0%nat → additional_probability (size links) d = 0)) as Hadd.
  { unfold additional_probability. case_bool_decide as Hk; [split; [|done]|split; [|done]].
    - by apply Qclt_le_weak.
    - rewrite <- (Qcmult_1_l d) at 2. apply Qcmult_le_mono_nonneg_r.
      + by apply Qclt_le_weak.
      + apply Qc_inv_nat_le_1. lia. }
  case_bool_decide.
  - split; [by apply Qcplus_pos_nonneg|].
    destruct Hbase as [Hbase|[Hk Hbase]].
    + replace 1 with ((1 - d) + d) by ring.
      apply Qcplus_le_compat; [done|apply Hadd].
    + rewrite (proj2 Hadd Hk), Qcplus_0_r. done.
  - split; [done|]. destruct Hbase as [Hbase|[_ Hbase]]; [|done].
    etrans; [exact Hbase|]. by apply Qc_one_minus_le, Qclt_le_weak.
Qed.

(** X6: for a damping factor in (0,1), every value [transition_model]
    returns is a probability greater than 0: from any page the surfer can
    reach every page of the corpus in one step. *)
Theorem transition_model_positive (w : world) (page : Page) (d : Qc)
    (dist : Distribution) :
  dict_wf (corpus_obj w) →
  0 < d < 1 →
  (transition_model page d w).1 = Ok dist →
  ∀ q, q ∈ dict_keys (corpus_obj w) → ∃ v, dict_get q dist = Some v ∧ 0 < v ≤ 1.
Proof.
  intros Hwf Hd Hrun q Hq.
  destruct (decide (page ∈ dict_keys (corpus_obj w))) as [Hpage|Hpage].
  - apply dict_get_is_Some in Hpage as [links Hlinks].
    rewrite (transition_model_run w page d links Hwf Hlinks) in Hrun.
    injection Hrun as <-. eexists. split; [by apply dict_get_fmap_keys|].
    apply transition_entry_range; [|done].
    rewrite <- length_dict_keys.
    destruct (dict_keys (corpus_obj w)); [by apply elem_of_nil in Hq|simpl; lia].
  - apply dict_get_None in Hpage. unfold transition_model in Hrun.
    erewrite bind_Raise in Hrun; [done|]. unfold corpus_getitem. by rewrite Hpage.
Qed.

Lemma transition_model_positive_witness :
  dict_wf corpus3 ∧ 0 < d85 < 1
  ∧ ∃ dist,
      (transition_model "C" d85 (init_world corpus3 zero_entropy)).1 = Ok dist
      ∧ ∃ v, dict_get "B"%string dist = Some v ∧ 0 < v ≤ 1.
Proof.
  assert (dict_wf corpus3) as Hwf by by_evaluation.
  assert (0 < d85 < 1) as Hd by (split; reflexivity).
  split_and!; [exact Hwf|apply Hd..|].
  destruct (transition_model_found (init_world corpus3 zero_entropy) "C" d85
              {["A"]}%string) as [dist Hrun]; [by_evaluation|].
  exists dist. split; [by rewrite Hrun|].
  apply (transition_model_positive (init_world corpus3 zero_entropy) "C" d85 dist
           Hwf Hd).
  - by rewrite Hrun.
  - by_evaluation.
Defined.

Lemma size_list_to_set_keys (c : Corpus) :
  dict_wf c → size (list_to_set (dict_keys c) : gset Page) = length c.
Proof.
  intros Hwf. rewrite size_list_to_set by done. apply length_dict_keys.
Qed.

Lemma length_normalized c : length (normalized c) = length c.
Proof. unfold normalized. by rewrite length_fmap. Qed.

(** The entries of the transition model do not see the preprocessing of
    the solver. *)
Lemma transition_entry_fix_links (c : Corpus) (links : gset Page) d q :
  dict_wf c → q ∈ dict_keys c →
  transition_entry (length c) (fix_links (list_to_set (dict_keys c)) links) d q
  = transition_entry (length c) links d q.
Proof.
  intros Hwf Hq. unfold fix_links. case_bool_decide as Hempty; [|done].
  subst links. unfold transition_entry. f_equal.
  rewrite size_list_to_set_keys, size_empty by done.
  rewrite bool_decide_eq_true_2 by (by apply elem_of_list_to_set).
  rewrite bool_decide_eq_false_2 by (apply not_elem_of_empty).
  assert (length c ≠ 0%nat) as Hlen.
  { rewrite <- length_dict_keys.
    destruct (dict_keys c); [by apply elem_of_nil in Hq|done]. }
  unfold base_probability, additional_probability.
  rewrite bool_decide_eq_false_2 by done.
  rewrite bool_decide_eq_true_2 by done.
  apply Qc_of_nat_ne_0 in Hlen. field. done.
Qed.

Lemma transition_model_normalized c page d e k e' k' :
  dict_wf c →
  (transition_model page d (World (normalized c) e k)).1
  = (transition_model page d (World c e' k')).1.
Proof.
  intros Hwf.
  destruct (dict_get page c) as [links|] eqn:Hget.
  - rewrite (transition_model_run (World c e' k') page d links Hwf Hget).
    rewrite (transition_model_run (World (normalized c) e k) page d
               (fix_links (list_to_set (dict_keys c)) links)).
    + cbn [corpus_obj fst]. f_equal.
      rewrite length_normalized, dict_keys_normalized.
      apply list_fmap_ext. intros i q Hq.
      apply transition_entry_fix_links; [done|]. by eapply list_elem_of_lookup_2.
    + cbn [corpus_obj]. unfold dict_wf. by rewrite dict_keys_normalized.
    + cbn [corpus_obj]. by rewrite dict_get_normalized, Hget.
  - assert (∀ w, dict_get page (corpus_obj w) = None →
              (transition_model page d w).1 = Raise KeyError) as Hmissing.
    { intros w Hnone. unfold transition_model.
      erewrite bind_Raise; [done|]. unfold corpus_getitem. by rewrite Hnone. }
    rewrite !Hmissing; [done..|].
    cbn [corpus_obj]. by rewrite dict_get_normalized, Hget.
Qed.

(** X7: the preprocessing of the solver does not change the transition
    model: on the corpus [iterate_pagerank] leaves behind,
    [transition_model] has the outcome it has on the original corpus (a
    page without links jumps to each of the N pages with probability 1/N
    either way). *)
Theorem transition_model_after_dangling_fix (w : world) (page : Page) (d : Qc) :
  dict_wf (corpus_obj w) →
  (transition_model page d (dangling_fix w).2).1 = (transition_model page d w).1.
Proof.
  intros Hwf. rewrite dangling_fix_run by done. cbn [snd].
  destruct w as [c e k]. by apply transition_model_normalized.
Qed.

Lemma transition_model_after_dangling_fix_witness :
  dict_wf dangling2
  ∧ (transition_model "A" d85 (dangling_fix (init_world dangling2 zero_entropy)).2).1
    = (transition_model "A" d85 (init_world dangling2 zero_entropy)).1.
Proof.
  assert (dict_wf dangling2) as Hwf by by_evaluation.
  split; [exact Hwf|].
  exact (transition_model_after_dangling_fix (init_world dangling2 zero_entropy)
           "A" d85 Hwf).
Defined.

(** ** The iterative solver *)

Lemma dict_ext {V} (a b : dict Page V) :
  dict_wf a → dict_keys a = dict_keys b →
  (∀ k v, (k, v) ∈ a → dict_get k b = Some v) →
  a = b.
Proof.
  revert b. induction a as [|[k v] a IH]; intros [|[k' v'] b] Hwf Hkeys Hget;
    try done.
  injection Hkeys as <- Hkeys. apply NoDup_cons in Hwf as [Hk Hwf].
  pose proof (Hget k v ltac:(left)) as Hhead. simpl in Hhead.
  rewrite decide_True in Hhead by done. injection Hhead as <-.
  f_equal. apply IH; [done..|].
  intros k2 v2 Hin. specialize (Hget k2 v2 ltac:(by right)). simpl in Hget.
  rewrite decide_False in Hget; [done|].
  intros ->. apply Hk. apply list_elem_of_fmap. by exists (k, v2).
Qed.

Lemma dict_eqb_eq {V} `{EqDecision V} (a b : dict Page V) :
  dict_wf a → dict_keys a = dict_keys b → dict_eqb a b = true → a = b.
Proof.
  intros Hwf Hkeys [_ Hall]%andb_prop. apply dict_ext; [done..|].
  intros k v Hin. rewrite forallb_forall in Hall.
  apply list_elem_of_In in Hin. by apply Hall, bool_decide_eq_true_1 in Hin.
Qed.

(** What the [while] loop can end in: it never raises, it leaves the
    world alone, and a mapping it returns after at least one sweep is
    left unchanged by one more sweep. *)
Lemma while_loop_outcome fuel d pd prior w :
  dict_wf (corpus_obj w) →
  dict_keys pd = dict_keys (corpus_obj w) →
  match (while_loop fuel d pd prior w).1 with
  | Ok ranks =>
      dict_keys ranks = dict_keys (corpus_obj w)
      ∧ (ranks = pd ∧ dict_eqb pd prior = true ∨ sweep d ranks w = (Ok ranks, w))
  | Raise _ => False
  | OutOfFuel => True
  end.
Proof.
  intros Hwf. revert pd prior.
  induction fuel as [|fuel IH]; intros pd prior Hkeys; simpl.
  - destruct (dict_eqb pd prior) eqn:Heq; simpl; [|done]. split; [done|by left].
  - destruct (dict_eqb pd prior) eqn:Heq; simpl; [split; [done|by left]|].
    destruct (sweep_in_place w d pd Hwf Hkeys) as (next & Hrun & Hnext & _).
    rewrite (bind_Ok _ _ _ _ _ Hrun).
    specialize (IH next pd Hnext).
    destruct (while_loop fuel d next pd w) as [[ranks| |] w']; simpl in *; [|done..].
    destruct IH as [Hranks [[-> Hsame]|Hfixed]]; (split; [done|]); [|by right].
    right. apply dict_eqb_eq in Hsame.
    + by rewrite Hsame in *.
    + unfold dict_wf. by rewrite Hnext.
    + by rewrite Hnext, Hkeys.
Qed.

Lemma dict_wf_normalized c : dict_wf c → dict_wf (normalized c).
Proof. unfold dict_wf. by rewrite dict_keys_normalized. Qed.

Lemma dict_keys_uniform c : dict_keys (uniform c) = dict_keys c.
Proof. by apply dict_keys_fmap_keys. Qed.

Lemma iterate_pagerank_outcome fuel d w :
  dict_wf (corpus_obj w) →
  (iterate_pagerank fuel d w).2
  = World (normalized (corpus_obj w)) (entropy w) (cursor w)
  ∧ match (iterate_pagerank fuel d w).1 with
    | Ok ranks =>
        dict_keys ranks = dict_keys (corpus_obj w)
        ∧ sweep d ranks (iterate_pagerank fuel d w).2
          = (Ok ranks, (iterate_pagerank fuel d w).2)
    | Raise _ => False
    | OutOfFuel => True
    end.
Proof.
  intros Hwf. rewrite iterate_pagerank_run by done.
  set (w' := World (normalized (corpus_obj w)) (entropy w) (cursor w)).
  pose proof (while_loop_outcome fuel d (uniform (corpus_obj w)) [] w') as Hout.
  pose proof (read_only_while_loop fuel d (uniform (corpus_obj w)) [] w') as Hro.
  cbn [corpus_obj w'] in Hout. rewrite dict_keys_normalized in Hout.
  specialize (Hout (dict_wf_normalized _ Hwf) (dict_keys_uniform _)).
  destruct (while_loop fuel d (uniform (corpus_obj w)) [] w') as [o w''].
  simpl in Hro. subst w''. split; [done|]. cbn [fst snd] in *.
  destruct o as [ranks| |]; [|done..].
  destruct Hout as [Hkeys [[-> Hnil]|Hfixed]]; (split; [done|]); [|done].
  apply dict_eqb_nil_r in Hnil. rewrite Hnil.
  assert (dict_keys (normalized (corpus_obj w)) = []) as Hempty.
  { by rewrite dict_keys_normalized, <- dict_keys_uniform, Hnil. }
  unfold sweep. erewrite bind_Ok by done. cbn [corpus_obj w']. by rewrite Hempty.
Qed.

(** X8: on a corpus whose keys are unique, [iterate_pagerank] raises no
    exception, whatever the damping factor and the links: no lookup
    misses and no division is by zero. *)
Theorem iterate_pagerank_no_exception (fuel : nat) (d : Qc) (w : world) (e : exn) :
  dict_wf (corpus_obj w) →
  (iterate_pagerank fuel d w).1 ≠ Raise e.
Proof.
  intros Hwf Hraise.
  destruct (iterate_pagerank_outcome fuel d w Hwf) as [_ Hout].
  by rewrite Hraise in Hout.
Qed.

Lemma iterate_pagerank_no_exception_witness :
  dict_wf dangling2
  ∧ (iterate_pagerank 3 d85 (init_world dangling2 zero_entropy)).1
    ≠ Raise ZeroDivisionError.
Proof.
  assert (dict_wf dangling2) as Hwf by by_evaluation.
  split; [exact Hwf|].
  exact (iterate_pagerank_no_exception 3 d85 (init_world dangling2 zero_entropy)
           ZeroDivisionError Hwf).
Defined.

(** X9: the mapping [iterate_pagerank] returns has exactly the pages of
    the corpus as keys, in the order of the corpus. *)
Theorem iterate_pagerank_covers_corpus (fuel : nat) (d : Qc) (w : world)
    (ranks : Distribution) :
  dict_wf (corpus_obj w) →
  (iterate_pagerank fuel d w).1 = Ok ranks →
  dict_keys ranks = dict_keys (corpus_obj w).
Proof.
  intros Hwf Hrun.
  destruct (iterate_pagerank_outcome fuel d w Hwf) as [_ Hout].
  rewrite Hrun in Hout. by destruct Hout.
Qed.

Lemma iterate_pagerank_cycle3_10 :
  (iterate_pagerank 10 d85 (init_world cycle3 zero_entropy)).1 = Ok cycle3_ranks.
Proof. by_evaluation. Qed.

Lemma iterate_pagerank_covers_corpus_witness :
  dict_wf cycle3
  ∧ (iterate_pagerank 10 d85 (init_world cycle3 zero_entropy)).1 = Ok cycle3_ranks
  ∧ dict_keys cycle3_ranks = dict_keys cycle3.
Proof.
  assert (dict_wf cycle3) as Hwf by by_evaluation.
  split_and!; [exact Hwf|exact iterate_pagerank_cycle3_10|].
  exact (iterate_pagerank_covers_corpus 10 d85 (init_world cycle3 zero_entropy)
           cycle3_ranks Hwf iterate_pagerank_cycle3_10).
Defined.

(** X10: the mapping [iterate_pagerank] returns is a fixed point: one
    more sweep over the normalized corpus returns it again, and the rank
    of every page is the PageRank recurrence, rounded to five decimals,
    applied to the returned ranks themselves. *)
Theorem iterate_pagerank_fixed_point (fuel : nat) (d : Qc) (w : world)
    (ranks : Distribution) :
  dict_wf (corpus_obj w) →
  (iterate_pagerank fuel d w).1 = Ok ranks →
  let w' := (iterate_pagerank fuel d w).2 in
  sweep d ranks w' = (Ok ranks, w')
  ∧ ∀ page, page ∈ dict_keys (corpus_obj w) →
      dict_get page ranks
      = Some (py_round (rank_formula (corpus_obj w') d (rank_of ranks) page) 5).
Proof.
  intros Hwf Hrun w'.
  destruct (iterate_pagerank_outcome fuel d w Hwf) as [Hw' Hout].
  rewrite Hrun in Hout. destruct Hout as [Hkeys Hfixed].
  fold w' in Hfixed, Hw'. split; [done|].
  assert (dict_wf (corpus_obj w')) as Hwf'.
  { rewrite Hw'. cbn [corpus_obj]. by apply dict_wf_normalized. }
  assert (dict_keys ranks = dict_keys (corpus_obj w')) as Hkeys'.
  { rewrite Hw'. cbn [corpus_obj]. by rewrite dict_keys_normalized. }
  destruct (sweep_in_place w' d ranks Hwf' Hkeys') as (next & Hnext & _ & Hval).
  rewrite Hfixed in Hnext. injection Hnext as <-.
  intros page [i Hi]%list_elem_of_lookup.
  rewrite <- Hkeys, Hkeys' in Hi. specialize (Hval i page Hi).
  rewrite take_drop in Hval.
  apply dict_get_elem; [unfold dict_wf; by rewrite Hkeys|].
  by eapply list_elem_of_lookup_2.
Qed.

Lemma iterate_pagerank_fixed_point_witness :
  dict_wf cycle3
  ∧ (iterate_pagerank 10 d85 (init_world cycle3 zero_entropy)).1 = Ok cycle3_ranks
  ∧ sweep d85 cycle3_ranks (iterate_pagerank 10 d85 (init_world cycle3 zero_entropy)).2
    = (Ok cycle3_ranks, (iterate_pagerank 10 d85 (init_world cycle3 zero_entropy)).2).
Proof.
  assert (dict_wf cycle3) as Hwf by by_evaluation.
  split_and!; [exact Hwf|exact iterate_pagerank_cycle3_10|].
  apply (iterate_pagerank_fixed_point 10 d85 (init_world cycle3 zero_entropy)
           cycle3_ranks Hwf iterate_pagerank_cycle3_10).
Defined.

Lemma sweep_as_in_place w d prior :
  dict_wf (corpus_obj w) →
  dict_keys prior = dict_keys (corpus_obj w) →
  sweep d prior w
  = (Ok (in_place (λ pd p, py_round (rank_formula (corpus_obj w) d (rank_of pd) p) 5)
           [] prior), w).
Proof.
  intros Hwf Hkeys. destruct (sweep_run w d prior Hwf Hkeys) as [Hrun _].
  rewrite Hrun. f_equal. f_equal. rewrite <- Hkeys.
  apply (foldl_in_place
           (λ pd p, py_round (rank_formula (corpus_obj w) d (rank_of pd) p) 5)
           [] prior).
  unfold dict_wf. simpl. by rewrite Hkeys.
Qed.

(** A property of the values that every update preserves holds for all
    values after the updates in place. *)
Lemma in_place_Forall {V} (P : V → Prop) (val : dict Page V → Page → V)
    (rest past : dict Page V) :
  (∀ pd p, Forall P (dict_values pd) → P (val pd p)) →
  Forall P (dict_values past) → Forall P (dict_values rest) →
  Forall P (dict_values (in_place val past rest)).
Proof.
  intros Hval. revert past.
  induction rest as [|[p old] rest IH]; intros past Hpast Hrest; simpl; [done|].
  apply Forall_cons in Hrest as [Hold Hrest].
  apply IH; [|done]. unfold dict_values. rewrite fmap_app. apply Forall_app.
  split; [done|]. apply Forall_singleton. apply Hval.
  unfold dict_values. rewrite fmap_app. apply Forall_app. split; [done|].
  by apply Forall_cons.
Qed.

Lemma round_half_even_nonneg q : (0 <= q)%Q → (0 ≤ round_half_even q)%Z.
Proof.
  intros Hq. unfold round_half_even.
  assert (0 ≤ Qfloor q)%Z as Hfloor.
  { change 0%Z with (Qfloor 0). by apply Qfloor_resp_le. }
  destruct (_ ?= _)%Q; [destruct (Z.even _)|..]; lia.
Qed.

Lemma py_round_nonneg x n : 0 ≤ x → 0 ≤ py_round x n.
Proof.
  intros Hx.
  assert (0 ≤ round_half_even (this x * inject_Z (10 ^ Z.of_nat n)))%Z as Hz.
  { apply round_half_even_nonneg. apply Qmult_le_0_compat; [exact Hx|].
    change 0%Q with (inject_Z 0). rewrite <- Zle_Qle. apply Z.pow_nonneg. lia. }
  unfold py_round. revert Hz.
  generalize (round_half_even (this x * inject_Z (10 ^ Z.of_nat n))).
  generalize (Z.to_pos (10 ^ Z.of_nat n)). intros p z Hz.
  unfold Qcle. cbn [this Q2Qc].
  setoid_replace (Qred (z # p)) with (z # p) using relation Qeq
    by apply Qred_correct.
  unfold Qle. simpl. lia.
Qed.

Lemma Qc_sum_nonneg l : Forall (λ v, 0 ≤ v) l → 0 ≤ Qc_sum l.
Proof.
  induction 1 as [|x l Hx Hl IH]; [done|].
  rewrite Qc_sum_cons. by apply Qcplus_nonneg_nonneg.
Qed.

Lemma Qc_div_nat_nonneg x n : 0 ≤ x → 0 ≤ x / Qc_of_nat n.
Proof.
  intros Hx. unfold Qcdiv. apply Qcmult_nonneg_nonneg; [done|].
  destruct n as [|n]; [by rewrite Qc_of_nat_0|].
  apply Qclt_le_weak, Qcinv_pos, Qc_of_nat_pos. lia.
Qed.

Lemma rank_of_nonneg (pd : Distribution) q :
  Forall (λ v, 0 ≤ v) (dict_values pd) → 0 ≤ rank_of pd q.
Proof.
  intros Hpd. unfold rank_of. destruct (dict_get q pd) as [v|] eqn:Hget; [|done].
  simpl. apply dict_get_Some_elem in Hget.
  eapply Forall_forall in Hpd; [exact Hpd|].
  apply list_elem_of_fmap. by exists (q, v).
Qed.

Lemma rank_formula_nonneg c d rank page :
  0 ≤ d ≤ 1 → (∀ q, 0 ≤ rank q) → 0 ≤ rank_formula c d rank page.
Proof.
  intros [Hd0 Hd1] Hrank. unfold rank_formula, link_sum.
  apply Qcplus_nonneg_nonneg.
  - apply Qc_div_nat_nonneg. apply (Qcplus_le_mono_r _ _ d).
    replace (1 - d + d) with 1 by ring. by rewrite Qcplus_0_l.
  - apply Qcmult_nonneg_nonneg; [done|]. apply Qc_sum_nonneg.
    apply Forall_fmap, Forall_true. intros kv. simpl.
    by apply Qc_div_nat_nonneg.
Qed.

(** A property of distributions that the start of the loop has and that
    every sweep preserves holds for the mapping the loop returns. *)
Lemma while_loop_invariant (P : Distribution → Prop) fuel d pd prior w ranks :
  dict_wf (corpus_obj w) →
  (∀ pd next, dict_keys pd = dict_keys (corpus_obj w) → P pd →
              sweep d pd w = (Ok next, w) → P next) →
  dict_keys pd = dict_keys (corpus_obj w) →
  P pd →
  (while_loop fuel d pd prior w).1 = Ok ranks →
  P ranks.
Proof.
  intros Hwf Hstep. revert pd prior.
  induction fuel as [|fuel IH]; intros pd prior Hkeys Hpd; simpl.
  - destruct (dict_eqb pd prior); simpl; [|done]. by intros [= <-].
  - destruct (dict_eqb pd prior); simpl; [by intros [= <-]|].
    destruct (sweep_in_place w d pd Hwf Hkeys) as (next & Hrun & Hnext & _).
    rewrite (bind_Ok _ _ _ _ _ Hrun). apply IH; [done|].
    exact (Hstep pd next Hkeys Hpd Hrun).
Qed.

(** X11: for a damping factor between 0 and 1, no rank
    [iterate_pagerank] returns is negative. *)
Theorem iterate_pagerank_nonnegative (fuel : nat) (d : Qc) (w : world)
    (ranks : Distribution) :
  dict_wf (corpus_obj w) →
  0 ≤ d ≤ 1 →
  (iterate_pagerank fuel d w).1 = Ok ranks →
  ∀ page v, dict_get page ranks = Some v → 0 ≤ v.
Proof.
  intros Hwf Hd Hrun page v Hget.
  rewrite iterate_pagerank_run in Hrun by done.
  apply (while_loop_invariant (λ pd, Forall (λ v, 0 ≤ v) (dict_values pd))) in Hrun.
  - apply dict_get_Some_elem in Hget.
    eapply Forall_forall in Hrun; [exact Hrun|].
    apply list_elem_of_fmap. by exists (page, v).
  - cbn [corpus_obj]. by apply dict_wf_normalized.
  - intros pd next Hkeys Hpd Hsweep.
    rewrite sweep_as_in_place in Hsweep; [|by apply dict_wf_normalized|done].
    injection Hsweep as <-. apply in_place_Forall; [|done..].
    intros pd' p Hpd'. apply py_round_nonneg, rank_formula_nonneg; [done|].
    intros q. by apply rank_of_nonneg.
  - cbn [corpus_obj]. by rewrite dict_keys_normalized, dict_keys_uniform.
  - unfold uniform, dict_values. rewrite <- list_fmap_compose.
    apply Forall_fmap, Forall_true. intros q. simpl.
    by apply Qc_div_nat_nonneg.
Qed.

Lemma iterate_pagerank_nonnegative_witness :
  dict_wf cycle3 ∧ 0 ≤ d85 ≤ 1
  ∧ (iterate_pagerank 10 d85 (init_world cycle3 zero_entropy)).1 = Ok cycle3_ranks
  ∧ dict_get "B"%string cycle3_ranks = Some (Q2Qc (33333 # 100000))
  ∧ 0 ≤ Q2Qc (33333 # 100000).
Proof.
  assert (dict_wf cycle3) as Hwf by by_evaluation.
  assert (0 ≤ d85 ≤ 1) as Hd by (split; discriminate).
  assert (dict_get "B"%string cycle3_ranks = Some (Q2Qc (33333 # 100000))) as Hget
    by by_evaluation.
  split_and!; [exact Hwf|apply Hd..|exact iterate_pagerank_cycle3_10|exact Hget|].
  exact (iterate_pagerank_nonnegative 10 d85 (init_world cycle3 zero_entropy)
           cycle3_ranks Hwf Hd iterate_pagerank_cycle3_10 "B"%string _ Hget).
Defined.

Lemma normalized_no_empty c page links :
  dict_get page (normalized c) = Some links → links ≠ ∅.
Proof.
  rewrite dict_get_normalized. intros (old & Hold & ->)%fmap_Some.
  unfold fix_links. case_bool_decide as Hempty; [|done].
  intros Hall. assert (page ∈ (∅ : gset Page)) as Hin; [|by apply elem_of_empty in Hin].
  rewrite <- Hall. apply elem_of_list_to_set, dict_get_is_Some. by rewrite Hold.
Qed.

Lemma normalized_closed c : corpus_closed c → corpus_closed (normalized c).
Proof.
  intros Hclosed page links Hget q Hq. rewrite dict_keys_normalized.
  rewrite dict_get_normalized in Hget. apply fmap_Some in Hget as (old & Hold & ->).
  unfold fix_links in Hq. case_bool_decide.
  - by apply elem_of_list_to_set in Hq.
  - by apply (Hclosed page old).
Qed.

(** X12: in the corpus [iterate_pagerank] leaves behind, whether it
    returned or ran out of sweeps, no page is without links, and every
    link still leads to a page of the corpus if that held before. *)
Theorem iterate_pagerank_leaves_no_dangling_page (fuel : nat) (d : Qc) (w : world) :
  dict_wf (corpus_obj w) →
  let c' := corpus_obj (iterate_pagerank fuel d w).2 in
  (∀ page links, dict_get page c' = Some links → links ≠ ∅)
  ∧ (corpus_closed (corpus_obj w) → corpus_closed c').
Proof.
  intros Hwf c'.
  assert (c' = normalized (corpus_obj w)) as ->.
  { unfold c'. by rewrite (proj1 (iterate_pagerank_outcome fuel d w Hwf)). }
  split; [apply normalized_no_empty|apply normalized_closed].
Qed.

Lemma iterate_pagerank_leaves_no_dangling_page_witness :
  dict_wf dangling2
  ∧ dict_get "A"%string dangling2 = Some ∅
  ∧ ∀ links,
      dict_get "A"%string
        (corpus_obj (iterate_pagerank 0 d85 (init_world dangling2 zero_entropy)).2)
      = Some links →
      links ≠ ∅.
Proof.
  assert (dict_wf dangling2) as Hwf by by_evaluation.
  split_and!; [exact Hwf|reflexivity|].
  apply (iterate_pagerank_leaves_no_dangling_page 0 d85
           (init_world dangling2 zero_entropy) Hwf).
Defined.

(** *** How far the returned ranks are from summing to 1 *)

Lemma round_half_even_error q :
  (inject_Z (round_half_even q) - q <= 1 # 2)%Q
  ∧ (q - inject_Z (round_half_even q) <= 1 # 2)%Q.
Proof.
  unfold round_half_even.
  pose proof (Qfloor_le q) as Hlo. pose proof (Qlt_floor q) as Hhi.
  rewrite inject_Z_plus in Hhi. change (inject_Z 1) with 1%Q in Hhi.
  destruct (q - inject_Z (Qfloor q) ?= 1 # 2)%Q eqn:Hcmp.
  - apply Qeq_alt in Hcmp. destruct (Z.even (Qfloor q)).
    + split; lra.
    + rewrite inject_Z_plus. change (inject_Z 1) with 1%Q. split; lra.
  - apply Qlt_alt in Hcmp. split; lra.
  - apply Qgt_alt in Hcmp. rewrite inject_Z_plus. change (inject_Z 1) with 1%Q.
    split; lra.
Qed.

(** Rounding to five decimals moves a number by at most half of 10^-5. *)
Lemma py_round_error x :
  py_round x 5 ≤ x + Q2Qc (1 # 200000) ∧ x ≤ py_round x 5 + Q2Qc (1 # 200000).
Proof.
  destruct (round_half_even_error (this x * inject_Z (10 ^ Z.of_nat 5)))
    as [Hup Hdown].
  unfold py_round. revert Hup Hdown.
  generalize (round_half_even (this x * inject_Z (10 ^ Z.of_nat 5))). intros z.
  change (Z.to_pos (10 ^ Z.of_nat 5)) with 100000%positive.
  change (inject_Z (10 ^ Z.of_nat 5)) with (100000 # 1)%Q.
  intros Hup Hdown.
  assert (z # 100000 == inject_Z z * (1 # 100000))%Q as Hz.
  { unfold Qeq. simpl. lia. }
  unfold Qcle, Qcplus. cbn [this Q2Qc]. rewrite !Qred_correct, Hz.
  split; lra.
Qed.

Lemma Qc_sum_fmap_plus {A} (a b : A → Qc) (l : list A) :
  Qc_sum ((λ x, a x + b x) <$> l) = Qc_sum (a <$> l) + Qc_sum (b <$> l).
Proof.
  induction l as [|x l IH]; [done|].
  rewrite !fmap_cons, !Qc_sum_cons, IH. ring.
Qed.

Lemma Qc_sum_fmap_scale {A} (c : Qc) (a : A → Qc) (l : list A) :
  Qc_sum ((λ x, c * a x) <$> l) = c * Qc_sum (a <$> l).
Proof.
  induction l as [|x l IH]; [simpl; ring|].
  rewrite !fmap_cons, !Qc_sum_cons, IH. ring.
Qed.

Lemma Qc_sum_fmap_const {A} (c : Qc) (l : list A) :
  Qc_sum ((λ _, c) <$> l) = Qc_of_nat (length l) * c.
Proof.
  induction l as [|x l IH]; [simpl; rewrite Qc_of_nat_0; ring|].
  rewrite fmap_cons, Qc_sum_cons, IH, length_cons, Qc_of_nat_S. ring.
Qed.

Lemma Qc_sum_fmap_le {A} (a b : A → Qc) (l : list A) :
  (∀ x, x ∈ l → a x ≤ b x) → Qc_sum (a <$> l) ≤ Qc_sum (b <$> l).
Proof.
  induction l as [|x l IH]; intros Hle; [done|].
  rewrite !fmap_cons, !Qc_sum_cons. apply Qcplus_le_compat.
  - apply Hle. left.
  - apply IH. intros y Hy. apply Hle. by right.
Qed.

Lemma Qc_sum_fmap_ext {A} (a b : A → Qc) (l : list A) :
  (∀ x, x ∈ l → a x = b x) → Qc_sum (a <$> l) = Qc_sum (b <$> l).
Proof.
  intros Hext. f_equal. apply list_fmap_ext. intros i x Hx.
  apply Hext. by eapply list_elem_of_lookup_2.
Qed.

(** The ranks the pages hand out are received in full: summed over the
    pages, the link sums give back the sum of the ranks, provided every
    page has a link and every link leads to a page. *)
Lemma link_sum_conservation (keys : list Page) (rank : Page → Qc) (c : Corpus) :
  NoDup keys →
  (∀ q links, (q, links) ∈ c → links ≠ ∅ ∧ ∀ p, p ∈ links → p ∈ keys) →
  Qc_sum ((λ p, link_sum c rank p) <$> keys) = Qc_sum ((λ kv, rank kv.1) <$> c).
Proof.
  intros Hnd. induction c as [|[q links] c IH]; intros Hc.
  - rewrite (Qc_sum_fmap_ext _ (λ _, 0)) by done.
    rewrite Qc_sum_fmap_const. simpl. ring.
  - destruct (Hc q links) as [Hne Hsub]; [left|].
    rewrite fmap_cons, Qc_sum_cons. cbn [fst].
    rewrite <- IH by (intros q' links' Hin; apply (Hc q'); by right).
    rewrite (Qc_sum_fmap_ext _
      (λ p, (if bool_decide (p ∈ links) then 0 + rank q / Qc_of_nat (size links)
             else 0) + link_sum c rank p)).
    + rewrite Qc_sum_fmap_plus. f_equal.
      rewrite (Qc_sum_if (λ p, p ∈ links)), length_filter_links by done.
      assert (Qc_of_nat (size links) ≠ 0) as Hsize.
      { apply Qc_of_nat_ne_0. intros Hs%size_empty_iff.
        apply Hne. by apply leibniz_equiv. }
      field. done.
    + intros p _. unfold link_sum, inward.
      rewrite (filter_cons _ (q, links) c). cbn [snd].
      case_bool_decide.
      * rewrite decide_True by done. rewrite fmap_cons, Qc_sum_cons.
        cbn [fst snd]. by rewrite Qcplus_0_l.
      * rewrite decide_False by done. by rewrite Qcplus_0_l.
Qed.

Lemma Qc_sum_rank_of (ranks : Distribution) :
  dict_wf ranks →
  Qc_sum (rank_of ranks <$> dict_keys ranks) = Qc_sum (dict_values ranks).
Proof.
  intros Hwf. unfold dict_keys, dict_values. rewrite <- list_fmap_compose.
  apply Qc_sum_fmap_ext. intros [k v] Hin. simpl. unfold rank_of.
  by rewrite (dict_get_elem k v ranks).
Qed.

Lemma iterate_pagerank_equation fuel d w ranks :
  dict_wf (corpus_obj w) →
  (iterate_pagerank fuel d w).1 = Ok ranks →
  dict_keys ranks = dict_keys (corpus_obj w)
  ∧ ∀ page, page ∈ dict_keys (corpus_obj w) →
      rank_of ranks page
      = py_round (rank_formula (normalized (corpus_obj w)) d (rank_of ranks) page) 5.
Proof.
  intros Hwf Hrun.
  destruct (iterate_pagerank_outcome fuel d w Hwf) as [Hw' Hout].
  rewrite Hrun, Hw' in Hout. destruct Hout as [Hkeys Hfixed].
  split; [done|].
  set (w' := World (normalized (corpus_obj w)) (entropy w) (cursor w)) in *.
  assert (dict_wf (corpus_obj w')) as Hwf' by (by apply dict_wf_normalized).
  assert (dict_keys ranks = dict_keys (corpus_obj w')) as Hkeys'.
  { cbn [corpus_obj w']. by rewrite dict_keys_normalized. }
  destruct (sweep_in_place w' d ranks Hwf' Hkeys') as (next & Hnext & _ & Hval).
  rewrite Hfixed in Hnext. injection Hnext as <-.
  intros page [i Hi]%list_elem_of_lookup.
  rewrite <- Hkeys, Hkeys' in Hi. specialize (Hval i page Hi).
  rewrite take_drop in Hval. unfold rank_of at 1.
  erewrite dict_get_elem; [done|unfold dict_wf; by rewrite Hkeys|].
  by eapply list_elem_of_lookup_2.
Qed.

(** X13: on a non-empty corpus whose links stay inside the corpus, the
    ranks [iterate_pagerank] returns sum to 1 up to the rounding of the
    last sweep: with S their sum and N the number of pages,
    |(1 - d) (S - 1)| is at most N / 200000. *)
Theorem iterate_pagerank_sum_close_to_one (fuel : nat) (d : Qc) (w : world)
    (ranks : Distribution) :
  dict_wf (corpus_obj w) →
  corpus_closed (corpus_obj w) →
  corpus_obj w ≠ [] →
  (iterate_pagerank fuel d w).1 = Ok ranks →
  let S := Qc_sum (dict_values ranks) in
  let N := Qc_of_nat (length (corpus_obj w)) in
  (1 - d) * (S - 1) ≤ N * Q2Qc (1 # 200000)
  ∧ (1 - d) * (1 - S) ≤ N * Q2Qc (1 # 200000).
Proof.
  intros Hwf Hclosed Hne Hrun S N.
  destruct (iterate_pagerank_equation fuel d w ranks Hwf Hrun) as [Hkeys Heq].
  set (c' := normalized (corpus_obj w)) in *.
  set (keys := dict_keys (corpus_obj w)) in *.
  set (F := λ page, rank_formula c' d (rank_of ranks) page).
  assert (dict_wf ranks) as Hwfr by (unfold dict_wf; by rewrite Hkeys).
  assert (S = Qc_sum ((λ page, py_round (F page) 5) <$> keys)) as HS.
  { unfold S. rewrite <- Qc_sum_rank_of, Hkeys by done.
    apply Qc_sum_fmap_ext. intros page Hpage. by apply Heq. }
  assert (Qc_of_nat (length keys) = N) as Hlen.
  { unfold keys, N. by rewrite length_dict_keys. }
  assert (N ≠ 0) as HN.
  { apply Qc_of_nat_ne_0. by destruct (corpus_obj w). }
  assert (Qc_sum (F <$> keys) = (1 - d) + d * S) as HF.
  { unfold F, rank_formula. rewrite Qc_sum_fmap_plus, Qc_sum_fmap_const.
    rewrite Qc_sum_fmap_scale, Hlen. unfold c'. rewrite length_normalized. fold N.
    assert (Qc_sum (link_sum (normalized (corpus_obj w)) (rank_of ranks) <$> keys)
            = S) as ->; [|field; done].
    etrans.
    { apply (link_sum_conservation keys (rank_of ranks) (normalized (corpus_obj w)));
        [exact Hwf|].
      intros q links Hin.
      assert (dict_get q (normalized (corpus_obj w)) = Some links) as Hget.
      { apply dict_get_elem; [by apply dict_wf_normalized|done]. }
      split; [by eapply normalized_no_empty|].
      intros p Hp. unfold keys. rewrite <- (dict_keys_normalized (corpus_obj w)).
      by apply (normalized_closed _ Hclosed q links). }
    unfold S. rewrite <- Qc_sum_rank_of, Hkeys by done.
    change (λ kv : Page * gset Page, rank_of ranks kv.1)
      with (rank_of ranks ∘ (fst : Page * gset Page → Page)).
    rewrite list_fmap_compose.
    change (fst <$> normalized (corpus_obj w))
      with (dict_keys (normalized (corpus_obj w))).
    by rewrite dict_keys_normalized. }
  assert (S ≤ Qc_sum (F <$> keys) + N * Q2Qc (1 # 200000)) as Hup.
  { rewrite HS at 1. rewrite <- Hlen, <- Qc_sum_fmap_const, <- Qc_sum_fmap_plus.
    apply Qc_sum_fmap_le. intros page _. apply py_round_error. }
  assert (Qc_sum (F <$> keys) ≤ S + N * Q2Qc (1 # 200000)) as Hdown.
  { rewrite HS at 1. rewrite <- Hlen, <- Qc_sum_fmap_const, <- Qc_sum_fmap_plus.
    apply Qc_sum_fmap_le. intros page _. apply py_round_error. }
  rewrite HF in Hup, Hdown. split.
  - apply (Qcplus_le_mono_r _ _ (1 - d + d * S)).
    replace ((1 - d) * (S - 1) + (1 - d + d * S)) with S by ring.
    by rewrite Qcplus_comm.
  - apply (Qcplus_le_mono_r _ _ S).
    replace ((1 - d) * (1 - S) + S) with (1 - d + d * S) by ring.
    by rewrite (Qcplus_comm _ S).
Qed.

Lemma corpus_closed_cycle3 : corpus_closed cycle3.
Proof.
  intros page links Hget q Hq.
  apply dict_get_Some_elem in Hget. unfold cycle3 in Hget.
  repeat (apply elem_of_cons in Hget as [[= -> ->]|Hget];
          [revert q Hq; apply (bool_decide_unpack _); vm_compute; exact I|]).
  by apply elem_of_nil in Hget.
Qed.

Lemma iterate_pagerank_sum_close_to_one_witness :
  dict_wf cycle3 ∧ corpus_closed cycle3 ∧ cycle3 ≠ []
  ∧ (iterate_pagerank 10 d85 (init_world cycle3 zero_entropy)).1 = Ok cycle3_ranks
  ∧ (1 - d85) * (Qc_sum (dict_values cycle3_ranks) - 1)
    ≤ Qc_of_nat 3 * Q2Qc (1 # 200000)
  ∧ (1 - d85) * (1 - Qc_sum (dict_values cycle3_ranks))
    ≤ Qc_of_nat 3 * Q2Qc (1 # 200000).
Proof.
  assert (dict_wf cycle3) as Hwf by by_evaluation.
  assert (cycle3 ≠ []) as Hne by discriminate.
  split_and!;
    [exact Hwf|exact corpus_closed_cycle3|exact Hne|exact iterate_pagerank_cycle3_10|..];
    apply (iterate_pagerank_sum_close_to_one 10 d85 (init_world cycle3 zero_entropy)
             cycle3_ranks Hwf corpus_closed_cycle3 Hne iterate_pagerank_cycle3_10).
Defined.

(** ** The sampler *)

Lemma sample_loop_trace {X} (xs : list X) c d :
  dict_wf c →
  0 < d < 1 ∨ corpus_closed c →
  ∀ w sample prev,
    corpus_obj w = c →
    prev ∈ dict_keys c →
    ∃ sample' prev' w',
      for_each xs (λ st _, sample_step d st) (sample, prev) w
      = (Ok (sample', prev'), w')
      ∧ corpus_obj w' = c
      ∧ length sample' = (length sample + length xs)%nat
      ∧ ∀ p, p ∈ sample' → p ∈ sample ∨ p ∈ dict_keys c.
Proof.
  intros Hwf Hd.
  induction xs as [|x xs IH]; intros w sample prev Hc Hprev; simpl.
  - exists sample, prev, w. split_and!; [done..|lia|by left].
  - subst c.
    destruct (sample_step_run w d sample prev Hwf Hprev Hd) as (new & Hnew & Hstep).
    rewrite (bind_Ok _ _ _ _ _ Hstep).
    destruct (IH (advance w) (sample ++ [new]) new eq_refl Hnew)
      as (sample' & prev' & w' & Hrun & Hc' & Hlen & Hin).
    exists sample', prev', w'. split_and!; [done..| |].
    + rewrite Hlen, length_app. simpl. lia.
    + intros p Hp. destruct (Hin p Hp) as [Hp'|]; [|by right].
      apply elem_of_app in Hp' as [?|Hp']; [by left|].
      apply list_elem_of_singleton in Hp'. subst. by right.
Qed.

Lemma frequencies_fmap sample n :
  frequencies sample n
  = (λ i, (i, Qc_of_nat (list_count i sample) / Qc_of_Z n)) <$> remove_dups sample.
Proof.
  unfold frequencies.
  apply (foldl_dict_set_fresh
           (λ i, Qc_of_nat (list_count i sample) / Qc_of_Z n) [] (remove_dups sample)).
  apply NoDup_remove_dups.
Qed.

Lemma sample_pagerank_trace w d n :
  dict_wf (corpus_obj w) →
  corpus_obj w ≠ [] →
  0 < d < 1 ∨ corpus_closed (corpus_obj w) →
  (1 ≤ n)%Z →
  ∃ sample w',
    sample_pagerank d n w = (Ok (frequencies sample n), w')
    ∧ length sample = Z.to_nat n
    ∧ ∀ p, p ∈ sample → p ∈ dict_keys (corpus_obj w).
Proof.
  intros Hwf Hne Hd Hn.
  destruct (random_choice_run (dict_keys (corpus_obj w)) w) as (first & Hin & Hrun).
  { by destruct (corpus_obj w). }
  destruct (sample_loop_trace (seqZ 1 (n - 1)) (corpus_obj w) d Hwf Hd
              (advance w) [first] first eq_refl Hin)
    as (sample & prev & w' & Hloop & _ & Hlen & Hsample).
  exists sample, w'. split_and!.
  - unfold sample_pagerank.
    erewrite bind_Ok by done. rewrite (bind_Ok _ _ _ _ _ Hrun).
    rewrite (bind_Ok _ _ _ _ _ Hloop). apply frequencies_run. lia.
  - rewrite Hlen, length_seqZ. simpl. lia.
  - intros p Hp. destruct (Hsample p Hp) as [Hp'|]; [|done].
    apply list_elem_of_singleton in Hp'. by subst.
Qed.

Lemma Qc_of_nat_add a b : Qc_of_nat (a + b) = Qc_of_nat a + Qc_of_nat b.
Proof. unfold Qc_of_nat. by rewrite Nat2Z.inj_add, Z2Qc_inj_add. Qed.

Lemma length_filter_eq_notin (x : Page) (keys : list Page) :
  x ∉ keys → length (filter (λ i, x = i) keys) = 0%nat.
Proof.
  induction keys as [|k keys IH]; [done|].
  intros [Hne Hx]%not_elem_of_cons. rewrite filter_cons.
  rewrite decide_False by done. by apply IH.
Qed.

Lemma length_filter_eq_NoDup (x : Page) (keys : list Page) :
  NoDup keys → x ∈ keys → length (filter (λ i, x = i) keys) = 1%nat.
Proof.
  induction 1 as [|k keys Hk Hnd IH]; [by intros ?%elem_of_nil|].
  intros Hx. rewrite filter_cons. destruct (decide (x = k)) as [->|Hne].
  - simpl. f_equal. by apply length_filter_eq_notin.
  - apply IH. by apply elem_of_cons in Hx as [?|?].
Qed.

(** Every sample is counted once: over a duplicate-free list of pages
    that holds all samples, the counts add up to the number of samples. *)
Lemma list_count_sum (keys sample : list Page) :
  NoDup keys → (∀ x, x ∈ sample → x ∈ keys) →
  Qc_sum ((λ i, Qc_of_nat (list_count i sample)) <$> keys)
  = Qc_of_nat (length sample).
Proof.
  intros Hnd. induction sample as [|x sample IH]; intros Hsub.
  - rewrite (Qc_sum_fmap_ext _ (λ _, 0)) by (intros; apply Qc_of_nat_0).
    rewrite Qc_sum_fmap_const. simpl. rewrite Qc_of_nat_0. ring.
  - rewrite (Qc_sum_fmap_ext _
      (λ i, (if bool_decide (x = i) then 0 + 1 else 0)
            + Qc_of_nat (list_count i sample))).
    + rewrite Qc_sum_fmap_plus, IH by (intros y Hy; apply Hsub; by right).
      rewrite (Qc_sum_if (λ i, x = i)), length_filter_eq_NoDup;
        [|done|apply Hsub; left].
      rewrite length_cons, !Qc_of_nat_S, Qc_of_nat_0. ring.
    + intros i _. unfold list_count. rewrite filter_cons.
      case_bool_decide as Hxi.
      * rewrite decide_True by done. rewrite length_cons, Qc_of_nat_S. ring.
      * rewrite decide_False by done. ring.
Qed.

(** X14: over exact rational arithmetic, for [n ≥ 1], on a non-empty
    corpus with a damping factor in (0,1), [sample_pagerank] returns a
    mapping whose values, the frequencies [visits / n], sum to exactly 1.
    (The binary64 quotients of the program need not add up to 1.0.) *)
Theorem sample_pagerank_sums_to_one (w : world) (d : Qc) (n : Z) :
  dict_wf (corpus_obj w) →
  corpus_obj w ≠ [] →
  0 < d < 1 →
  (1 ≤ n)%Z →
  ∃ ranks,
    (sample_pagerank d n w).1 = Ok ranks ∧ Qc_sum (dict_values ranks) = 1.
Proof.
  intros Hwf Hne Hd Hn.
  destruct (sample_pagerank_trace w d n Hwf Hne (or_introl Hd) Hn)
    as (sample & w' & Hrun & Hlen & _).
  exists (frequencies sample n). split; [by rewrite Hrun|].
  rewrite frequencies_fmap. unfold dict_values. rewrite <- list_fmap_compose.
  rewrite (Qc_sum_fmap_ext _
    (λ i, / Qc_of_Z n * Qc_of_nat (list_count i sample)))
    by (intros i _; simpl; unfold Qcdiv; ring).
  rewrite Qc_sum_fmap_scale, list_count_sum.
  - rewrite Hlen. unfold Qc_of_nat. rewrite Z2Nat.id by lia.
    apply Qcmult_inv_l, Qc_of_Z_ne_0. lia.
  - apply NoDup_remove_dups.
  - intros x Hx. by apply elem_of_remove_dups.
Qed.

Lemma sample_pagerank_sums_to_one_witness :
  dict_wf corpus3 ∧ corpus_obj (init_world corpus3 zero_entropy) ≠ []
  ∧ 0 < d85 < 1
  ∧ ∃ ranks,
      (sample_pagerank d85 25 (init_world corpus3 zero_entropy)).1 = Ok ranks
      ∧ Qc_sum (dict_values ranks) = 1.
Proof.
  assert (dict_wf corpus3) as Hwf by by_evaluation.
  assert (corpus_obj (init_world corpus3 zero_entropy) ≠ []) as Hne by discriminate.
  assert (0 < d85 < 1) as Hd by (split; reflexivity).
  split_and!; [exact Hwf|exact Hne|apply Hd..|].
  apply (sample_pagerank_sums_to_one (init_world corpus3 zero_entropy) d85 25 Hwf Hne).
  - exact Hd.
  - lia.
Defined.

Lemma list_count_bounds (i : Page) (sample : list Page) :
  i ∈ sample → (1 ≤ list_count i sample ≤ length sample)%nat.
Proof.
  intros Hi. unfold list_count. split; [|apply length_filter].
  assert (i ∈ filter (λ x, x = i) sample) as Hin
    by (by apply list_elem_of_filter).
  destruct (filter (λ x, x = i) sample); [by apply elem_of_nil in Hin|simpl; lia].
Qed.

(** X15: the mapping [sample_pagerank] returns for [n ≥ 1] and a damping
    factor in (0,1) holds each visited page once and no other key: every
    key is a page of the corpus, every value is [visits / n] for a number
    of visits between 1 and [n], and there are at most [n] and at most N
    entries. *)
Theorem sample_pagerank_entries (w : world) (d : Qc) (n : Z) :
  dict_wf (corpus_obj w) →
  corpus_obj w ≠ [] →
  0 < d < 1 →
  (1 ≤ n)%Z →
  ∃ ranks,
    (sample_pagerank d n w).1 = Ok ranks
    ∧ dict_wf ranks
    ∧ (length ranks ≤ Z.to_nat n)%nat
    ∧ (length ranks ≤ length (corpus_obj w))%nat
    ∧ ∀ page v,
        dict_get page ranks = Some v →
        page ∈ dict_keys (corpus_obj w)
        ∧ ∃ visits : nat,
            (1 ≤ visits ≤ Z.to_nat n)%nat ∧ v = Qc_of_nat visits / Qc_of_Z n.
Proof.
  intros Hwf Hne Hd Hn.
  destruct (sample_pagerank_trace w d n Hwf Hne (or_introl Hd) Hn)
    as (sample & w' & Hrun & Hlen & Hsample).
  exists (frequencies sample n). split; [by rewrite Hrun|].
  rewrite frequencies_fmap.
  assert (dict_keys ((λ i, (i, Qc_of_nat (list_count i sample) / Qc_of_Z n))
                       <$> remove_dups sample) = remove_dups sample) as Hkeys
    by (by apply dict_keys_fmap_keys).
  split_and!.
  - unfold dict_wf. rewrite Hkeys. apply NoDup_remove_dups.
  - rewrite length_fmap, <- Hlen. apply submseteq_length, NoDup_submseteq.
    + apply NoDup_remove_dups.
    + intros x. by rewrite elem_of_remove_dups.
  - rewrite length_fmap, <- length_dict_keys.
    apply submseteq_length, NoDup_submseteq.
    + apply NoDup_remove_dups.
    + intros x Hx. apply Hsample. by apply (proj1 (elem_of_remove_dups _ _)).
  - intros page v Hget. apply dict_get_Some_elem in Hget.
    apply list_elem_of_fmap in Hget as (i & [= -> ->] & Hi).
    apply (proj1 (elem_of_remove_dups _ _)) in Hi. split; [by apply Hsample|].
    exists (list_count i sample). split; [|done].
    rewrite <- Hlen. by apply list_count_bounds.
Qed.

Lemma sample_pagerank_entries_witness :
  dict_wf corpus3 ∧ corpus_obj (init_world corpus3 zero_entropy) ≠ []
  ∧ 0 < d85 < 1
  ∧ ∃ ranks,
      (sample_pagerank d85 2 (init_world corpus3 zero_entropy)).1 = Ok ranks
      ∧ (length ranks ≤ 2)%nat.
Proof.
  assert (dict_wf corpus3) as Hwf by by_evaluation.
  assert (corpus_obj (init_world corpus3 zero_entropy) ≠ []) as Hne by discriminate.
  assert (0 < d85 < 1) as Hd by (split; reflexivity).
  split_and!; [exact Hwf|exact Hne|apply Hd..|].
  destruct (sample_pagerank_entries (init_world corpus3 zero_entropy) d85 2 Hwf Hne
              Hd ltac:(lia)) as (ranks & Hrun & _ & Hlen & _).
  exists ranks. split; [exact Hrun|exact Hlen].
Defined.

(** ** From the crawler to the ranks *)

Lemma crawled_nonempty findall directory filename contents :
  (filename, contents) ∈ directory →
  ends_with ".html" filename = true →
  crawled findall directory ≠ [].
Proof.
  intros Hin Hhtml Hnil.
  assert (filename ∈ dict_keys (crawled findall directory)) as Hkey.
  { rewrite dict_keys_crawled. apply list_elem_of_filter. split.
    - by apply Is_true_true.
    - apply list_elem_of_fmap. by exists (filename, contents). }
  rewrite Hnil in Hkey. by apply elem_of_nil in Hkey.
Qed.

(** X17: the corpus [crawl] builds from a directory that holds at least
    one [.html] file can be ranked by both methods with a damping factor
    in (0,1): [sample_pagerank] returns a mapping for every [n ≥ 1] and
    [iterate_pagerank] raises no exception. *)
Theorem crawl_then_rank (findall : string → list string)
    (directory : list (string * string)) (w : world)
    (filename contents : string) (d : Qc) (n : Z) :
  NoDup directory.*1 →
  (filename, contents) ∈ directory →
  ends_with ".html" filename = true →
  (1 ≤ n)%Z →
  0 < d < 1 →
  ∃ pages,
    crawl findall directory w = (Ok pages, w)
    ∧ ∀ e k,
        (∃ ranks, (sample_pagerank d n (World pages e k)).1 = Ok ranks)
        ∧ ∀ fuel ex, (iterate_pagerank fuel d (World pages e k)).1 ≠ Raise ex.
Proof.
  intros Hnd Hin Hhtml Hn Hd. exists (crawled findall directory).
  split; [by apply crawl_run|]. intros e k.
  pose proof (dict_wf_crawled findall directory Hnd) as Hwf.
  split.
  - destruct (sample_pagerank_run (World (crawled findall directory) e k) d n)
      as (ranks & w' & Hrun); [done| |by left|done|].
    + by eapply crawled_nonempty.
    + exists ranks. by rewrite Hrun.
  - intros fuel ex Hraise.
    destruct (iterate_pagerank_outcome fuel d
                (World (crawled findall directory) e k) Hwf) as [_ Hout].
    by rewrite Hraise in Hout.
Qed.

Lemma crawl_then_rank_witness :
  NoDup example_directory.*1
  ∧ ("3.html", "")%string ∈ example_directory
  ∧ ends_with ".html" "3.html" = true
  ∧ 0 < d85 < 1
  ∧ ∃ pages,
      crawl example_findall example_directory (init_world [] zero_entropy)
      = (Ok pages, init_world [] zero_entropy)
      ∧ ∃ ranks, (sample_pagerank d85 40 (World pages zero_entropy 0)).1 = Ok ranks.
Proof.
  assert (("3.html", "")%string ∈ example_directory) as Hin by by_evaluation.
  assert (0 < d85 < 1) as Hd by (split; reflexivity).
  split_and!; [exact example_directory_NoDup|exact Hin|reflexivity|apply Hd..|].
  destruct (crawl_then_rank example_findall example_directory
              (init_world [] zero_entropy) "3.html" "" d85 40
              example_directory_NoDup Hin eq_refl ltac:(lia) Hd)
    as (pages & Hrun & Hrank).
  exists pages. split; [exact Hrun|]. apply (Hrank zero_entropy 0%nat).
Defined.

Lemma normalized_id c :
  (∀ page links, (page, links) ∈ c → links ≠ ∅) → normalized c = c.
Proof.
  intros Hlinks. unfold normalized.
  rewrite <- (list_fmap_id c) at 3. apply list_fmap_ext.
  intros i [page links] Hi. simpl. f_equal. unfold fix_links.
  rewrite bool_decide_eq_false_2; [done|].
  apply (Hlinks page). by eapply list_elem_of_lookup_2.
Qed.

(** X18: when every page of the corpus has a link, [iterate_pagerank]
    leaves the world, the corpus in particular, exactly as it found it. *)
Theorem iterate_pagerank_keeps_linked_corpus (fuel : nat) (d : Qc) (w : world) :
  dict_wf (corpus_obj w) →
  (∀ page links, (page, links) ∈ corpus_obj w → links ≠ ∅) →
  (iterate_pagerank fuel d w).2 = w.
Proof.
  intros Hwf Hlinks.
  rewrite (proj1 (iterate_pagerank_outcome fuel d w Hwf)).
  rewrite normalized_id by done. by destruct w.
Qed.

Lemma iterate_pagerank_keeps_linked_corpus_witness :
  dict_wf cycle3
  ∧ (∀ page links, (page, links) ∈ cycle3 → links ≠ ∅)
  ∧ (iterate_pagerank 10 d85 (init_world cycle3 zero_entropy)).2
    = init_world cycle3 zero_entropy.
Proof.
  assert (dict_wf cycle3) as Hwf by by_evaluation.
  assert (∀ page links, (page, links) ∈ cycle3 → links ≠ ∅) as Hlinks.
  { intros page links Hin. unfold cycle3 in Hin.
    repeat (apply elem_of_cons in Hin as [[= -> ->]|Hin]; [by_evaluation|]).
    by apply elem_of_nil in Hin. }
  split_and!; [exact Hwf|exact Hlinks|].
  exact (iterate_pagerank_keeps_linked_corpus 10 d85
           (init_world cycle3 zero_entropy) Hwf Hlinks).
Defined.

Lemma dict_get_crawled_entry findall directory page contents :
  NoDup directory.*1 →
  (page, contents) ∈ directory →
  ends_with ".html" page = true →
  dict_get page (crawled findall directory)
  = Some (keep_known (dict_keys (crawled findall directory))
            (list_to_set (findall contents) ∖ {[page]})).
Proof.
  intros Hnd Hin Hhtml.
  assert (dict_get page (raw_pages findall directory)
          = Some (list_to_set (findall contents) ∖ {[page]})) as Hraw.
  { apply dict_get_elem; [by apply dict_wf_raw_pages|].
    unfold raw_pages. apply list_elem_of_fmap. exists (page, contents).
    split; [done|]. by apply elem_of_html_entries. }
  unfold crawled at 1. etrans; [apply dict_get_prod_map|].
  etrans; [exact (f_equal _ Hraw)|]. simpl. do 2 f_equal.
  unfold crawled. by rewrite dict_keys_prod_map.
Qed.

Lemma keep_known_ext (keys keys' : list Page) (links : gset Page) :
  (∀ q, q ∈ keys ↔ q ∈ keys') → keep_known keys links = keep_known keys' links.
Proof.
  intros Hkeys. apply set_eq. intros q. rewrite !elem_of_keep_known.
  by rewrite Hkeys.
Qed.

(** X19: as a mapping, the result of [crawl] does not depend on the order
    in which the directory is listed: two listings of the same files give
    every page the same links. *)
Theorem crawl_listing_order (findall : string → list string)
    (directory directory' : list (string * string)) (w w' : world)
    (pages pages' : Corpus) :
  NoDup directory.*1 →
  directory ≡ₚ directory' →
  (crawl findall directory w).1 = Ok pages →
  (crawl findall directory' w').1 = Ok pages' →
  ∀ page, dict_get page pages = dict_get page pages'.
Proof.
  intros Hnd Hperm Hrun Hrun' page.
  assert (NoDup directory'.*1) as Hnd' by (by rewrite <- Hperm).
  rewrite crawl_run in Hrun by done. rewrite crawl_run in Hrun' by done.
  injection Hrun as <-. injection Hrun' as <-.
  assert (∀ q, q ∈ dict_keys (crawled findall directory)
               ↔ q ∈ dict_keys (crawled findall directory')) as Hkeys.
  { intros q. rewrite !dict_keys_crawled, !list_elem_of_filter. by rewrite Hperm. }
  destruct (decide (page ∈ dict_keys (crawled findall directory))) as [Hpage|Hpage].
  - pose proof Hpage as Hpage'. rewrite dict_keys_crawled in Hpage'.
    apply list_elem_of_filter in Hpage' as [Hhtml Hin].
    apply Is_true_true in Hhtml.
    apply list_elem_of_fmap in Hin as ([f contents] & -> & Hin). simpl in *.
    etrans; [by apply (dict_get_crawled_entry findall directory f contents)|].
    symmetry.
    etrans; [apply (dict_get_crawled_entry findall directory' f contents);
             [done|by rewrite <- Hperm|done]|].
    f_equal. symmetry. by apply keep_known_ext.
  - etrans; [exact (proj2 (dict_get_None _ _) Hpage)|]. symmetry.
    apply dict_get_None. by rewrite <- Hkeys.
Qed.

Lemma crawl_listing_order_witness :
  NoDup example_directory.*1
  ∧ example_directory ≡ₚ reverse example_directory
  ∧ dict_get "2.html"%string (crawled example_findall example_directory)
    = dict_get "2.html"%string (crawled example_findall (reverse example_directory)).
Proof.
  assert (example_directory ≡ₚ reverse example_directory) as Hperm
    by (symmetry; apply reverse_Permutation).
  split_and!; [exact example_directory_NoDup|exact Hperm|].
  apply (crawl_listing_order example_findall example_directory
           (reverse example_directory)
           (init_world [] zero_entropy) (init_world [] zero_entropy)).
  - exact example_directory_NoDup.
  - exact Hperm.
  - by rewrite crawl_run by exact example_directory_NoDup.
  - rewrite crawl_run; [done|]. rewrite <- Hperm. exact example_directory_NoDup.
Defined.

Lemma length_filter_keep_known (links : gset Page) (keys : list Page) :
  NoDup keys →
  length (filter (λ q, q ∈ links) keys) = size (keep_known keys links).
Proof.
  intros Hnd.
  rewrite <- (size_list_to_set (C := gset Page)) by (by apply NoDup_filter).
  f_equal. apply set_eq. intros q.
  rewrite elem_of_list_to_set, list_elem_of_filter, elem_of_keep_known. tauto.
Qed.

(** X20: over exact rational arithmetic, the values [transition_model]
    returns for a page with k > 0 links, m of which lead to pages of the
    corpus, sum to (1 - d) + d m / k: they sum to 1 when every link stays
    inside the corpus, and the share d (k - m) / k of the links that leave
    it is lost. *)
Theorem transition_model_mass (w : world) (page : Page) (d : Qc)
    (links : gset Page) :
  dict_wf (corpus_obj w) →
  dict_get page (corpus_obj w) = Some links →
  (0 < size links)%nat →
  ∃ dist,
    (transition_model page d w).1 = Ok dist
    ∧ Qc_sum (dict_values dist)
      = (1 - d)
        + d * Qc_of_nat (size (keep_known (dict_keys (corpus_obj w)) links))
          / Qc_of_nat (size links).
Proof.
  intros Hwf Hget Hk.
  rewrite (transition_model_run w page d links Hwf Hget).
  eexists. split; [done|].
  rewrite transition_values, (Qc_sum_if (λ q, q ∈ links)).
  rewrite length_filter_keep_known by done. rewrite length_dict_keys.
  assert (Qc_of_nat (length (corpus_obj w)) ≠ 0) as HN.
  { apply Qc_of_nat_ne_0. apply dict_get_Some_elem in Hget.
    destruct (corpus_obj w); [by apply elem_of_nil in Hget|done]. }
  assert (Qc_of_nat (size links) ≠ 0) as Hsize by (apply Qc_of_nat_ne_0; lia).
  unfold base_probability, additional_probability.
  rewrite !bool_decide_eq_false_2 by lia. field. done.
Qed.

Lemma transition_model_mass_witness :
  dict_wf leaky
  ∧ dict_get "A"%string leaky = Some {["B"; "X"]}%string
  ∧ ∃ dist,
      (transition_model "A" d85 (init_world leaky zero_entropy)).1 = Ok dist
      ∧ Qc_sum (dict_values dist) = Q2Qc (575 # 1000).
Proof.
  assert (dict_wf leaky) as Hwf by by_evaluation.
  assert (dict_get "A"%string leaky = Some {["B"; "X"]}%string) as Hget
    by by_evaluation.
  split_and!; [exact Hwf|exact Hget|].
  destruct (transition_model_mass (init_world leaky zero_entropy) "A" d85
              {["B"; "X"]}%string Hwf Hget) as (dist & Hrun & Hsum).
  { by_evaluation. }
  exists dist. split; [exact Hrun|]. etrans; [exact Hsum|]. by_evaluation.
Defined.
